(** * Flashcard study client: pronunciation scorer, token rendering, card controller

    A shallow embedding of the algorithmic parts of the browser client:
    - [levenshtein], [normalizeForCompare], [similarityScore] and
      [evaluatePronunciation] of the shadowing page;
    - [escapeHtml] and [renderTokens] of the vocabulary page;
    - the reveal / rating handlers [showAnswer], [submitAnswer] and
      [loadCard] of the listening page.

    JavaScript strings are sequences of UTF-16 code units, modelled as
    [list N]; arrays updated in place are lists with stdpp's lookup and
    insert; numbers that hold string lengths and distances are [nat];
    the similarity ratio is an exact rational. *)

From Stdlib Require Import QArith Lqa String Ascii.
From stdpp Require Import base decidable numbers list.

Local Open Scope nat_scope.

(** ** JavaScript strings *)

(** A string is its sequence of UTF-16 code units; [s.length] is
    [length s] and [s[i]] is [s !! i]. *)
Abbreviation jsstring := (list N).

(** ** Levenshtein distance (shadowing page) *)

Section Levenshtein.
Context {A : Type} `{EqDecision A}.

(** [Math.min(x, y, z)] on non-negative integers. *)
Definition min3 (x y z : nat) : nat := Nat.min (Nat.min x y) z.

(** [const dp = new Array(n + 1); for (j = 0; j <= n; j += 1) dp[j] = j;] *)
Definition initRow (n : nat) : list nat :=
  foldl (λ dp j, <[j := j]> dp) (replicate (n + 1) 0) (seq 0 (n + 1)).

(** One turn of the inner loop, at column [j] of row [i]; the state is
    the buffer [dp] and the local [prev]. *)
Definition innerStep (a b : list A) (i : nat)
    (st : list nat * nat) (j : nat) : list nat * nat :=
  let '(dp, prev) := st in
  let temp := dp !!! j in
  let dp' :=
    if decide (a !! (i - 1) = b !! (j - 1))
    then <[j := prev]> dp
    else <[j := min3 (prev + 1) (dp !!! j + 1) (dp !!! (j - 1) + 1)]> dp in
  (dp', temp).

(** One turn of the outer loop: [prev = dp[0]; dp[0] = i;] and then the
    inner loop for [j = 1 .. n]. *)
Definition outerStep (a b : list A) (n : nat) (dp : list nat) (i : nat)
    : list nat :=
  let prev := dp !!! 0 in
  let dp0 := <[0 := i]> dp in
  (foldl (innerStep a b i) (dp0, prev) (seq 1 n)).1.

Definition levenshtein (a b : list A) : nat :=
  let m := length a in
  let n := length b in
  if decide (m = 0) then n
  else if decide (n = 0) then m
  else
    let dp := initRow n in
    let dp := foldl (outerStep a b n) dp (seq 1 m) in
    dp !!! n.

(** *** The textbook recursion

    The classic definition of the edit distance: the length of the
    other string when one is empty, the distance of the tails when the
    heads agree, and otherwise one more than the least of the three
    distances reached by a deletion, an insertion or a substitution. *)
Fixpoint lev (a b : list A) : nat :=
  match a with
  | [] => length b
  | x :: a' =>
      (fix lev_a (b : list A) : nat :=
         match b with
         | [] => length a
         | y :: b' =>
             if decide (x = y) then lev a' b'
             else S (min3 (lev a' b) (lev_a b') (lev a' b'))
         end) b
  end.

(** *** Edit scripts

    [script a b n]: [a] can be turned into [b] with single-character
    insertions, deletions and substitutions of total cost [n]. *)
Inductive script : list A → list A → nat → Prop :=
| script_nil : script [] [] 0
| script_keep x a b n : script a b n → script (x :: a) (x :: b) n
| script_subst x y a b n : script a b n → script (x :: a) (y :: b) (S n)
| script_delete x a b n : script a b n → script (x :: a) b (S n)
| script_insert y a b n : script a b n → script a (y :: b) (S n).

End Levenshtein.

(** ** String helpers shared by the pages *)

(** A literal of ASCII characters as a JavaScript string. *)
Definition js (s : string) : jsstring :=
  N_of_ascii <$> list_ascii_of_string s.
Arguments js s%_string.

(** The double quote, U+0022. *)
Definition dquote : N := 34.

(** [!s] on a string: only the empty string is falsy. *)
Definition isEmptyString (s : jsstring) : bool :=
  match s with [] => true | _ :: _ => false end.

(** [s.replace(/c/g, r)] for a single code unit [c]. *)
Definition replaceAll (c : N) (r : jsstring) (s : jsstring) : jsstring :=
  flat_map (λ x, if N.eqb x c then r else [x]) s.

(** [escapeHtml]: the five replacements in the order of the source; the
    callers modelled here always pass a string, on which the
    fallback to the empty string changes nothing. *)
Definition escapeHtml (str : jsstring) : jsstring :=
  replaceAll 39 (js "&#39;")
    (replaceAll 34 (js "&quot;")
       (replaceAll 62 (js "&gt;")
          (replaceAll 60 (js "&lt;")
             (replaceAll 38 (js "&amp;") str)))).

(** [parts.join(sep)] on an array of strings. *)
Fixpoint join (sep : jsstring) (parts : list jsstring) : jsstring :=
  match parts with
  | [] => []
  | [x] => x
  | x :: rest => x ++ sep ++ join sep rest
  end.

(** White space and line terminators, as [String.prototype.trim] strips
    them (ECMAScript WhiteSpace and LineTerminator). *)
Definition isWhiteSpace (c : N) : bool :=
  ((9 <=? c) && (c <=? 13) || (c =? 0x20) || (c =? 0xA0) || (c =? 0x1680)
   || (0x2000 <=? c) && (c <=? 0x200A)
   || (c =? 0x2028) || (c =? 0x2029) || (c =? 0x202F) || (c =? 0x205F)
   || (c =? 0x3000) || (c =? 0xFEFF))%N.

Fixpoint trimStart (s : jsstring) : jsstring :=
  match s with
  | [] => []
  | c :: s' => if isWhiteSpace c then trimStart s' else s
  end.

Fixpoint trimEnd (s : jsstring) : jsstring :=
  match s with
  | [] => []
  | c :: s' =>
      match trimEnd s' with
      | [] => if isWhiteSpace c then [] else [c]
      | r => c :: r
      end
  end.

(** [s.trim()] *)
Definition trim (s : jsstring) : jsstring := trimEnd (trimStart s).

(** ** Pronunciation similarity (shadowing page) *)

(** The class of the first replacement: the combining diacritical marks
    U+0300 to U+036F. *)
Definition isCombiningMark (c : N) : bool :=
  ((0x300 <=? c) && (c <=? 0x36F))%N.

(** The first replacement deletes every combining mark. *)
Definition stripCombiningMarks (s : jsstring) : jsstring :=
  List.filter (λ c, negb (isCombiningMark c)) s.

(** The class [a-zœæç'\-] of the second replacement. *)
Definition keptChar (c : N) : bool :=
  ((0x61 <=? c) && (c <=? 0x7A) || (c =? 0x153) || (c =? 0xE6) || (c =? 0xE7)
   || (c =? 0x27) || (c =? 0x2D))%N.

Definition space : N := 0x20%N.

(** [.replace(/[^a-zœæç'\-]+/g, " ")]: every maximal run of code units
    outside the class becomes one space. [inRun] tells that the previous
    code unit already belonged to the run being replaced. *)
Fixpoint collapseFrom (inRun : bool) (s : jsstring) : jsstring :=
  match s with
  | [] => []
  | c :: s' =>
      if keptChar c then c :: collapseFrom false s'
      else if inRun then collapseFrom true s'
      else space :: collapseFrom true s'
  end.

Definition collapseOthers (s : jsstring) : jsstring := collapseFrom false s.

Section Scorer.

(** The two string methods of the host that normalisation calls:
    [String.prototype.normalize("NFD")] and
    [String.prototype.toLowerCase]. Their tables belong to the
    JavaScript engine, not to the client; the scorer takes them as
    parameters. *)
Variable nfd : jsstring → jsstring.
Variable toLowerCase : jsstring → jsstring.

(** Every caller passes a string, so the fallback of a missing [value] to
    the empty string is never taken. *)
Definition normalizeForCompare (value : jsstring) : jsstring :=
  trim (collapseOthers (toLowerCase (stripCombiningMarks (nfd value)))).

(** The ratio is an exact rational: distances and lengths are small
    integers, and the comparisons made on the result are the same in
    double precision. *)
Definition similarityScore (expected actual : jsstring) : Q :=
  let cleanExpected := normalizeForCompare expected in
  let cleanActual := normalizeForCompare actual in
  if isEmptyString cleanExpected || isEmptyString cleanActual then 0%Q
  else
    let distance := levenshtein cleanExpected cleanActual in
    let maxLen := Nat.max (length cleanExpected) (length cleanActual) in
    if Nat.eqb maxLen 0 then 0%Q
    else (1 - inject_Z (Z.of_nat distance) / inject_Z (Z.of_nat maxLen))%Q.

(** The card of the shadowing page, as far as the scorer reads it;
    [None] is an absent field. *)
Record FrCard := {
  fr_sentence : option jsstring;
  fr_english : option jsstring;
}.

(** The texts [feedbackBox] can show. The three texts of the scoring
    path begin with the percentage [Math.round(score * 100)]; that
    number is a double-precision rounding and is left out of the model,
    which keeps the wording that follows it. *)
Inductive Feedback :=
  | FeedbackUnsupported      (* "当前浏览器不支持语音识别，请通过回放手动判断发音。" *)
  | FeedbackNoText           (* "未识别到有效文本，请再试一次。" *)
  | FeedbackVeryClose        (* "…：发音非常接近，继续保持！" *)
  | FeedbackDecent           (* "…：不错，可以再注意重音或连读。" *)
  | FeedbackLargeDeviation.  (* "…：识别偏差较大，建议重新听原音后再试。" *)

(** The contents [transcriptBox] can have. *)
Inductive Transcript :=
  | TranscriptEmpty
  | TranscriptRecognized (escaped : jsstring)
                                 (* "<strong>语音识别：</strong> " and the text *)
  | TranscriptNoResult.          (* "语音识别未返回结果，可能需要更明确的发音。" *)

(** The module state and the two boxes that [evaluatePronunciation]
    reads and writes. *)
Record FrState := {
  fr_currentCard : option FrCard;
  fr_speechRecognition : bool;       (* is [SpeechRecognition] defined *)
  fr_recognizedSegments : list jsstring;
  fr_feedbackText : option Feedback; (* [None]: not written yet *)
  fr_feedbackHidden : bool;
  fr_transcript : Transcript;
  fr_transcriptHidden : bool;
}.

(** The three tiers of the feedback text: [score >= 0.85], else
    [score >= 0.6], else the rest. *)
Definition feedbackFor (score : Q) : Feedback :=
  if Qle_bool (85 # 100) score then FeedbackVeryClose
  else if Qle_bool (6 # 10) score then FeedbackDecent
  else FeedbackLargeDeviation.

Definition evaluatePronunciation (st : FrState) : FrState :=
  match fr_currentCard st with
  | None => st
  | Some card =>
      if negb (fr_speechRecognition st) then
        {| fr_currentCard := fr_currentCard st;
           fr_speechRecognition := fr_speechRecognition st;
           fr_recognizedSegments := fr_recognizedSegments st;
           fr_feedbackText := Some FeedbackUnsupported;
           fr_feedbackHidden := false;
           fr_transcript := TranscriptEmpty;
           fr_transcriptHidden := true |}
      else
        let expected := default [] (fr_sentence card) in
        let actual := trim (join [space] (fr_recognizedSegments st)) in
        let transcript :=
          if isEmptyString actual then TranscriptNoResult
          else TranscriptRecognized (escapeHtml actual) in
        let feedback :=
          if isEmptyString actual then FeedbackNoText
          else feedbackFor (similarityScore expected actual) in
        {| fr_currentCard := fr_currentCard st;
           fr_speechRecognition := fr_speechRecognition st;
           fr_recognizedSegments := fr_recognizedSegments st;
           fr_feedbackText := Some feedback;
           fr_feedbackHidden := false;
           fr_transcript := transcript;
           fr_transcriptHidden := false |}
  end.

End Scorer.

(** ** The host's string methods on Latin text

    An instance of the two parameters of the scorer, used to run it on
    concrete inputs: canonical decomposition and lower-casing by the
    tables of the Unicode Character Database for U+0000 to U+017F (Basic
    Latin, Latin-1 Supplement, Latin Extended-A). In that range no
    character is a combining mark, so decomposition needs no reordering;
    code units above U+017F are left as they are. *)
Module Latin.

Definition decompositions : list (N * list N) := Eval cbv in
  map (λ e, (N.of_nat e.1, map N.of_nat e.2))
  [
   (192, [65; 768]); (193, [65; 769]); (194, [65; 770]); (195, [65; 771]);
   (196, [65; 776]); (197, [65; 778]); (199, [67; 807]); (200, [69; 768]);
   (201, [69; 769]); (202, [69; 770]); (203, [69; 776]); (204, [73; 768]);
   (205, [73; 769]); (206, [73; 770]); (207, [73; 776]); (209, [78; 771]);
   (210, [79; 768]); (211, [79; 769]); (212, [79; 770]); (213, [79; 771]);
   (214, [79; 776]); (217, [85; 768]); (218, [85; 769]); (219, [85; 770]);
   (220, [85; 776]); (221, [89; 769]); (224, [97; 768]); (225, [97; 769]);
   (226, [97; 770]); (227, [97; 771]); (228, [97; 776]); (229, [97; 778]);
   (231, [99; 807]); (232, [101; 768]); (233, [101; 769]); (234, [101; 770]);
   (235, [101; 776]); (236, [105; 768]); (237, [105; 769]); (238, [105; 770]);
   (239, [105; 776]); (241, [110; 771]); (242, [111; 768]); (243, [111; 769]);
   (244, [111; 770]); (245, [111; 771]); (246, [111; 776]); (249, [117; 768]);
   (250, [117; 769]); (251, [117; 770]); (252, [117; 776]); (253, [121; 769]);
   (255, [121; 776]); (256, [65; 772]); (257, [97; 772]); (258, [65; 774]);
   (259, [97; 774]); (260, [65; 808]); (261, [97; 808]); (262, [67; 769]);
   (263, [99; 769]); (264, [67; 770]); (265, [99; 770]); (266, [67; 775]);
   (267, [99; 775]); (268, [67; 780]); (269, [99; 780]); (270, [68; 780]);
   (271, [100; 780]); (274, [69; 772]); (275, [101; 772]); (276, [69; 774]);
   (277, [101; 774]); (278, [69; 775]); (279, [101; 775]); (280, [69; 808]);
   (281, [101; 808]); (282, [69; 780]); (283, [101; 780]); (284, [71; 770]);
   (285, [103; 770]); (286, [71; 774]); (287, [103; 774]); (288, [71; 775]);
   (289, [103; 775]); (290, [71; 807]); (291, [103; 807]); (292, [72; 770]);
   (293, [104; 770]); (296, [73; 771]); (297, [105; 771]); (298, [73; 772]);
   (299, [105; 772]); (300, [73; 774]); (301, [105; 774]); (302, [73; 808]);
   (303, [105; 808]); (304, [73; 775]); (308, [74; 770]); (309, [106; 770]);
   (310, [75; 807]); (311, [107; 807]); (313, [76; 769]); (314, [108; 769]);
   (315, [76; 807]); (316, [108; 807]); (317, [76; 780]); (318, [108; 780]);
   (323, [78; 769]); (324, [110; 769]); (325, [78; 807]); (326, [110; 807]);
   (327, [78; 780]); (328, [110; 780]); (332, [79; 772]); (333, [111; 772]);
   (334, [79; 774]); (335, [111; 774]); (336, [79; 779]); (337, [111; 779]);
   (340, [82; 769]); (341, [114; 769]); (342, [82; 807]); (343, [114; 807]);
   (344, [82; 780]); (345, [114; 780]); (346, [83; 769]); (347, [115; 769]);
   (348, [83; 770]); (349, [115; 770]); (350, [83; 807]); (351, [115; 807]);
   (352, [83; 780]); (353, [115; 780]); (354, [84; 807]); (355, [116; 807]);
   (356, [84; 780]); (357, [116; 780]); (360, [85; 771]); (361, [117; 771]);
   (362, [85; 772]); (363, [117; 772]); (364, [85; 774]); (365, [117; 774]);
   (366, [85; 778]); (367, [117; 778]); (368, [85; 779]); (369, [117; 779]);
   (370, [85; 808]); (371, [117; 808]); (372, [87; 770]); (373, [119; 770]);
   (374, [89; 770]); (375, [121; 770]); (376, [89; 776]); (377, [90; 769]);
   (378, [122; 769]); (379, [90; 775]); (380, [122; 775]); (381, [90; 780]);
   (382, [122; 780])
  ]%nat.

Definition lowerCases : list (N * list N) := Eval cbv in
  map (λ e, (N.of_nat e.1, map N.of_nat e.2))
  [
   (65, [97]); (66, [98]); (67, [99]); (68, [100]);
   (69, [101]); (70, [102]); (71, [103]); (72, [104]);
   (73, [105]); (74, [106]); (75, [107]); (76, [108]);
   (77, [109]); (78, [110]); (79, [111]); (80, [112]);
   (81, [113]); (82, [114]); (83, [115]); (84, [116]);
   (85, [117]); (86, [118]); (87, [119]); (88, [120]);
   (89, [121]); (90, [122]); (192, [224]); (193, [225]);
   (194, [226]); (195, [227]); (196, [228]); (197, [229]);
   (198, [230]); (199, [231]); (200, [232]); (201, [233]);
   (202, [234]); (203, [235]); (204, [236]); (205, [237]);
   (206, [238]); (207, [239]); (208, [240]); (209, [241]);
   (210, [242]); (211, [243]); (212, [244]); (213, [245]);
   (214, [246]); (216, [248]); (217, [249]); (218, [250]);
   (219, [251]); (220, [252]); (221, [253]); (222, [254]);
   (256, [257]); (258, [259]); (260, [261]); (262, [263]);
   (264, [265]); (266, [267]); (268, [269]); (270, [271]);
   (272, [273]); (274, [275]); (276, [277]); (278, [279]);
   (280, [281]); (282, [283]); (284, [285]); (286, [287]);
   (288, [289]); (290, [291]); (292, [293]); (294, [295]);
   (296, [297]); (298, [299]); (300, [301]); (302, [303]);
   (304, [105; 775]); (306, [307]); (308, [309]); (310, [311]);
   (313, [314]); (315, [316]); (317, [318]); (319, [320]);
   (321, [322]); (323, [324]); (325, [326]); (327, [328]);
   (330, [331]); (332, [333]); (334, [335]); (336, [337]);
   (338, [339]); (340, [341]); (342, [343]); (344, [345]);
   (346, [347]); (348, [349]); (350, [351]); (352, [353]);
   (354, [355]); (356, [357]); (358, [359]); (360, [361]);
   (362, [363]); (364, [365]); (366, [367]); (368, [369]);
   (370, [371]); (372, [373]); (374, [375]); (376, [255]);
   (377, [378]); (379, [380]); (381, [382])
  ]%nat.

Fixpoint tableLookup (c : N) (t : list (N * list N)) : option (list N) :=
  match t with
  | [] => None
  | (k, v) :: t' => if N.eqb c k then Some v else tableLookup c t'
  end.

Definition mapChar (t : list (N * list N)) (c : N) : list N :=
  default [c] (tableLookup c t).

Definition nfd (s : jsstring) : jsstring := flat_map (mapChar decompositions) s.

Definition toLowerCase (s : jsstring) : jsstring :=
  flat_map (mapChar lowerCases) s.

End Latin.

(** ** Predicates used in the statements about normalisation *)

(** The characters a normalised string is made of: a to z, œ, æ, the
    apostrophe, the hyphen and the space. *)
Definition plainChar (c : N) : bool :=
  (keptChar c && negb (c =? 0xE7) || (c =? 0x20))%N.

(** [wellSpacedFrom afterSpace s]: [s] consists of characters of the kept
    class and single spaces, and does not begin with a space when
    [afterSpace] is set. *)
Fixpoint wellSpacedFrom (afterSpace : bool) (s : jsstring) : bool :=
  match s with
  | [] => true
  | c :: s' =>
      if keptChar c then wellSpacedFrom false s'
      else (c =? space)%N && negb afterSpace && wellSpacedFrom true s'
  end.

(** What normalisation relies on from the host's two string methods. *)

(** The method leaves a string of plain characters as it is. *)
Definition FixesPlain (f : jsstring → jsstring) : Prop :=
  ∀ s, Forall (λ c, plainChar c = true) s → f s = s.

(** A canonically decomposed string holds neither ç (U+00E7) nor Ç
    (U+00C7): both decompose into the letter and the combining cedilla. *)
Definition cedilla : N := 0xE7.
Definition capitalCedilla : N := 0xC7.

Definition DecomposesCedilla (nfd : jsstring → jsstring) : Prop :=
  ∀ s, (cedilla ∉ nfd s) ∧ (capitalCedilla ∉ nfd s).

(** Lower-casing yields ç only from ç or Ç. *)
Definition LowersToCedilla (toLowerCase : jsstring → jsstring) : Prop :=
  ∀ s, cedilla ∈ toLowerCase s → cedilla ∈ s ∨ capitalCedilla ∈ s.

(** The plain characters, listed. *)
Definition plainChars : list N :=
  (N.of_nat <$> seq 97 26) ++ [0x153; 0xE6; 0x27; 0x2D; 0x20]%N.

(** ** Token rendering (vocabulary and listening pages) *)

(** A token of the diff service. The status is the string the service
    sent: the code compares it with "match" and "missing" and treats
    every other value alike. *)
Record Token := {
  text : jsstring;
  status : jsstring;
}.

(** [/^[,.;!?):\]”’]$/.test(t)]: [t] is one code unit of the class. *)
Definition isPunctText (t : jsstring) : bool :=
  match t with
  | [c] =>
      ((c =? 44) || (c =? 46) || (c =? 59) || (c =? 33) || (c =? 63)
       || (c =? 41) || (c =? 58) || (c =? 93) || (c =? 0x201D)
       || (c =? 0x2019))%N
  | _ => false
  end.

(** [/^[({“‘]$/.test(t)] *)
Definition isOpeningText (t : jsstring) : bool :=
  match t with
  | [c] => ((c =? 40) || (c =? 123) || (c =? 0x201C) || (c =? 0x2018))%N
  | _ => false
  end.

(** The class chosen by the conditional chain on [token.status]. *)
Definition tokenClass (token : Token) : jsstring :=
  if decide (status token = js "match") then js "diff-match"
  else if decide (status token = js "missing") then js "diff-miss"
  else js "diff-extra".

(** The template literal of the span. *)
Definition tokenHtml (token : Token) : jsstring :=
  js "<span class=" ++ [dquote] ++ tokenClass token ++ [dquote] ++ js ">"
    ++ escapeHtml (text token) ++ js "</span>".

(** The callback of [tokens.forEach]: [parts] is the array being filled;
    [tokens[idx - 1]] is undefined at index 0. *)
Definition renderStep (tokens : list Token) (parts : list jsstring)
    (entry : nat * Token) : list jsstring :=
  let '(idx, token) := entry in
  let html := tokenHtml token in
  let prev := if Nat.eqb idx 0 then None else tokens !! (idx - 1) in
  let isPunct := isPunctText (text token) in
  let prevIsOpening :=
    match prev with Some p => isOpeningText (text p) | None => false end in
  let parts :=
    if Nat.ltb 0 idx && negb isPunct && negb prevIsOpening
    then parts ++ [[space]] else parts in
  parts ++ [html].

(** [None] is a missing list ([null] or [undefined]). *)
Definition renderTokens (tokens : option (list Token)) : jsstring :=
  match tokens with
  | None => []
  | Some ts =>
      if Nat.eqb (length ts) 0 then []
      else join [] (foldl (renderStep ts) [] (zip (seq 0 (length ts)) ts))
  end.

(** *** The rendering rule in the specification's words *)

(** The closing punctuation: , . ; ! ? ) : ] and the right double and
    single quotation marks. *)
Definition closingPunctuation : list N :=
  [44; 46; 59; 33; 63; 41; 58; 93; 0x201D; 0x2019]%N.

(** The opening brackets and quotes: ( { and the left double and single
    quotation marks. *)
Definition openingMarks : list N := [40; 123; 0x201C; 0x2018]%N.

Definition isSingle (set : list N) (t : jsstring) : Prop :=
  ∃ c, t = [c] ∧ c ∈ set.

Global Instance isSingle_dec set t : Decision (isSingle set t).
Proof.
  destruct t as [|c [|d t]].
  - right. by intros (c & ? & _).
  - destruct (decide (c ∈ set)) as [Hc|Hc].
    + left. by exists c.
    + right. intros (c' & [= <-] & ?). done.
  - right. by intros (c' & ? & _).
Defined.

(** What stands between two neighbouring tokens. *)
Definition separator (prev cur : Token) : jsstring :=
  if decide (isSingle closingPunctuation (text cur)) then []
  else if decide (isSingle openingMarks (text prev)) then []
  else [space].

(** A span of a given class around the escaped text. *)
Definition spanOf (cls : jsstring) (t : Token) : jsstring :=
  js "<span class=" ++ [dquote] ++ cls ++ [dquote] ++ js ">"
    ++ escapeHtml (text t) ++ js "</span>".

(** The spans of the tokens after [prev], each preceded by its
    separator. *)
Fixpoint spansAfter (prev : Token) (ts : list Token) : jsstring :=
  match ts with
  | [] => []
  | t :: ts' => separator prev t ++ tokenHtml t ++ spansAfter t ts'
  end.

Definition joinSpans (ts : list Token) : jsstring :=
  match ts with
  | [] => []
  | t :: ts' => tokenHtml t ++ spansAfter t ts'
  end.

(** ** Token rendering on the values the page receives

    [renderTokens] is handed what [res.json()] produced. The definitions
    above read every entry as a token whose text and status are strings.
    The ones below follow the same statements on JSON values, where
    reading a property of [null] throws a TypeError and so does calling
    [replace] on a value that has no such method. *)
Module Untyped.

(** A JSON value as far as [renderTokens] looks into it: of an array
    only that it is one, of an object its [text] and [status]
    properties, [VUndefined] where the object has none. *)
Inductive Value :=
  | VUndefined
  | VNull
  | VBool (b : bool)
  | VNumber (n : Q)
  | VString (s : jsstring)
  | VArray
  | VObject (text status : Value).

(** The conversion to a boolean made by [||] and by [? :]. *)
Definition truthy (v : Value) : bool :=
  match v with
  | VUndefined | VNull => false
  | VBool b => b
  | VNumber n => negb (Qeq_bool n 0)
  | VString s => negb (isEmptyString s)
  | VArray | VObject _ _ => true
  end.

(** Reading a property of [null] or [undefined] throws. *)
Definition isNullish (v : Value) : bool :=
  match v with
  | VUndefined | VNull => true
  | _ => false
  end.

(** [v.text] and [v.status] of a value that is not nullish: a boolean, a
    number, a string and an array have neither property. *)
Definition textOf (v : Value) : Value :=
  match v with
  | VObject text _ => text
  | _ => VUndefined
  end.

Definition statusOf (v : Value) : Value :=
  match v with
  | VObject _ status => status
  | _ => VUndefined
  end.

(** [status === s]: only the string [s] is strictly equal to it. *)
Definition strictEqual (status : Value) (s : jsstring) : bool :=
  match status with
  | VString t => bool_decide (t = s)
  | _ => false
  end.

Definition tokenClass (token : Value) : jsstring :=
  if strictEqual (statusOf token) (js "match") then js "diff-match"
  else if strictEqual (statusOf token) (js "missing") then js "diff-miss"
  else js "diff-extra".

(** [escapeHtml] starts from [str], or from the empty string when [str]
    is falsy, and calls [replace] on it: a truthy value that is not a
    string has no [replace], and the call throws. [None] is the
    TypeError. *)
Definition escapeHtml (str : Value) : option jsstring :=
  match (if truthy str then str else VString []) with
  | VString s => Some (escapeHtml s)
  | _ => None
  end.

(** [re.test(v)] for the two patterns of one character: [v] is converted
    to a string first. The string of [undefined], of [null], of a
    boolean, of a number and of an object is not one character of either
    class. An array is never tested: [escapeHtml] has thrown on it. *)
Definition test (re : jsstring → bool) (v : Value) : bool :=
  match v with
  | VString s => re s
  | _ => false
  end.

(** The callback of [tokens.forEach]. [None] is a TypeError thrown by
    this call or by an earlier one, which ends the loop. *)
Definition renderStep (tokens : list Value) (acc : option (list jsstring))
    (entry : nat * Value) : option (list jsstring) :=
  match acc with
  | None => None
  | Some parts =>
      let '(idx, token) := entry in
      if isNullish token then None
      else
        let cls := tokenClass token in
        match escapeHtml (textOf token) with
        | None => None
        | Some escaped =>
            let html :=
              js "<span class=" ++ [dquote] ++ cls ++ [dquote] ++ js ">"
                ++ escaped ++ js "</span>" in
            let prev :=
              if Nat.eqb idx 0 then VUndefined
              else default VUndefined (tokens !! (idx - 1)) in
            let isPunct := test isPunctText (textOf token) in
            let prevIsOpening :=
              if truthy prev then test isOpeningText (textOf prev)
              else false in
            let parts :=
              if Nat.ltb 0 idx && negb isPunct && negb prevIsOpening
              then parts ++ [[space]] else parts in
            Some (parts ++ [html])
        end
  end.

(** What a call of [renderTokens] ends in. *)
Inductive Completion :=
  | Returned (html : jsstring)
  | TypeError.

(** [None] is a missing list ([null] or [undefined]). *)
Definition renderTokens (tokens : option (list Value)) : Completion :=
  match tokens with
  | None => Returned []
  | Some ts =>
      if Nat.eqb (length ts) 0 then Returned []
      else
        match foldl (renderStep ts) (Some []) (zip (seq 0 (length ts)) ts) with
        | Some parts => Returned (join [] parts)
        | None => TypeError
        end
  end.

(** The entries on which the callback does not throw: values that are
    not nullish and whose text is falsy or a string. *)
Definition renderable (token : Value) : bool :=
  negb (isNullish token) &&
  match textOf token with
  | VString _ => true
  | text => negb (truthy text)
  end.

(** A token of the data model as the value the service sends. *)
Definition ofToken (token : Token) : Value :=
  VObject (VString (text token)) (VString (status token)).

(** A renderable entry read as a token of the data model: a falsy text
    is rendered like the empty one, and a status that is not a string
    like an unknown one. *)
Definition toToken (token : Value) : Token :=
  {| text := match textOf token with VString s => s | _ => [] end;
     status := match statusOf token with VString s => s | _ => [] end |}.

End Untyped.

(** ** The card controller of the listening page

    The page's module state and the parts of the document its handlers
    read and write. An asynchronous handler is a function of the state
    and of the responses its awaited requests receive; it returns the
    new state and the requests it sent, in order. The part of a handler
    that runs before its first [await] is a function of its own, since
    another handler can only run once that part has finished. *)
Module Listening.

Inductive CardType := TListening | TWord | TWriting | TOther.

Record CardData := {
  d_prompt : option jsstring;
  d_transcript : option jsstring;
  d_word : option jsstring;
  d_original : option jsstring;
  d_corrected : option jsstring;
  d_source : option jsstring;
  d_audioUrl : option jsstring;
}.

Record Card := {
  cardId : Z;
  cardType : CardType;
  data : CardData;
  questionHtml : option jsstring;
  answerHtml : option jsstring;
  buttons : option (list Z);      (* [None]: not an array *)
}.

(** What [promptEl] shows. *)
Inductive Prompt :=
  | PromptEmpty
  | PromptData (s : jsstring)          (* [data.prompt] *)
  | PromptQuestion (html : jsstring).  (* [questionHtml] without its play tags *)

(** The message of a caught error. *)
Inductive ErrorMessage :=
  | ServerReturned (code : Z)          (* "服务器返回 " and the status code *)
  | ErrorText (msg : jsstring).        (* the server's [error], or the exception's text *)

(** What [statusEl] shows. *)
Inductive Status :=
  | StatusEmpty
  | StatusLoading                      (* "加载中…" *)
  | StatusNoDueCard                    (* "当前没有到期的卡片。" *)
  | StatusLoadFailed (e : ErrorMessage)
  | StatusCurrentCard (c : Card)
  | StatusSubmitting                   (* "提交中…" *)
  | StatusSubmitted                    (* "答案已提交，获取下一张…" *)
  | StatusSubmitFailed (e : ErrorMessage).

(** What [answerBox] holds. *)
Inductive AnswerHtml :=
  | AnswerBlank
  | AnswerDiff (listening : bool) (expectedHtml : jsstring)
      (source : option jsstring) (actualHtml : option jsstring)
      (translationOf : option jsstring)
      (* [actualHtml = None]: the "not filled in" marker *)
  | AnswerPlain (expected : jsstring) (source : option jsstring)
      (user : option jsstring)         (* the fallback when the diff failed *)
  | AnswerCorrection (corrected : jsstring)
  | AnswerRaw (html : jsstring)
  | AnswerMissing.                     (* "<em>无答案</em>" *)

Record EaseButton := {
  ease : Z;
  disabled : bool;
}.

Record State := {
  currentCard : option Card;                  (* let currentCard *)
  answerShown : bool;                         (* let answerShown *)
  statusText : Status;                        (* statusEl.textContent *)
  nextDisabled : bool;                        (* nextBtn.disabled *)
  revealDisabled : bool;                      (* revealBtn.disabled *)
  promptText : Prompt;                        (* promptEl *)
  writingOriginalHidden : bool;               (* writingOriginal has class hidden *)
  writingOriginalContent : jsstring;          (* writingOriginalContent.textContent *)
  audioWrapperHidden : bool;                  (* audioWrapper has class hidden *)
  audioSrc : option jsstring;                 (* audioPlayer.src *)
  answerBoxHidden : bool;                     (* answerBox has class hidden *)
  answerBoxHtml : AnswerHtml;                 (* answerBox.innerHTML *)
  easeButtonsHidden : bool;                   (* easeButtons has class hidden *)
  easeButtons : list EaseButton;              (* the buttons inside easeButtons *)
  listenInputWrapperHidden : bool;            (* listenInputWrapper has class hidden *)
  listenInputValue : jsstring;                (* listenInput.value *)
  wordInputWrapperHidden : bool;              (* wordInputWrapper has class hidden *)
  wordInputValue : jsstring;                  (* wordInput.value *)
}.

Definition set_currentCard (v : option Card) (st : State) : State :=
  {| currentCard := v; answerShown := answerShown st;
     statusText := statusText st; nextDisabled := nextDisabled st;
     revealDisabled := revealDisabled st; promptText := promptText st;
     writingOriginalHidden := writingOriginalHidden st;
     writingOriginalContent := writingOriginalContent st;
     audioWrapperHidden := audioWrapperHidden st; audioSrc := audioSrc st;
     answerBoxHidden := answerBoxHidden st;
     answerBoxHtml := answerBoxHtml st;
     easeButtonsHidden := easeButtonsHidden st;
     easeButtons := easeButtons st;
     listenInputWrapperHidden := listenInputWrapperHidden st;
     listenInputValue := listenInputValue st;
     wordInputWrapperHidden := wordInputWrapperHidden st;
     wordInputValue := wordInputValue st |}.

Definition set_answerShown (v : bool) (st : State) : State :=
  {| currentCard := currentCard st; answerShown := v;
     statusText := statusText st; nextDisabled := nextDisabled st;
     revealDisabled := revealDisabled st; promptText := promptText st;
     writingOriginalHidden := writingOriginalHidden st;
     writingOriginalContent := writingOriginalContent st;
     audioWrapperHidden := audioWrapperHidden st; audioSrc := audioSrc st;
     answerBoxHidden := answerBoxHidden st;
     answerBoxHtml := answerBoxHtml st;
     easeButtonsHidden := easeButtonsHidden st;
     easeButtons := easeButtons st;
     listenInputWrapperHidden := listenInputWrapperHidden st;
     listenInputValue := listenInputValue st;
     wordInputWrapperHidden := wordInputWrapperHidden st;
     wordInputValue := wordInputValue st |}.

Definition set_statusText (v : Status) (st : State) : State :=
  {| currentCard := currentCard st; answerShown := answerShown st;
     statusText := v; nextDisabled := nextDisabled st;
     revealDisabled := revealDisabled st; promptText := promptText st;
     writingOriginalHidden := writingOriginalHidden st;
     writingOriginalContent := writingOriginalContent st;
     audioWrapperHidden := audioWrapperHidden st; audioSrc := audioSrc st;
     answerBoxHidden := answerBoxHidden st;
     answerBoxHtml := answerBoxHtml st;
     easeButtonsHidden := easeButtonsHidden st;
     easeButtons := easeButtons st;
     listenInputWrapperHidden := listenInputWrapperHidden st;
     listenInputValue := listenInputValue st;
     wordInputWrapperHidden := wordInputWrapperHidden st;
     wordInputValue := wordInputValue st |}.

Definition set_nextDisabled (v : bool) (st : State) : State :=
  {| currentCard := currentCard st; answerShown := answerShown st;
     statusText := statusText st; nextDisabled := v;
     revealDisabled := revealDisabled st; promptText := promptText st;
     writingOriginalHidden := writingOriginalHidden st;
     writingOriginalContent := writingOriginalContent st;
     audioWrapperHidden := audioWrapperHidden st; audioSrc := audioSrc st;
     answerBoxHidden := answerBoxHidden st;
     answerBoxHtml := answerBoxHtml st;
     easeButtonsHidden := easeButtonsHidden st;
     easeButtons := easeButtons st;
     listenInputWrapperHidden := listenInputWrapperHidden st;
     listenInputValue := listenInputValue st;
     wordInputWrapperHidden := wordInputWrapperHidden st;
     wordInputValue := wordInputValue st |}.

Definition set_revealDisabled (v : bool) (st : State) : State :=
  {| currentCard := currentCard st; answerShown := answerShown st;
     statusText := statusText st; nextDisabled := nextDisabled st;
     revealDisabled := v; promptText := promptText st;
     writingOriginalHidden := writingOriginalHidden st;
     writingOriginalContent := writingOriginalContent st;
     audioWrapperHidden := audioWrapperHidden st; audioSrc := audioSrc st;
     answerBoxHidden := answerBoxHidden st;
     answerBoxHtml := answerBoxHtml st;
     easeButtonsHidden := easeButtonsHidden st;
     easeButtons := easeButtons st;
     listenInputWrapperHidden := listenInputWrapperHidden st;
     listenInputValue := listenInputValue st;
     wordInputWrapperHidden := wordInputWrapperHidden st;
     wordInputValue := wordInputValue st |}.

Definition set_promptText (v : Prompt) (st : State) : State :=
  {| currentCard := currentCard st; answerShown := answerShown st;
     statusText := statusText st; nextDisabled := nextDisabled st;
     revealDisabled := revealDisabled st; promptText := v;
     writingOriginalHidden := writingOriginalHidden st;
     writingOriginalContent := writingOriginalContent st;
     audioWrapperHidden := audioWrapperHidden st; audioSrc := audioSrc st;
     answerBoxHidden := answerBoxHidden st;
     answerBoxHtml := answerBoxHtml st;
     easeButtonsHidden := easeButtonsHidden st;
     easeButtons := easeButtons st;
     listenInputWrapperHidden := listenInputWrapperHidden st;
     listenInputValue := listenInputValue st;
     wordInputWrapperHidden := wordInputWrapperHidden st;
     wordInputValue := wordInputValue st |}.

Definition set_writingOriginalHidden (v : bool) (st : State) : State :=
  {| currentCard := currentCard st; answerShown := answerShown st;
     statusText := statusText st; nextDisabled := nextDisabled st;
     revealDisabled := revealDisabled st; promptText := promptText st;
     writingOriginalHidden := v;
     writingOriginalContent := writingOriginalContent st;
     audioWrapperHidden := audioWrapperHidden st; audioSrc := audioSrc st;
     answerBoxHidden := answerBoxHidden st;
     answerBoxHtml := answerBoxHtml st;
     easeButtonsHidden := easeButtonsHidden st;
     easeButtons := easeButtons st;
     listenInputWrapperHidden := listenInputWrapperHidden st;
     listenInputValue := listenInputValue st;
     wordInputWrapperHidden := wordInputWrapperHidden st;
     wordInputValue := wordInputValue st |}.

Definition set_writingOriginalContent (v : jsstring) (st : State) : State :=
  {| currentCard := currentCard st; answerShown := answerShown st;
     statusText := statusText st; nextDisabled := nextDisabled st;
     revealDisabled := revealDisabled st; promptText := promptText st;
     writingOriginalHidden := writingOriginalHidden st;
     writingOriginalContent := v;
     audioWrapperHidden := audioWrapperHidden st; audioSrc := audioSrc st;
     answerBoxHidden := answerBoxHidden st;
     answerBoxHtml := answerBoxHtml st;
     easeButtonsHidden := easeButtonsHidden st;
     easeButtons := easeButtons st;
     listenInputWrapperHidden := listenInputWrapperHidden st;
     listenInputValue := listenInputValue st;
     wordInputWrapperHidden := wordInputWrapperHidden st;
     wordInputValue := wordInputValue st |}.

Definition set_audioWrapperHidden (v : bool) (st : State) : State :=
  {| currentCard := currentCard st; answerShown := answerShown st;
     statusText := statusText st; nextDisabled := nextDisabled st;
     revealDisabled := revealDisabled st; promptText := promptText st;
     writingOriginalHidden := writingOriginalHidden st;
     writingOriginalContent := writingOriginalContent st;
     audioWrapperHidden := v; audioSrc := audioSrc st;
     answerBoxHidden := answerBoxHidden st;
     answerBoxHtml := answerBoxHtml st;
     easeButtonsHidden := easeButtonsHidden st;
     easeButtons := easeButtons st;
     listenInputWrapperHidden := listenInputWrapperHidden st;
     listenInputValue := listenInputValue st;
     wordInputWrapperHidden := wordInputWrapperHidden st;
     wordInputValue := wordInputValue st |}.

Definition set_audioSrc (v : option jsstring) (st : State) : State :=
  {| currentCard := currentCard st; answerShown := answerShown st;
     statusText := statusText st; nextDisabled := nextDisabled st;
     revealDisabled := revealDisabled st; promptText := promptText st;
     writingOriginalHidden := writingOriginalHidden st;
     writingOriginalContent := writingOriginalContent st;
     audioWrapperHidden := audioWrapperHidden st; audioSrc := v;
     answerBoxHidden := answerBoxHidden st;
     answerBoxHtml := answerBoxHtml st;
     easeButtonsHidden := easeButtonsHidden st;
     easeButtons := easeButtons st;
     listenInputWrapperHidden := listenInputWrapperHidden st;
     listenInputValue := listenInputValue st;
     wordInputWrapperHidden := wordInputWrapperHidden st;
     wordInputValue := wordInputValue st |}.

Definition set_answerBoxHidden (v : bool) (st : State) : State :=
  {| currentCard := currentCard st; answerShown := answerShown st;
     statusText := statusText st; nextDisabled := nextDisabled st;
     revealDisabled := revealDisabled st; promptText := promptText st;
     writingOriginalHidden := writingOriginalHidden st;
     writingOriginalContent := writingOriginalContent st;
     audioWrapperHidden := audioWrapperHidden st; audioSrc := audioSrc st;
     answerBoxHidden := v; answerBoxHtml := answerBoxHtml st;
     easeButtonsHidden := easeButtonsHidden st;
     easeButtons := easeButtons st;
     listenInputWrapperHidden := listenInputWrapperHidden st;
     listenInputValue := listenInputValue st;
     wordInputWrapperHidden := wordInputWrapperHidden st;
     wordInputValue := wordInputValue st |}.

Definition set_answerBoxHtml (v : AnswerHtml) (st : State) : State :=
  {| currentCard := currentCard st; answerShown := answerShown st;
     statusText := statusText st; nextDisabled := nextDisabled st;
     revealDisabled := revealDisabled st; promptText := promptText st;
     writingOriginalHidden := writingOriginalHidden st;
     writingOriginalContent := writingOriginalContent st;
     audioWrapperHidden := audioWrapperHidden st; audioSrc := audioSrc st;
     answerBoxHidden := answerBoxHidden st; answerBoxHtml := v;
     easeButtonsHidden := easeButtonsHidden st;
     easeButtons := easeButtons st;
     listenInputWrapperHidden := listenInputWrapperHidden st;
     listenInputValue := listenInputValue st;
     wordInputWrapperHidden := wordInputWrapperHidden st;
     wordInputValue := wordInputValue st |}.

Definition set_easeButtonsHidden (v : bool) (st : State) : State :=
  {| currentCard := currentCard st; answerShown := answerShown st;
     statusText := statusText st; nextDisabled := nextDisabled st;
     revealDisabled := revealDisabled st; promptText := promptText st;
     writingOriginalHidden := writingOriginalHidden st;
     writingOriginalContent := writingOriginalContent st;
     audioWrapperHidden := audioWrapperHidden st; audioSrc := audioSrc st;
     answerBoxHidden := answerBoxHidden st;
     answerBoxHtml := answerBoxHtml st; easeButtonsHidden := v;
     easeButtons := easeButtons st;
     listenInputWrapperHidden := listenInputWrapperHidden st;
     listenInputValue := listenInputValue st;
     wordInputWrapperHidden := wordInputWrapperHidden st;
     wordInputValue := wordInputValue st |}.

Definition set_easeButtons (v : list EaseButton) (st : State) : State :=
  {| currentCard := currentCard st; answerShown := answerShown st;
     statusText := statusText st; nextDisabled := nextDisabled st;
     revealDisabled := revealDisabled st; promptText := promptText st;
     writingOriginalHidden := writingOriginalHidden st;
     writingOriginalContent := writingOriginalContent st;
     audioWrapperHidden := audioWrapperHidden st; audioSrc := audioSrc st;
     answerBoxHidden := answerBoxHidden st;
     answerBoxHtml := answerBoxHtml st;
     easeButtonsHidden := easeButtonsHidden st; easeButtons := v;
     listenInputWrapperHidden := listenInputWrapperHidden st;
     listenInputValue := listenInputValue st;
     wordInputWrapperHidden := wordInputWrapperHidden st;
     wordInputValue := wordInputValue st |}.

Definition set_listenInputWrapperHidden (v : bool) (st : State) : State :=
  {| currentCard := currentCard st; answerShown := answerShown st;
     statusText := statusText st; nextDisabled := nextDisabled st;
     revealDisabled := revealDisabled st; promptText := promptText st;
     writingOriginalHidden := writingOriginalHidden st;
     writingOriginalContent := writingOriginalContent st;
     audioWrapperHidden := audioWrapperHidden st; audioSrc := audioSrc st;
     answerBoxHidden := answerBoxHidden st;
     answerBoxHtml := answerBoxHtml st;
     easeButtonsHidden := easeButtonsHidden st;
     easeButtons := easeButtons st; listenInputWrapperHidden := v;
     listenInputValue := listenInputValue st;
     wordInputWrapperHidden := wordInputWrapperHidden st;
     wordInputValue := wordInputValue st |}.

Definition set_listenInputValue (v : jsstring) (st : State) : State :=
  {| currentCard := currentCard st; answerShown := answerShown st;
     statusText := statusText st; nextDisabled := nextDisabled st;
     revealDisabled := revealDisabled st; promptText := promptText st;
     writingOriginalHidden := writingOriginalHidden st;
     writingOriginalContent := writingOriginalContent st;
     audioWrapperHidden := audioWrapperHidden st; audioSrc := audioSrc st;
     answerBoxHidden := answerBoxHidden st;
     answerBoxHtml := answerBoxHtml st;
     easeButtonsHidden := easeButtonsHidden st;
     easeButtons := easeButtons st;
     listenInputWrapperHidden := listenInputWrapperHidden st;
     listenInputValue := v;
     wordInputWrapperHidden := wordInputWrapperHidden st;
     wordInputValue := wordInputValue st |}.

Definition set_wordInputWrapperHidden (v : bool) (st : State) : State :=
  {| currentCard := currentCard st; answerShown := answerShown st;
     statusText := statusText st; nextDisabled := nextDisabled st;
     revealDisabled := revealDisabled st; promptText := promptText st;
     writingOriginalHidden := writingOriginalHidden st;
     writingOriginalContent := writingOriginalContent st;
     audioWrapperHidden := audioWrapperHidden st; audioSrc := audioSrc st;
     answerBoxHidden := answerBoxHidden st;
     answerBoxHtml := answerBoxHtml st;
     easeButtonsHidden := easeButtonsHidden st;
     easeButtons := easeButtons st;
     listenInputWrapperHidden := listenInputWrapperHidden st;
     listenInputValue := listenInputValue st; wordInputWrapperHidden := v;
     wordInputValue := wordInputValue st |}.

Definition set_wordInputValue (v : jsstring) (st : State) : State :=
  {| currentCard := currentCard st; answerShown := answerShown st;
     statusText := statusText st; nextDisabled := nextDisabled st;
     revealDisabled := revealDisabled st; promptText := promptText st;
     writingOriginalHidden := writingOriginalHidden st;
     writingOriginalContent := writingOriginalContent st;
     audioWrapperHidden := audioWrapperHidden st; audioSrc := audioSrc st;
     answerBoxHidden := answerBoxHidden st;
     answerBoxHtml := answerBoxHtml st;
     easeButtonsHidden := easeButtonsHidden st;
     easeButtons := easeButtons st;
     listenInputWrapperHidden := listenInputWrapperHidden st;
     listenInputValue := listenInputValue st;
     wordInputWrapperHidden := wordInputWrapperHidden st;
     wordInputValue := v |}.
(** [st |> f]: the next statement [f] of a handler, applied to the state. *)
Notation "st |> f" := (f st) (at level 45, left associativity, only parsing).

(** A string used as a condition: a missing or empty string is falsy. *)
Definition truthy (o : option jsstring) : option jsstring :=
  match o with
  | Some (c :: s) => Some (c :: s)
  | _ => None
  end.

(** The requests the page sends. *)
Inductive Request :=
  | ReqReveal                                    (* POST /api/reveal *)
  | ReqDiff (expected : option jsstring) (actual : jsstring)
                                                 (* POST /api/diff *)
  | ReqNext                                      (* GET /api/next *)
  | ReqAnswer (card : Z) (rating : Z).           (* POST /api/answer *)

(** The body of a diff response; a field is [None] when it is missing. *)
Record DiffResponse := {
  diff_expected : option (list Token);
  diff_actual : option (list Token);
}.

(** The outcomes of fetching the next card. *)
Inductive NextResponse :=
  | NextOk (payload : Card)
  | NextStatus (code : Z)                        (* [res.ok] is false *)
  | NextThrows (msg : jsstring).

(** The outcomes of posting a rating. *)
Inductive AnswerResponse :=
  | AnswerOk
  | AnswerRejected (code : Z) (error : option jsstring)
  | AnswerThrows (msg : jsstring).

Definition clearUI (st : State) : State :=
  st |> set_currentCard None
     |> set_answerShown false
     |> set_promptText PromptEmpty
     |> set_writingOriginalHidden true
     |> set_audioWrapperHidden true
     |> set_answerBoxHidden true
     |> set_answerBoxHtml AnswerBlank
     |> set_easeButtonsHidden true
     |> set_easeButtons []
     |> set_listenInputWrapperHidden true
     |> set_listenInputValue []
     |> set_wordInputWrapperHidden true
     |> set_wordInputValue []
     |> set_revealDisabled true.

(** Each button is created enabled; its click calls [submitAnswer]. *)
Definition renderEaseButtons (btns : list Z) (st : State) : State :=
  st |> set_easeButtons ((λ b, {| ease := b; disabled := false |}) <$> btns)
     |> set_easeButtonsHidden false.

(** The number of code units before the first closing bracket of [s];
    [None] when [s] has none. *)
Fixpoint untilBracket (s : jsstring) : option nat :=
  match s with
  | [] => None
  | c :: s' => if (c =? 93)%N then Some 0 else S <$> untilBracket s'
  end.

(** The length of the match of the play-tag pattern at the start of
    [s]: the opening "[anki:play:", one code unit or more that are not
    the closing bracket, and the closing bracket. *)
Definition playTagLength (s : jsstring) : option nat :=
  let opening := js "[anki:play:" in
  if decide (take (length opening) s = opening) then
    match untilBracket (drop (length opening) s) with
    | Some (S n) => Some (length opening + S n + 1)
    | _ => None
    end
  else None.

(** The global replacement of the play tags by nothing, scanning from
    the left: [skip] code units of a match are still to be dropped. *)
Fixpoint stripFrom (skip : nat) (s : jsstring) : jsstring :=
  match s with
  | [] => []
  | c :: s' =>
      match skip with
      | S k => stripFrom k s'
      | 0 =>
          match playTagLength s with
          | Some len => stripFrom (len - 1) s'
          | None => c :: stripFrom 0 s'
          end
      end
  end.

Definition stripPlayTags (s : jsstring) : jsstring := stripFrom 0 s.

(** The delayed start of the playback is not part of the state. *)
Definition renderCard (payload : Card) (st : State) : State :=
  let d := data payload in
  let st :=
    match truthy (d_prompt d) with
    | Some p => set_promptText (PromptData p) st
    | None =>
        match truthy (questionHtml payload) with
        | Some q => set_promptText (PromptQuestion (stripPlayTags q)) st
        | None => set_promptText PromptEmpty st
        end
    end in
  let st :=
    match cardType payload with
    | TListening =>
        st |> set_listenInputWrapperHidden false
           |> set_writingOriginalHidden true
    | TWord =>
        st |> set_wordInputWrapperHidden false
           |> set_writingOriginalHidden true
    | TWriting =>
        st |> set_writingOriginalHidden false
           |> set_writingOriginalContent (default [] (d_original d))
    | TOther => st |> set_writingOriginalHidden true
    end in
  let st :=
    match truthy (d_audioUrl d) with
    | Some url => st |> set_audioWrapperHidden false |> set_audioSrc (Some url)
    | None => st |> set_audioWrapperHidden true |> set_audioSrc None
    end in
  st |> set_easeButtonsHidden true |> set_easeButtons [].

(** [<em>…</em>] around an escaped text. *)
Definition emphasised (s : jsstring) : jsstring :=
  js "<em>" ++ escapeHtml s ++ js "</em>".

(** [showAnswer] up to its first [await]: the guard and the flag. [None]
    is the early return. *)
Definition showAnswer_begin (st : State) : option State :=
  match currentCard st with
  | None => None
  | Some _ => if answerShown st then None else Some (set_answerShown true st)
  end.

(** [showAnswer] from the reveal request on. The reveal response is
    ignored and its failure caught; [diff] is the outcome of [fetchDiff],
    [None] when it throws. *)
Definition showAnswer_resume (diff : option DiffResponse) (st : State)
    : State * list Request :=
  match currentCard st with
  | None => (st, [ReqReveal])   (* reading the fields of a cleared card throws *)
  | Some card =>
      let d := data card in
      match cardType card with
      | TListening | TWord =>
          let listening :=
            match cardType card with TListening => true | _ => false end in
          let expectedText := if listening then d_transcript d else d_word d in
          let userText :=
            trim (if listening then listenInputValue st else wordInputValue st) in
          let source :=
            if listening then escapeHtml <$> truthy (d_source d) else None in
          let html :=
            match diff with
            | Some r =>
                let expectedHtml :=
                  match diff_expected r with
                  | Some (t :: ts) => renderTokens (Some (t :: ts))
                  | _ => emphasised (default [] expectedText)
                  end in
                let actualHtml :=
                  if isEmptyString userText then None
                  else
                    match diff_actual r with
                    | Some (t :: ts) => Some (renderTokens (Some (t :: ts)))
                    | _ => Some (escapeHtml userText)
                    end in
                AnswerDiff listening expectedHtml source actualHtml
                  (escapeHtml <$> truthy expectedText)
            | None =>
                AnswerPlain (escapeHtml (default [] expectedText)) source
                  (if isEmptyString userText then None
                   else Some (escapeHtml userText))
            end in
          (st |> set_answerBoxHtml html |> set_answerBoxHidden false,
           [ReqReveal; ReqDiff expectedText userText])
      | TWriting =>
          (st |> set_answerBoxHtml
                   (AnswerCorrection (escapeHtml (default [] (d_corrected d))))
              |> set_answerBoxHidden false,
           [ReqReveal])
      | TOther =>
          (st |> set_answerBoxHtml
                   (match truthy (answerHtml card) with
                    | Some h => AnswerRaw h
                    | None => AnswerMissing
                    end)
              |> set_answerBoxHidden false,
           [ReqReveal])
      end
  end.

Definition showAnswer (diff : option DiffResponse) (st : State)
    : State * list Request :=
  match showAnswer_begin st with
  | None => (st, [])
  | Some st1 => showAnswer_resume diff st1
  end.

Definition loadCard (resp : NextResponse) (st : State) : State * list Request :=
  let st := st |> clearUI |> set_statusText StatusLoading
               |> set_nextDisabled true in
  let st :=
    match resp with
    | NextOk payload =>
        st |> set_currentCard (Some payload)
           |> renderCard payload
           |> set_statusText (StatusCurrentCard payload)
           |> set_revealDisabled false
    | NextStatus code =>
        if Z.eqb code 404 then set_statusText StatusNoDueCard st
        else set_statusText (StatusLoadFailed (ServerReturned code)) st
    | NextThrows msg => set_statusText (StatusLoadFailed (ErrorText msg)) st
    end in
  (set_nextDisabled false st, [ReqNext]).

Definition setDisabled (v : bool) (b : EaseButton) : EaseButton :=
  {| ease := ease b; disabled := v |}.

(** [submitAnswer] up to its [await]: the guard, the disabling of the
    controls and the request. [None] is the early return. *)
Definition submitAnswer_begin (rating : Z) (st : State)
    : option (State * Request) :=
  match currentCard st with
  | None => None
  | Some card =>
      Some (st |> set_statusText StatusSubmitting
               |> set_easeButtons (setDisabled true <$> easeButtons st)
               |> set_revealDisabled true
               |> set_nextDisabled true,
            ReqAnswer (cardId card) rating)
  end.

(** The [catch] branch of [submitAnswer]. *)
Definition submitFailed (e : ErrorMessage) (st : State) : State :=
  st |> set_statusText (StatusSubmitFailed e)
     |> set_easeButtons (setDisabled false <$> easeButtons st)
     |> set_revealDisabled false
     |> set_nextDisabled false.

(** [submitAnswer] from the response on. *)
Definition submitAnswer_resume (resp : AnswerResponse) (next : NextResponse)
    (st : State) : State * list Request :=
  match resp with
  | AnswerOk => loadCard next (set_statusText StatusSubmitted st)
  | AnswerRejected code error =>
      (submitFailed
         (match truthy error with
          | Some msg => ErrorText msg
          | None => ServerReturned code
          end) st, [])
  | AnswerThrows msg => (submitFailed (ErrorText msg) st, [])
  end.

Definition submitAnswer (rating : Z) (resp : AnswerResponse)
    (next : NextResponse) (st : State) : State * list Request :=
  match submitAnswer_begin rating st with
  | None => (st, [])
  | Some (st1, req) =>
      let '(st2, reqs) := submitAnswer_resume resp next st1 in
      (st2, req :: reqs)
  end.

(** The click handler of the reveal button; a disabled button receives
    no click. *)
Definition revealClick (diff : option DiffResponse) (st : State)
    : State * list Request :=
  if revealDisabled st then (st, [])
  else
    let '(st1, reqs) := showAnswer diff (set_revealDisabled true st) in
    match currentCard st1 with
    | Some card =>
        match buttons card with
        | Some btns => (renderEaseButtons btns st1, reqs)
        | None => (st1, reqs)
        end
    | None => (st1, reqs)
    end.

(** The click handler of the [i]-th ease button; a hidden or disabled
    button receives no click. *)
Definition easeClick (i : nat) (resp : AnswerResponse) (next : NextResponse)
    (st : State) : State * list Request :=
  if easeButtonsHidden st then (st, [])
  else
    match easeButtons st !! i with
    | Some b =>
        if disabled b then (st, [])
        else submitAnswer (ease b) resp next st
    | None => (st, [])
    end.

(** *** The handlers cut at their first [await]

    While a handler waits for a response the page delivers other clicks,
    so the part before the [await] and the part after it are steps of
    their own. *)


(** The click handler of the reveal button up to the [await] inside
    [showAnswer]. [None]: the click is not delivered, or [showAnswer]
    returns at its guard and nothing is awaited. *)
Definition revealClick_begin (st : State) : option State :=
  if revealDisabled st then None
  else showAnswer_begin (set_revealDisabled true st).

(** The same handler from the response on: the rest of [showAnswer],
    then the ease buttons. *)
Definition revealClick_resume (diff : option DiffResponse) (st : State)
    : State * list Request :=
  let '(st1, reqs) := showAnswer_resume diff st in
  match currentCard st1 with
  | Some card =>
      match buttons card with
      | Some btns => (renderEaseButtons btns st1, reqs)
      | None => (st1, reqs)
      end
  | None => (st1, reqs)
  end.

(** The click handler of the [i]-th ease button up to the [await] of
    [submitAnswer]: the state it leaves and the request it sent. *)
Definition easeClick_begin (i : nat) (st : State) : option (State * Request) :=
  if easeButtonsHidden st then None
  else
    match easeButtons st !! i with
    | Some b => if disabled b then None else submitAnswer_begin (ease b) st
    | None => None
    end.

(** The page as it is served, before any card is loaded. *)
Definition initialState : State :=
  {| currentCard := None; answerShown := false; statusText := StatusEmpty;
     nextDisabled := false; revealDisabled := true; promptText := PromptEmpty;
     writingOriginalHidden := true; writingOriginalContent := [];
     audioWrapperHidden := true; audioSrc := None;
     answerBoxHidden := true; answerBoxHtml := AnswerBlank;
     easeButtonsHidden := true; easeButtons := [];
     listenInputWrapperHidden := true; listenInputValue := [];
     wordInputWrapperHidden := true; wordInputValue := [] |}.

(** A word card with the four ratings, as the server sends it. *)
Definition sampleCard : Card :=
  {| cardId := 7; cardType := TWord;
     data := {| d_prompt := Some (js "cat"); d_transcript := None;
                d_word := Some (js "chat"); d_original := None;
                d_corrected := None; d_source := None; d_audioUrl := None |};
     questionHtml := None; answerHtml := None;
     buttons := Some [1; 2; 3; 4]%Z |}.


(** The sample card loaded, answered with "chats" and revealed, the diff
    request having failed. *)
Definition revealedState : State :=
  let st := (loadCard (NextOk sampleCard) initialState).1 in
  let st := set_wordInputValue (js "chats") st in
  (revealClick None st).1.

End Listening.
(** ** Recording and speech recognition (shadowing page)

    The module state and the parts of the document that the recording
    functions of the shadowing page read and write. A function returns
    the new state and the calls it made on the browser's objects, in
    order. The callbacks the page installs on the recorder and on the
    recogniser are functions of the event they receive. *)
Module Recording.

(** [mediaRecorder.state], as far as the page tests it. *)
Inductive RecorderState := RecorderRecording | RecorderInactive.

(** What [recordBtn] reads. *)
Inductive ButtonLabel :=
  | LabelStart                     (* "开始录音" *)
  | LabelStop.                     (* "停止录音" *)

(** What [recordingStatus] reads. *)
Inductive RecordingStatus :=
  | StatusBlank
  | StatusHint                     (* "点击“开始录音”进行跟读练习。" *)
  | StatusNoRecognition            (* "浏览器不支持语音识别，但仍可录音回放。" *)
  | StatusEnded                    (* "录音已结束，可点击“显示答案”。" *)
  | StatusRecognitionError (e : jsstring)   (* "语音识别错误：" and the error *)
  | StatusCannotContinue (msg : jsstring)   (* "无法继续识别：" and the message *)
  | StatusNotStarted (msg : jsstring)       (* "语音识别未启动：" and the message *)
  | StatusUnsupported              (* "当前浏览器不支持录音。" *)
  | StatusRequesting               (* "请求麦克风权限…" *)
  | StatusRecording                (* "录音中… 影子跟读吧！" *)
  | StatusMicrophoneError (msg : jsstring). (* "无法访问麦克风：" and the message *)

(** The calls made on the browser's objects. *)
Inductive Call :=
  | RecorderStop                   (* mediaRecorder.stop() *)
  | TrackStop (track : nat)        (* track.stop() *)
  | RecognitionStart               (* recognition.start() *)
  | RecognitionStop                (* recognition.stop() *)
  | RevokeObjectUrl (url : nat)    (* URL.revokeObjectURL(playbackUrl) *)
  | CreateObjectUrl (url : nat)    (* URL.createObjectURL(blob), with its result *)
  | GetUserMedia                   (* navigator.mediaDevices.getUserMedia *)
  | RecorderStart.                 (* new MediaRecorder(stream), start() *)

Record State := {
  currentCard : option FrCard;                      (* let currentCard *)
  answerShown : bool;                               (* let answerShown *)
  speechRecognition : bool;                         (* is SpeechRecognition defined *)
  mediaDevices : bool;                              (* is navigator.mediaDevices.getUserMedia defined *)
  mediaRecorder : option RecorderState;             (* let mediaRecorder, with its state *)
  mediaStream : option (list nat);                  (* let mediaStream: its tracks *)
  recordedChunks : list N;                          (* let recordedChunks: the size of each chunk *)
  playbackUrl : option nat;                         (* let playbackUrl *)
  recognition : bool;                               (* is let recognition set *)
  recognitionShouldRestart : bool;                  (* let recognitionShouldRestart *)
  recognitionActive : bool;                         (* let recognitionActive *)
  recognizedSegments : list jsstring;               (* let recognizedSegments *)
  recordBtnLabel : ButtonLabel;                     (* recordBtn.textContent *)
  recordBtnRecording : bool;                        (* recordBtn has class recording *)
  recordBtnDisabled : bool;                         (* recordBtn.disabled *)
  recordingStatusText : RecordingStatus;            (* recordingStatus.textContent *)
  recordingStatusRecording : bool;                  (* recordingStatus has class recording *)
  playbackHidden : bool;                            (* playbackAudio is hidden *)
  playbackSrc : option nat;                         (* playbackAudio.src *)
}.

Definition set_currentCard (v : option FrCard) (st : State) : State :=
  {| currentCard := v; answerShown := answerShown st;
     speechRecognition := speechRecognition st;
     mediaDevices := mediaDevices st; mediaRecorder := mediaRecorder st;
     mediaStream := mediaStream st; recordedChunks := recordedChunks st;
     playbackUrl := playbackUrl st; recognition := recognition st;
     recognitionShouldRestart := recognitionShouldRestart st;
     recognitionActive := recognitionActive st;
     recognizedSegments := recognizedSegments st;
     recordBtnLabel := recordBtnLabel st;
     recordBtnRecording := recordBtnRecording st;
     recordBtnDisabled := recordBtnDisabled st;
     recordingStatusText := recordingStatusText st;
     recordingStatusRecording := recordingStatusRecording st;
     playbackHidden := playbackHidden st; playbackSrc := playbackSrc st |}.

Definition set_answerShown (v : bool) (st : State) : State :=
  {| currentCard := currentCard st; answerShown := v;
     speechRecognition := speechRecognition st;
     mediaDevices := mediaDevices st; mediaRecorder := mediaRecorder st;
     mediaStream := mediaStream st; recordedChunks := recordedChunks st;
     playbackUrl := playbackUrl st; recognition := recognition st;
     recognitionShouldRestart := recognitionShouldRestart st;
     recognitionActive := recognitionActive st;
     recognizedSegments := recognizedSegments st;
     recordBtnLabel := recordBtnLabel st;
     recordBtnRecording := recordBtnRecording st;
     recordBtnDisabled := recordBtnDisabled st;
     recordingStatusText := recordingStatusText st;
     recordingStatusRecording := recordingStatusRecording st;
     playbackHidden := playbackHidden st; playbackSrc := playbackSrc st |}.

Definition set_speechRecognition (v : bool) (st : State) : State :=
  {| currentCard := currentCard st; answerShown := answerShown st;
     speechRecognition := v; mediaDevices := mediaDevices st;
     mediaRecorder := mediaRecorder st; mediaStream := mediaStream st;
     recordedChunks := recordedChunks st; playbackUrl := playbackUrl st;
     recognition := recognition st;
     recognitionShouldRestart := recognitionShouldRestart st;
     recognitionActive := recognitionActive st;
     recognizedSegments := recognizedSegments st;
     recordBtnLabel := recordBtnLabel st;
     recordBtnRecording := recordBtnRecording st;
     recordBtnDisabled := recordBtnDisabled st;
     recordingStatusText := recordingStatusText st;
     recordingStatusRecording := recordingStatusRecording st;
     playbackHidden := playbackHidden st; playbackSrc := playbackSrc st |}.

Definition set_mediaDevices (v : bool) (st : State) : State :=
  {| currentCard := currentCard st; answerShown := answerShown st;
     speechRecognition := speechRecognition st; mediaDevices := v;
     mediaRecorder := mediaRecorder st; mediaStream := mediaStream st;
     recordedChunks := recordedChunks st; playbackUrl := playbackUrl st;
     recognition := recognition st;
     recognitionShouldRestart := recognitionShouldRestart st;
     recognitionActive := recognitionActive st;
     recognizedSegments := recognizedSegments st;
     recordBtnLabel := recordBtnLabel st;
     recordBtnRecording := recordBtnRecording st;
     recordBtnDisabled := recordBtnDisabled st;
     recordingStatusText := recordingStatusText st;
     recordingStatusRecording := recordingStatusRecording st;
     playbackHidden := playbackHidden st; playbackSrc := playbackSrc st |}.

Definition set_mediaRecorder (v : option RecorderState) (st : State) : State :=
  {| currentCard := currentCard st; answerShown := answerShown st;
     speechRecognition := speechRecognition st;
     mediaDevices := mediaDevices st; mediaRecorder := v;
     mediaStream := mediaStream st; recordedChunks := recordedChunks st;
     playbackUrl := playbackUrl st; recognition := recognition st;
     recognitionShouldRestart := recognitionShouldRestart st;
     recognitionActive := recognitionActive st;
     recognizedSegments := recognizedSegments st;
     recordBtnLabel := recordBtnLabel st;
     recordBtnRecording := recordBtnRecording st;
     recordBtnDisabled := recordBtnDisabled st;
     recordingStatusText := recordingStatusText st;
     recordingStatusRecording := recordingStatusRecording st;
     playbackHidden := playbackHidden st; playbackSrc := playbackSrc st |}.

Definition set_mediaStream (v : option (list nat)) (st : State) : State :=
  {| currentCard := currentCard st; answerShown := answerShown st;
     speechRecognition := speechRecognition st;
     mediaDevices := mediaDevices st; mediaRecorder := mediaRecorder st;
     mediaStream := v; recordedChunks := recordedChunks st;
     playbackUrl := playbackUrl st; recognition := recognition st;
     recognitionShouldRestart := recognitionShouldRestart st;
     recognitionActive := recognitionActive st;
     recognizedSegments := recognizedSegments st;
     recordBtnLabel := recordBtnLabel st;
     recordBtnRecording := recordBtnRecording st;
     recordBtnDisabled := recordBtnDisabled st;
     recordingStatusText := recordingStatusText st;
     recordingStatusRecording := recordingStatusRecording st;
     playbackHidden := playbackHidden st; playbackSrc := playbackSrc st |}.

Definition set_recordedChunks (v : list N) (st : State) : State :=
  {| currentCard := currentCard st; answerShown := answerShown st;
     speechRecognition := speechRecognition st;
     mediaDevices := mediaDevices st; mediaRecorder := mediaRecorder st;
     mediaStream := mediaStream st; recordedChunks := v;
     playbackUrl := playbackUrl st; recognition := recognition st;
     recognitionShouldRestart := recognitionShouldRestart st;
     recognitionActive := recognitionActive st;
     recognizedSegments := recognizedSegments st;
     recordBtnLabel := recordBtnLabel st;
     recordBtnRecording := recordBtnRecording st;
     recordBtnDisabled := recordBtnDisabled st;
     recordingStatusText := recordingStatusText st;
     recordingStatusRecording := recordingStatusRecording st;
     playbackHidden := playbackHidden st; playbackSrc := playbackSrc st |}.

Definition set_playbackUrl (v : option nat) (st : State) : State :=
  {| currentCard := currentCard st; answerShown := answerShown st;
     speechRecognition := speechRecognition st;
     mediaDevices := mediaDevices st; mediaRecorder := mediaRecorder st;
     mediaStream := mediaStream st; recordedChunks := recordedChunks st;
     playbackUrl := v; recognition := recognition st;
     recognitionShouldRestart := recognitionShouldRestart st;
     recognitionActive := recognitionActive st;
     recognizedSegments := recognizedSegments st;
     recordBtnLabel := recordBtnLabel st;
     recordBtnRecording := recordBtnRecording st;
     recordBtnDisabled := recordBtnDisabled st;
     recordingStatusText := recordingStatusText st;
     recordingStatusRecording := recordingStatusRecording st;
     playbackHidden := playbackHidden st; playbackSrc := playbackSrc st |}.

Definition set_recognition (v : bool) (st : State) : State :=
  {| currentCard := currentCard st; answerShown := answerShown st;
     speechRecognition := speechRecognition st;
     mediaDevices := mediaDevices st; mediaRecorder := mediaRecorder st;
     mediaStream := mediaStream st; recordedChunks := recordedChunks st;
     playbackUrl := playbackUrl st; recognition := v;
     recognitionShouldRestart := recognitionShouldRestart st;
     recognitionActive := recognitionActive st;
     recognizedSegments := recognizedSegments st;
     recordBtnLabel := recordBtnLabel st;
     recordBtnRecording := recordBtnRecording st;
     recordBtnDisabled := recordBtnDisabled st;
     recordingStatusText := recordingStatusText st;
     recordingStatusRecording := recordingStatusRecording st;
     playbackHidden := playbackHidden st; playbackSrc := playbackSrc st |}.

Definition set_recognitionShouldRestart (v : bool) (st : State) : State :=
  {| currentCard := currentCard st; answerShown := answerShown st;
     speechRecognition := speechRecognition st;
     mediaDevices := mediaDevices st; mediaRecorder := mediaRecorder st;
     mediaStream := mediaStream st; recordedChunks := recordedChunks st;
     playbackUrl := playbackUrl st; recognition := recognition st;
     recognitionShouldRestart := v;
     recognitionActive := recognitionActive st;
     recognizedSegments := recognizedSegments st;
     recordBtnLabel := recordBtnLabel st;
     recordBtnRecording := recordBtnRecording st;
     recordBtnDisabled := recordBtnDisabled st;
     recordingStatusText := recordingStatusText st;
     recordingStatusRecording := recordingStatusRecording st;
     playbackHidden := playbackHidden st; playbackSrc := playbackSrc st |}.

Definition set_recognitionActive (v : bool) (st : State) : State :=
  {| currentCard := currentCard st; answerShown := answerShown st;
     speechRecognition := speechRecognition st;
     mediaDevices := mediaDevices st; mediaRecorder := mediaRecorder st;
     mediaStream := mediaStream st; recordedChunks := recordedChunks st;
     playbackUrl := playbackUrl st; recognition := recognition st;
     recognitionShouldRestart := recognitionShouldRestart st;
     recognitionActive := v; recognizedSegments := recognizedSegments st;
     recordBtnLabel := recordBtnLabel st;
     recordBtnRecording := recordBtnRecording st;
     recordBtnDisabled := recordBtnDisabled st;
     recordingStatusText := recordingStatusText st;
     recordingStatusRecording := recordingStatusRecording st;
     playbackHidden := playbackHidden st; playbackSrc := playbackSrc st |}.

Definition set_recognizedSegments (v : list jsstring) (st : State) : State :=
  {| currentCard := currentCard st; answerShown := answerShown st;
     speechRecognition := speechRecognition st;
     mediaDevices := mediaDevices st; mediaRecorder := mediaRecorder st;
     mediaStream := mediaStream st; recordedChunks := recordedChunks st;
     playbackUrl := playbackUrl st; recognition := recognition st;
     recognitionShouldRestart := recognitionShouldRestart st;
     recognitionActive := recognitionActive st; recognizedSegments := v;
     recordBtnLabel := recordBtnLabel st;
     recordBtnRecording := recordBtnRecording st;
     recordBtnDisabled := recordBtnDisabled st;
     recordingStatusText := recordingStatusText st;
     recordingStatusRecording := recordingStatusRecording st;
     playbackHidden := playbackHidden st; playbackSrc := playbackSrc st |}.

Definition set_recordBtnLabel (v : ButtonLabel) (st : State) : State :=
  {| currentCard := currentCard st; answerShown := answerShown st;
     speechRecognition := speechRecognition st;
     mediaDevices := mediaDevices st; mediaRecorder := mediaRecorder st;
     mediaStream := mediaStream st; recordedChunks := recordedChunks st;
     playbackUrl := playbackUrl st; recognition := recognition st;
     recognitionShouldRestart := recognitionShouldRestart st;
     recognitionActive := recognitionActive st;
     recognizedSegments := recognizedSegments st; recordBtnLabel := v;
     recordBtnRecording := recordBtnRecording st;
     recordBtnDisabled := recordBtnDisabled st;
     recordingStatusText := recordingStatusText st;
     recordingStatusRecording := recordingStatusRecording st;
     playbackHidden := playbackHidden st; playbackSrc := playbackSrc st |}.

Definition set_recordBtnRecording (v : bool) (st : State) : State :=
  {| currentCard := currentCard st; answerShown := answerShown st;
     speechRecognition := speechRecognition st;
     mediaDevices := mediaDevices st; mediaRecorder := mediaRecorder st;
     mediaStream := mediaStream st; recordedChunks := recordedChunks st;
     playbackUrl := playbackUrl st; recognition := recognition st;
     recognitionShouldRestart := recognitionShouldRestart st;
     recognitionActive := recognitionActive st;
     recognizedSegments := recognizedSegments st;
     recordBtnLabel := recordBtnLabel st; recordBtnRecording := v;
     recordBtnDisabled := recordBtnDisabled st;
     recordingStatusText := recordingStatusText st;
     recordingStatusRecording := recordingStatusRecording st;
     playbackHidden := playbackHidden st; playbackSrc := playbackSrc st |}.

Definition set_recordBtnDisabled (v : bool) (st : State) : State :=
  {| currentCard := currentCard st; answerShown := answerShown st;
     speechRecognition := speechRecognition st;
     mediaDevices := mediaDevices st; mediaRecorder := mediaRecorder st;
     mediaStream := mediaStream st; recordedChunks := recordedChunks st;
     playbackUrl := playbackUrl st; recognition := recognition st;
     recognitionShouldRestart := recognitionShouldRestart st;
     recognitionActive := recognitionActive st;
     recognizedSegments := recognizedSegments st;
     recordBtnLabel := recordBtnLabel st;
     recordBtnRecording := recordBtnRecording st; recordBtnDisabled := v;
     recordingStatusText := recordingStatusText st;
     recordingStatusRecording := recordingStatusRecording st;
     playbackHidden := playbackHidden st; playbackSrc := playbackSrc st |}.

Definition set_recordingStatusText (v : RecordingStatus) (st : State) : State :=
  {| currentCard := currentCard st; answerShown := answerShown st;
     speechRecognition := speechRecognition st;
     mediaDevices := mediaDevices st; mediaRecorder := mediaRecorder st;
     mediaStream := mediaStream st; recordedChunks := recordedChunks st;
     playbackUrl := playbackUrl st; recognition := recognition st;
     recognitionShouldRestart := recognitionShouldRestart st;
     recognitionActive := recognitionActive st;
     recognizedSegments := recognizedSegments st;
     recordBtnLabel := recordBtnLabel st;
     recordBtnRecording := recordBtnRecording st;
     recordBtnDisabled := recordBtnDisabled st; recordingStatusText := v;
     recordingStatusRecording := recordingStatusRecording st;
     playbackHidden := playbackHidden st; playbackSrc := playbackSrc st |}.

Definition set_recordingStatusRecording (v : bool) (st : State) : State :=
  {| currentCard := currentCard st; answerShown := answerShown st;
     speechRecognition := speechRecognition st;
     mediaDevices := mediaDevices st; mediaRecorder := mediaRecorder st;
     mediaStream := mediaStream st; recordedChunks := recordedChunks st;
     playbackUrl := playbackUrl st; recognition := recognition st;
     recognitionShouldRestart := recognitionShouldRestart st;
     recognitionActive := recognitionActive st;
     recognizedSegments := recognizedSegments st;
     recordBtnLabel := recordBtnLabel st;
     recordBtnRecording := recordBtnRecording st;
     recordBtnDisabled := recordBtnDisabled st;
     recordingStatusText := recordingStatusText st;
     recordingStatusRecording := v; playbackHidden := playbackHidden st;
     playbackSrc := playbackSrc st |}.

Definition set_playbackHidden (v : bool) (st : State) : State :=
  {| currentCard := currentCard st; answerShown := answerShown st;
     speechRecognition := speechRecognition st;
     mediaDevices := mediaDevices st; mediaRecorder := mediaRecorder st;
     mediaStream := mediaStream st; recordedChunks := recordedChunks st;
     playbackUrl := playbackUrl st; recognition := recognition st;
     recognitionShouldRestart := recognitionShouldRestart st;
     recognitionActive := recognitionActive st;
     recognizedSegments := recognizedSegments st;
     recordBtnLabel := recordBtnLabel st;
     recordBtnRecording := recordBtnRecording st;
     recordBtnDisabled := recordBtnDisabled st;
     recordingStatusText := recordingStatusText st;
     recordingStatusRecording := recordingStatusRecording st;
     playbackHidden := v; playbackSrc := playbackSrc st |}.

Definition set_playbackSrc (v : option nat) (st : State) : State :=
  {| currentCard := currentCard st; answerShown := answerShown st;
     speechRecognition := speechRecognition st;
     mediaDevices := mediaDevices st; mediaRecorder := mediaRecorder st;
     mediaStream := mediaStream st; recordedChunks := recordedChunks st;
     playbackUrl := playbackUrl st; recognition := recognition st;
     recognitionShouldRestart := recognitionShouldRestart st;
     recognitionActive := recognitionActive st;
     recognizedSegments := recognizedSegments st;
     recordBtnLabel := recordBtnLabel st;
     recordBtnRecording := recordBtnRecording st;
     recordBtnDisabled := recordBtnDisabled st;
     recordingStatusText := recordingStatusText st;
     recordingStatusRecording := recordingStatusRecording st;
     playbackHidden := playbackHidden st; playbackSrc := v |}.
Notation "st |> f" := (f st) (at level 45, left associativity, only parsing).

(** [mediaRecorder && mediaRecorder.state === "recording"] *)
Definition isRecording (st : State) : bool :=
  match mediaRecorder st with
  | Some RecorderRecording => true
  | _ => false
  end.

(** A failed [recognition.stop()] is swallowed; the call is listed
    either way. *)
Definition stopRecognition (st : State) : State * list Call :=
  let st := set_recognitionShouldRestart false st in
  if recognition st && recognitionActive st then (st, [RecognitionStop])
  else (st, []).

(** A recorder that is recording accepts [stop()] and is inactive from
    then on; its [stop] event comes later. *)
Definition stopActiveRecording (st : State) : State * list Call :=
  let '(st, c1) :=
    if isRecording st
    then (set_mediaRecorder (Some RecorderInactive) st, [RecorderStop])
    else (st, []) in
  let '(st, c2) :=
    match mediaStream st with
    | Some tracks => (set_mediaStream None st, TrackStop <$> tracks)
    | None => (st, [])
    end in
  let '(st, c3) := stopRecognition st in
  let st :=
    st |> set_recordBtnLabel LabelStart
       |> set_recordBtnRecording false
       |> set_recordBtnDisabled false
       |> set_recordingStatusRecording false in
  let st :=
    if answerShown st then st else set_recordingStatusText StatusEnded st in
  (st, c1 ++ c2 ++ c3).

Definition resetRecordingArtifacts (resetStatus : bool) (st : State)
    : State * list Call :=
  let '(st, c1) := stopActiveRecording st in
  let st := st |> set_recordedChunks [] |> set_recognizedSegments [] in
  let '(st, c2) :=
    match playbackUrl st with
    | Some url => (set_playbackUrl None st, [RevokeObjectUrl url])
    | None => (st, [])
    end in
  let st := st |> set_playbackHidden true |> set_playbackSrc None in
  let st := if resetStatus then set_recordingStatusText StatusBlank st else st in
  (st, c1 ++ c2).

(** [initRecognition] creates the recogniser once and installs the four
    callbacks below. *)
Definition initRecognition (st : State) : State :=
  if negb (speechRecognition st) || recognition st then st
  else set_recognition true st.

(** One entry of [event.results]: [alternative] is the transcript of
    [result[0]], [None] when there is no first alternative. *)
Record RecognitionResult := {
  isFinal : bool;
  alternative : option jsstring;
}.

Record ResultEvent := {
  resultIndex : nat;
  results : list RecognitionResult;
}.

(** The body of the loop of [onresult], at index [i]. *)
Definition onresultStep (ev : ResultEvent) (st : State) (i : nat) : State :=
  match results ev !! i with
  | Some result =>
      if isFinal result then
        match alternative result with
        | Some transcript =>
            set_recognizedSegments
              (recognizedSegments st ++ [trim transcript]) st
        | None => st
        end
      else st
  | None => st
  end.

(** [for (i = event.resultIndex; i < event.results.length; i += 1)] *)
Definition onresult (ev : ResultEvent) (st : State) : State :=
  foldl (onresultStep ev) st
    (seq (resultIndex ev) (length (results ev) - resultIndex ev)).

Definition onerror (error : jsstring) (st : State) : State :=
  if decide (error = js "no-speech") then st
  else set_recordingStatusText (StatusRecognitionError error) st.

Definition onstart (st : State) : State := set_recognitionActive true st.

(** [started] tells how [recognition.start()] ends: [None] when it
    returns, the message of the exception when it throws. *)
Definition onend (started : option jsstring) (st : State) : State * list Call :=
  let st := set_recognitionActive false st in
  if recognitionShouldRestart st && isRecording st then
    (match started with
     | None => st
     | Some msg => set_recordingStatusText (StatusCannotContinue msg) st
     end, [RecognitionStart])
  else (st, []).

Definition startRecognition (started : option jsstring) (st : State)
    : State * list Call :=
  if negb (speechRecognition st) then (st, [])
  else
    let st := initRecognition st in
    if negb (recognition st) then (st, [])
    else
      let st :=
        st |> set_recognizedSegments [] |> set_recognitionShouldRestart true in
      (match started with
       | None => st
       | Some msg => set_recordingStatusText (StatusNotStarted msg) st
       end, [RecognitionStart]).

(** [ondataavailable]: [size] is [event.data?.size]. *)
Definition ondataavailable (size : option N) (st : State) : State :=
  match size with
  | Some n =>
      if (n =? 0)%N then st
      else set_recordedChunks (recordedChunks st ++ [n]) st
  | None => st
  end.

(** [onstop]: [url] is the address [URL.createObjectURL] returns. *)
Definition onstop (url : nat) (st : State) : State * list Call :=
  match recordedChunks st with
  | [] => (set_mediaRecorder None st, [])
  | _ :: _ =>
      (st |> set_playbackUrl (Some url)
          |> set_playbackSrc (Some url)
          |> set_playbackHidden false
          |> set_mediaRecorder None,
       [CreateObjectUrl url])
  end.

(** [startRecording] up to its [await]. The rest runs exactly when
    [GetUserMedia] was called. *)
Definition startRecording_begin (st : State) : State * list Call :=
  if isRecording st then (st, [])
  else if negb (mediaDevices st)
  then (set_recordingStatusText StatusUnsupported st, [])
  else (st |> set_recordBtnDisabled true
           |> set_recordingStatusText StatusRequesting,
        [GetUserMedia]).

(** How the request for the microphone ends. The recorder's constructor
    and its [start()] are taken not to throw. *)
Inductive MediaOutcome :=
  | MediaGranted (tracks : list nat)
  | MediaDenied (msg : jsstring).

Definition startRecording_resume (outcome : MediaOutcome)
    (started : option jsstring) (st : State) : State * list Call :=
  match outcome with
  | MediaGranted tracks =>
      let st :=
        st |> set_mediaStream (Some tracks)
           |> set_recordedChunks []
           |> set_mediaRecorder (Some RecorderRecording)
           |> set_recordBtnLabel LabelStop
           |> set_recordBtnRecording true
           |> set_recordingStatusText StatusRecording
           |> set_recordingStatusRecording true
           |> set_recordBtnDisabled false in
      let '(st, calls) := startRecognition started st in
      (st, RecorderStart :: calls)
  | MediaDenied msg =>
      (st |> set_recordBtnDisabled false
          |> set_recordingStatusText (StatusMicrophoneError msg),
       [])
  end.

Definition startRecording (outcome : MediaOutcome) (started : option jsstring)
    (st : State) : State * list Call :=
  let '(st1, calls) := startRecording_begin st in
  match calls with
  | [] => (st1, [])
  | _ :: _ =>
      let '(st2, more) := startRecording_resume outcome started st1 in
      (st2, calls ++ more)
  end.

Definition stopRecording (st : State) : State * list Call :=
  stopActiveRecording st.

(** The click handler of the record button; a disabled button receives
    no click. *)
Definition recordClick (outcome : MediaOutcome) (started : option jsstring)
    (st : State) : State * list Call :=
  if recordBtnDisabled st then (st, [])
  else if isRecording st then stopRecording st
  else startRecording outcome started st.

(** [showAnswer] of the shadowing page up to its first [await]: the
    guard, the flag, and the end of the recording. [None] is the early
    return. *)
Definition showAnswer_begin (st : State) : option (State * list Call) :=
  match currentCard st with
  | None => None
  | Some _ =>
      if answerShown st then None
      else Some (stopRecording (set_answerShown true st))
  end.

End Recording.

(** * Properties *)

(** ** Levenshtein distance *)

Section LevenshteinFacts.
Context {A : Type} `{EqDecision A}.
Implicit Types (a b c d p q : list A) (x y : A).

Lemma lev_nil_l b : lev [] b = length b.
Proof. reflexivity. Qed.

Lemma lev_nil_r a : lev a [] = length a.
Proof. by destruct a. Qed.

Lemma lev_cons x y a b :
  lev (x :: a) (y :: b) =
    if decide (x = y) then lev a b
    else S (min3 (lev a (y :: b)) (lev (x :: a) b) (lev a b)).
Proof. reflexivity. Qed.

Lemma min3_cases (x y z : nat) :
  min3 x y z = x ∨ min3 x y z = y ∨ min3 x y z = z.
Proof. unfold min3. lia. Qed.

Lemma min3_le (x y z : nat) : min3 x y z ≤ x ∧ min3 x y z ≤ y ∧ min3 x y z ≤ z.
Proof. unfold min3. lia. Qed.

Lemma script_all_delete a : script a [] (length a).
Proof. induction a; simpl; by constructor. Qed.

Lemma script_all_insert b : script [] b (length b).
Proof. induction b; simpl; by constructor. Qed.

(** The recursion always describes an actual script. *)
Lemma lev_script a b : script a b (lev a b).
Proof.
  revert b. induction a as [|x a IHa]; intros b.
  - apply script_all_insert.
  - induction b as [|y b IHb].
    + rewrite lev_nil_r. apply script_all_delete.
    + rewrite lev_cons. case_decide as Hxy.
      * subst y. apply script_keep, IHa.
      * destruct (min3_cases (lev a (y :: b)) (lev (x :: a) b) (lev a b))
          as [-> | [-> | ->]].
        -- apply script_delete, IHa.
        -- apply script_insert, IHb.
        -- apply script_subst, IHa.
Qed.

Lemma script_sym a b n : script a b n → script b a n.
Proof. induction 1; by constructor. Qed.

Lemma script_length a b n :
  script a b n → length a ≤ length b + n ∧ length b ≤ length a + n.
Proof. induction 1; simpl; lia. Qed.

(** Dropping the first character of the target costs at most one more. *)
Lemma script_drop_r a y b n :
  script a (y :: b) n → ∃ m, m ≤ S n ∧ script a b m.
Proof.
  intros Hs. remember (y :: b) as yb eqn:Hyb.
  revert y b Hyb.
  induction Hs as [|x a b0 n Hs _|x y0 a b0 n Hs _|x a b0 n Hs IH|y0 a b0 n Hs _];
    intros y b Hyb; simplify_eq.
  - exists (S n). split; [lia|]. by apply script_delete.
  - exists (S n). split; [lia|]. by apply script_delete.
  - destruct (IH _ _ eq_refl) as (m & Hm & Hs').
    exists (S m). split; [lia|]. by apply script_delete.
  - exists n. split; [lia|done].
Qed.

Lemma script_drop_l x a b n :
  script (x :: a) b n → ∃ m, m ≤ S n ∧ script a b m.
Proof.
  intros Hs%script_sym%script_drop_r.
  destruct Hs as (m & Hm & Hs). exists m. split; [done|]. by apply script_sym.
Qed.

(** No script is cheaper than the recursion's value. *)
Lemma lev_le_script a b n : script a b n → lev a b ≤ n.
Proof.
  remember (length a + length b) as k eqn:Hk.
  revert a b n Hk.
  induction k as [k IH] using lt_wf_ind. intros a b n Hk Hs.
  destruct a as [|x a]; [|destruct b as [|y b]].
  - rewrite lev_nil_l. apply script_length in Hs. simpl in Hs. lia.
  - rewrite lev_nil_r. apply script_length in Hs. simpl in *. lia.
  - rewrite lev_cons.
    pose proof (min3_le (lev a (y :: b)) (lev (x :: a) b) (lev a b))
      as (Hd & Hi & Hsu).
    simpl in Hk.
    inversion Hs as [|x' a' b' n' Hs'|x' y' a' b' n' Hs'
                     |x' a' b' n' Hs'|y' a' b' n' Hs']; simplify_eq.
    + rewrite decide_True by done.
      eapply IH; [|done|done]. lia.
    + assert (lev a b ≤ n') by (eapply IH; [|done|done]; lia).
      case_decide; lia.
    + case_decide as Hxy.
      * destruct (script_drop_r _ _ _ _ Hs') as (m & Hm & Hs'').
        assert (lev a b ≤ m) by (eapply IH; [|done|done]; lia). lia.
      * assert (lev a (y :: b) ≤ n')
          by (eapply IH; [|done|done]; simpl; lia).
        lia.
    + case_decide as Hxy.
      * destruct (script_drop_l _ _ _ _ Hs') as (m & Hm & Hs'').
        assert (lev a b ≤ m) by (eapply IH; [|done|done]; lia). lia.
      * assert (lev (x :: a) b ≤ n')
          by (eapply IH; [|done|done]; simpl; lia).
        lia.
Qed.

Lemma script_app a b n c d k :
  script a b n → script c d k → script (a ++ c) (b ++ d) (n + k).
Proof. intros Hab Hcd. induction Hab; simpl; by try constructor. Qed.

Lemma script_reverse a b n : script a b n → script (reverse a) (reverse b) n.
Proof.
  induction 1 as [|x a b n _ IH|x y a b n _ IH|x a b n _ IH|y a b n _ IH];
    rewrite ?reverse_cons.
  - rewrite reverse_nil. constructor.
  - replace n with (n + 0) by lia.
    apply script_app; [done|]. apply script_keep, script_nil.
  - replace (S n) with (n + 1) by lia.
    apply script_app; [done|]. apply script_subst, script_nil.
  - replace (S n) with (n + 1) by lia.
    rewrite <-(app_nil_r (reverse b)).
    apply script_app; [done|]. apply script_delete, script_nil.
  - replace (S n) with (n + 1) by lia.
    rewrite <-(app_nil_r (reverse a)).
    apply script_app; [done|]. apply script_insert, script_nil.
Qed.

Lemma lev_sym a b : lev a b = lev b a.
Proof.
  apply Nat.le_antisymm; apply lev_le_script, script_sym, lev_script.
Qed.

Lemma lev_reverse a b : lev (reverse a) (reverse b) = lev a b.
Proof.
  apply Nat.le_antisymm.
  - apply lev_le_script, script_reverse, lev_script.
  - apply lev_le_script.
    pose proof (script_reverse _ _ _ (lev_script (reverse a) (reverse b))) as Hs.
    by rewrite !reverse_involutive in Hs.
Qed.

(** The recursion read from the right end, as the rows of the buffer
    see it. *)
Lemma lev_snoc p x q y :
  lev (p ++ [x]) (q ++ [y]) =
    if decide (x = y) then lev p q
    else S (min3 (lev p (q ++ [y])) (lev (p ++ [x]) q) (lev p q)).
Proof.
  rewrite <-lev_reverse, !reverse_snoc, lev_cons.
  rewrite <-(lev_reverse p (q ++ [y])), <-(lev_reverse (p ++ [x]) q).
  by rewrite !reverse_snoc, lev_reverse.
Qed.

Lemma lev_le_max a b : lev a b ≤ Nat.max (length a) (length b).
Proof.
  revert b. induction a as [|x a IH]; intros [|y b];
    rewrite ?lev_nil_l, ?lev_nil_r; simpl length; try lia.
  rewrite lev_cons.
  pose proof (min3_le (lev a (y :: b)) (lev (x :: a) b) (lev a b)).
  specialize (IH b). case_decide; lia.
Qed.

Lemma lev_refl a : lev a a = 0.
Proof. induction a as [|x a IH]; [done|]. by rewrite lev_cons, decide_True. Qed.

(** *** The rolling buffer computes the rows of the recursion *)

Lemma fill_spec k (l : list nat) :
  k ≤ length l →
  length (foldl (λ dp j, <[j := j]> dp) l (seq 0 k)) = length l ∧
  ∀ j, j < k → foldl (λ dp j, <[j := j]> dp) l (seq 0 k) !! j = Some j.
Proof.
  induction k as [|k IH]; intros Hk.
  - split; [done|]. intros j Hj. lia.
  - rewrite seq_S, foldl_app. simpl.
    destruct IH as [Hlen Hlook]; [lia|].
    split; [by rewrite length_insert|].
    intros j Hj. destruct (decide (j = k)) as [->|Hne].
    + rewrite list_lookup_insert_eq; [done|lia].
    + rewrite list_lookup_insert_ne by done. apply Hlook. lia.
Qed.

Lemma initRow_spec n :
  length (initRow n) = n + 1 ∧ ∀ j, j ≤ n → initRow n !! j = Some j.
Proof.
  unfold initRow.
  destruct (fill_spec (n + 1) (replicate (n + 1) 0)) as [Hlen Hlook].
  { by rewrite length_replicate. }
  rewrite length_replicate in Hlen. split; [done|].
  intros j Hj. apply Hlook. lia.
Qed.

Lemma length_take_lookup (a : list A) i x :
  a !! i = Some x → length (take i a) = i ∧ length (take (S i) a) = S i.
Proof.
  intros Hx%lookup_lt_Some. rewrite !length_take. lia.
Qed.

(** After [k] turns of the inner loop of row [S i'], the columns up to
    [k] hold the new row, the later ones still hold the previous row,
    and [prev] is the previous row's entry at column [k]. *)
Lemma innerLoop_inv (a b : list A) i' x (dp : list nat) prev k :
  a !! i' = Some x →
  length dp = length b + 1 →
  dp !! 0 = Some (S i') →
  (∀ j, 0 < j ≤ length b → dp !! j = Some (lev (take i' a) (take j b))) →
  prev = i' →
  k ≤ length b →
  length (foldl (innerStep a b (S i')) (dp, prev) (seq 1 k)).1
    = length b + 1 ∧
  (∀ j, j ≤ k →
     (foldl (innerStep a b (S i')) (dp, prev) (seq 1 k)).1 !! j
       = Some (lev (take (S i') a) (take j b))) ∧
  (∀ j, k < j ≤ length b →
     (foldl (innerStep a b (S i')) (dp, prev) (seq 1 k)).1 !! j
       = Some (lev (take i' a) (take j b))) ∧
  (foldl (innerStep a b (S i')) (dp, prev) (seq 1 k)).2
    = lev (take i' a) (take k b).
Proof.
  intros Hx Hlen H0 Hold -> Hk.
  destruct (length_take_lookup _ _ _ Hx) as [Hti HtSi].
  induction k as [|k IH].
  - simpl. split; [done|]. split; [|split].
    + intros j Hj. assert (j = 0) as -> by lia.
      by rewrite take_0, lev_nil_r, HtSi.
    + done.
    + by rewrite take_0, lev_nil_r, Hti.
  - destruct IH as (IHlen & IHnew & IHold & IHprev); [lia|].
    rewrite seq_S, foldl_app. simpl.
    destruct (foldl (innerStep a b (S i')) (dp, i') (seq 1 k))
      as [dpk prevk] eqn:Hst.
    simpl in IHlen, IHnew, IHold, IHprev. subst prevk.
    destruct (lookup_lt_is_Some_2 b k) as [y Hy]; [lia|].
    unfold innerStep.
    rewrite !Nat.sub_succ, !Nat.sub_0_r, Hx, Hy.
    pose proof (IHold (S k)) as HoldSk.
    pose proof (IHnew k) as Hnewk.
    rewrite (list_lookup_total_correct dpk (S k) _ (HoldSk ltac:(lia))).
    rewrite (list_lookup_total_correct dpk k _ (Hnewk ltac:(lia))).
    assert (lev (take (S i') a) (take (S k) b) =
            if decide (Some x = Some y) then lev (take i' a) (take k b)
            else min3 (lev (take i' a) (take k b) + 1)
                   (lev (take i' a) (take (S k) b) + 1)
                   (lev (take (S i') a) (take k b) + 1)) as Hnew.
    { rewrite (take_S_r a i' x Hx), (take_S_r b k y Hy), lev_snoc.
      rewrite <-(take_S_r a i' x Hx), <-(take_S_r b k y Hy).
      repeat case_decide; simplify_eq; try done. unfold min3. lia. }
    assert (∀ v, length (<[S k := v]> dpk) = length b + 1) as Hlen'.
    { intros v. by rewrite length_insert. }
    assert (∀ v j, j ≠ S k → <[S k := v]> dpk !! j = dpk !! j) as Hne.
    { intros v j Hj. by rewrite list_lookup_insert_ne. }
    assert (∀ v, <[S k := v]> dpk !! S k = Some v) as Heq.
    { intros v. rewrite list_lookup_insert_eq; [done|lia]. }
    case_decide as Hxy; simpl.
    + split; [done|]. split; [|split; [|done]].
      * intros j Hj. destruct (decide (j = S k)) as [->|Hj'].
        -- by rewrite Heq, Hnew.
        -- rewrite Hne by done. apply IHnew. lia.
      * intros j Hj. rewrite Hne by lia. apply IHold. lia.
    + split; [done|]. split; [|split; [|done]].
      * intros j Hj. destruct (decide (j = S k)) as [->|Hj'].
        -- by rewrite Heq, Hnew.
        -- rewrite Hne by done. apply IHnew. lia.
      * intros j Hj. rewrite Hne by lia. apply IHold. lia.
Qed.

(** After [k] turns of the outer loop the buffer is row [k]. *)
Lemma outerLoop_inv (a b : list A) k :
  k ≤ length a →
  length (foldl (outerStep a b (length b)) (initRow (length b)) (seq 1 k))
    = length b + 1 ∧
  ∀ j, j ≤ length b →
    foldl (outerStep a b (length b)) (initRow (length b)) (seq 1 k) !! j
      = Some (lev (take k a) (take j b)).
Proof.
  induction k as [|k IH]; intros Hk.
  - simpl. destruct (initRow_spec (length b)) as [Hlen Hlook].
    split; [done|]. intros j Hj.
    rewrite Hlook by done. rewrite ?take_0, ?lev_nil_l, length_take.
    f_equal. lia.
  - destruct IH as [IHlen IHrow]; [lia|].
    rewrite seq_S, foldl_app. simpl.
    set (dp := foldl (outerStep a b (length b)) (initRow (length b)) (seq 1 k))
      in *.
    destruct (lookup_lt_is_Some_2 a k) as [x Hx]; [lia|].
    unfold outerStep.
    rewrite (list_lookup_total_correct dp 0 _ (IHrow 0 ltac:(lia))).
    rewrite take_0, lev_nil_r.
    destruct (length_take_lookup _ _ _ Hx) as [-> _].
    destruct (innerLoop_inv a b k x (<[0 := S k]> dp) k (length b))
      as (Hlen & Hnew & _ & _); try done.
    + by rewrite length_insert.
    + rewrite list_lookup_insert_eq; [done|lia].
    + intros j Hj. rewrite list_lookup_insert_ne by lia. apply IHrow. lia.
Qed.

(** The buffer implementation agrees with the textbook recursion. *)
Lemma levenshtein_lev (a b : list A) : levenshtein a b = lev a b.
Proof.
  unfold levenshtein.
  case_decide as Hm.
  { apply length_zero_iff_nil in Hm as ->. by rewrite lev_nil_l. }
  case_decide as Hn.
  { apply length_zero_iff_nil in Hn as ->. by rewrite lev_nil_r. }
  destruct (outerLoop_inv a b (length a)) as [_ Hrow]; [done|].
  pose proof (Hrow (length b) ltac:(lia)) as Hn'.
  apply list_lookup_total_correct in Hn'. rewrite Hn'.
  by rewrite !firstn_all.
Qed.

End LevenshteinFacts.

(** ** Trimming and collapsing *)

(** Turns a boolean test on code units into the arithmetic it stands for. *)
Ltac unbool H :=
  repeat first
    [ rewrite orb_true_iff in H | rewrite andb_true_iff in H
    | rewrite negb_true_iff in H | rewrite N.leb_le in H
    | rewrite N.eqb_eq in H | rewrite N.eqb_neq in H ].

Lemma keptChar_not_white c : keptChar c = true → isWhiteSpace c = false.
Proof.
  intros Hk. destruct (isWhiteSpace c) eqn:Hw; [exfalso|done].
  unfold keptChar, isWhiteSpace in *.
  unbool Hk. unbool Hw. lia.
Qed.

Lemma space_white : isWhiteSpace space = true.
Proof. reflexivity. Qed.

Lemma trimStart_head s :
  match trimStart s with [] => True | c :: _ => isWhiteSpace c = false end.
Proof.
  induction s as [|c s IH]; simpl; [done|].
  by destruct (isWhiteSpace c) eqn:Hc.
Qed.

Lemma trimStart_fixed c s : isWhiteSpace c = false → trimStart (c :: s) = c :: s.
Proof. intros Hc. simpl. by rewrite Hc. Qed.

Lemma trimEnd_head c s :
  isWhiteSpace c = false → ∃ r, trimEnd (c :: s) = c :: r.
Proof.
  intros Hc. simpl. rewrite Hc. destruct (trimEnd s); eauto.
Qed.

Lemma trimEnd_idem s : trimEnd (trimEnd s) = trimEnd s.
Proof.
  induction s as [|c s IH]; simpl; [done|].
  destruct (trimEnd s) as [|d r] eqn:Hr.
  - destruct (isWhiteSpace c) eqn:Hc; simpl; [done|]. by rewrite Hc.
  - change (trimEnd (c :: d :: r)) with
      (match trimEnd (d :: r) with
       | [] => if isWhiteSpace c then [] else [c]
       | r' => c :: r'
       end).
    by rewrite IH.
Qed.

Lemma trim_idem s : trim (trim s) = trim s.
Proof.
  unfold trim. pose proof (trimStart_head s) as Hh.
  destruct (trimStart s) as [|c t]; [done|].
  destruct (trimEnd_head c t Hh) as [r Hr].
  rewrite Hr, trimStart_fixed by done. by rewrite <-Hr, trimEnd_idem.
Qed.

Lemma trimStart_elem c s : c ∈ trimStart s → c ∈ s.
Proof.
  induction s as [|d s IH]; simpl; [done|].
  destruct (isWhiteSpace d); [|done]. intros Hc. by right; apply IH.
Qed.

Lemma trimEnd_elem c s : c ∈ trimEnd s → c ∈ s.
Proof.
  induction s as [|d s IH]; simpl; [done|].
  destruct (trimEnd s) as [|e r].
  - destruct (isWhiteSpace d); [by intros ?%elem_of_nil|].
    intros ->%list_elem_of_singleton. by left.
  - intros [->|Hc]%elem_of_cons; [by left|]. right. by apply IH.
Qed.

Lemma collapseFrom_elem b c s :
  c ∈ collapseFrom b s → c = space ∨ (keptChar c = true ∧ c ∈ s).
Proof.
  revert b. induction s as [|d s IH]; intros b; simpl.
  { by intros ?%elem_of_nil. }
  destruct (keptChar d) eqn:Hd.
  - intros [->|Hc]%elem_of_cons.
    + right. split; [done|by left].
    + destruct (IH _ Hc) as [?|[? ?]]; [by left|]. right. split; [done|by right].
  - destruct b.
    + intros Hc. destruct (IH _ Hc) as [?|[? ?]]; [by left|].
      right. split; [done|by right].
    + intros [->|Hc]%elem_of_cons; [by left|].
      destruct (IH _ Hc) as [?|[? ?]]; [by left|]. right. split; [done|by right].
Qed.

Lemma collapseFrom_wellSpaced b s : wellSpacedFrom b (collapseFrom b s) = true.
Proof.
  revert b. induction s as [|c s IH]; intros b; simpl; [done|].
  destruct (keptChar c) eqn:Hc; simpl.
  - by rewrite Hc.
  - destruct b; [done|]. simpl. apply IH.
Qed.

Lemma wellSpaced_collapseFrom b s :
  wellSpacedFrom b s = true → collapseFrom b s = s.
Proof.
  revert b. induction s as [|c s IH]; intros b; simpl; [done|].
  destruct (keptChar c).
  - intros Hs. by rewrite IH.
  - rewrite !andb_true_iff, N.eqb_eq, negb_true_iff.
    intros [[-> ->] Hs]. by rewrite IH.
Qed.

Lemma wellSpaced_weaken b s :
  wellSpacedFrom b s = true → wellSpacedFrom false s = true.
Proof.
  destruct s as [|c s]; simpl; [done|].
  destruct (keptChar c); [done|].
  rewrite !andb_true_iff. intros [[-> _] ->]. done.
Qed.

Lemma wellSpaced_trimStart b s :
  wellSpacedFrom b s = true → wellSpacedFrom false (trimStart s) = true.
Proof.
  revert b. induction s as [|c s IH]; intros b Hs; [done|].
  simpl trimStart. destruct (isWhiteSpace c) eqn:Hw.
  - simpl in Hs. destruct (keptChar c) eqn:Hk.
    + apply keptChar_not_white in Hk. congruence.
    + rewrite !andb_true_iff in Hs. destruct Hs as [_ Hs]. by eapply IH.
  - by eapply wellSpaced_weaken.
Qed.

Lemma wellSpaced_trimEnd b s :
  wellSpacedFrom b s = true → wellSpacedFrom b (trimEnd s) = true.
Proof.
  revert b. induction s as [|c s IH]; intros b Hs; [done|].
  simpl in Hs. simpl trimEnd.
  destruct (keptChar c) eqn:Hk.
  - apply IH in Hs. destruct (trimEnd s) as [|d r].
    + destruct (isWhiteSpace c); [done|]. simpl. by rewrite Hk.
    + simpl. by rewrite Hk.
  - rewrite !andb_true_iff, N.eqb_eq, negb_true_iff in Hs.
    destruct Hs as [[-> ->] Hs]. apply IH in Hs.
    destruct (trimEnd s) as [|d r]; [done|].
    change (wellSpacedFrom false (space :: d :: r))
      with (wellSpacedFrom true (d :: r)). done.
Qed.

Lemma wellSpaced_chars b s :
  wellSpacedFrom b s = true → Forall (λ c, keptChar c = true ∨ c = space) s.
Proof.
  revert b. induction s as [|c s IH]; intros b; simpl; [by constructor|].
  destruct (keptChar c) eqn:Hk.
  - intros Hs. constructor; [by left|]. by eapply IH.
  - rewrite !andb_true_iff, N.eqb_eq. intros [[-> _] Hs].
    constructor; [by right|]. by eapply IH.
Qed.

Lemma plainChar_not_mark c : plainChar c = true → isCombiningMark c = false.
Proof.
  intros Hp. destruct (isCombiningMark c) eqn:Hm; [exfalso|done].
  unfold plainChar, keptChar, isCombiningMark in *.
  unbool Hp. unbool Hm. lia.
Qed.

Lemma stripCombiningMarks_plain s :
  Forall (λ c, plainChar c = true) s → stripCombiningMarks s = s.
Proof.
  induction 1 as [|c s Hc _ IH]; [done|].
  unfold stripCombiningMarks in *. simpl.
  by rewrite (plainChar_not_mark c Hc), IH.
Qed.

Lemma stripCombiningMarks_elem c s : c ∈ stripCombiningMarks s → c ∈ s.
Proof.
  unfold stripCombiningMarks. rewrite !list_elem_of_In, filter_In. tauto.
Qed.

(** ** The similarity score *)

Lemma ratio_range (d m : nat) :
  d ≤ m → 0 < m →
  (0 <= inject_Z (Z.of_nat d) / inject_Z (Z.of_nat m))%Q ∧
  (inject_Z (Z.of_nat d) / inject_Z (Z.of_nat m) <= 1)%Q.
Proof.
  intros Hd Hm.
  assert (0 < inject_Z (Z.of_nat m))%Q as Hpos.
  { change 0%Q with (inject_Z 0). rewrite <-Zlt_Qlt. lia. }
  split.
  - apply Qle_shift_div_l; [done|]. rewrite Qmult_0_l.
    change 0%Q with (inject_Z 0). rewrite <-Zle_Qle. lia.
  - apply Qle_shift_div_r; [done|]. rewrite Qmult_1_l.
    rewrite <-Zle_Qle. lia.
Qed.

Lemma ratio_self (m : nat) :
  0 < m → (inject_Z (Z.of_nat m) / inject_Z (Z.of_nat m) == 1)%Q.
Proof.
  intros Hm. apply Qmult_inv_r.
  change 0%Q with (inject_Z 0). rewrite inject_Z_injective. lia.
Qed.

Lemma ratio_zero (m : nat) : (inject_Z (Z.of_nat 0) / inject_Z (Z.of_nat m) == 0)%Q.
Proof. unfold Qdiv. apply Qmult_0_l. Qed.

Lemma isEmptyString_true s : isEmptyString s = true ↔ s = [].
Proof. by destruct s. Qed.

Lemma isEmptyString_false s : isEmptyString s = false ↔ s ≠ [].
Proof. by destruct s. Qed.

Section ScorerFacts.
Variables nfd toLowerCase : jsstring → jsstring.

Local Abbreviation normalize := (normalizeForCompare nfd toLowerCase).
Local Abbreviation score := (similarityScore nfd toLowerCase).

Lemma normalize_wellSpaced x : wellSpacedFrom false (normalize x) = true.
Proof.
  unfold normalizeForCompare, trim, collapseOthers.
  apply wellSpaced_trimEnd. eapply wellSpaced_trimStart.
  apply collapseFrom_wellSpaced.
Qed.

Lemma normalize_elem c x :
  c ∈ normalize x →
  c = space ∨
  (keptChar c = true ∧ c ∈ toLowerCase (stripCombiningMarks (nfd x))).
Proof.
  unfold normalizeForCompare, trim, collapseOthers.
  intros Hc%trimEnd_elem%trimStart_elem. by eapply collapseFrom_elem.
Qed.

Lemma score_nonempty expected actual :
  normalize expected ≠ [] → normalize actual ≠ [] →
  score expected actual =
    (1 - inject_Z (Z.of_nat (levenshtein (normalize expected) (normalize actual)))
         / inject_Z (Z.of_nat (Nat.max (length (normalize expected))
                                 (length (normalize actual)))))%Q.
Proof.
  intros He Ha. unfold similarityScore.
  apply isEmptyString_false in He as He', Ha as Ha'. rewrite He', Ha'. simpl.
  destruct (normalize expected) as [|c e]; [done|]. simpl length.
  by destruct (length (normalize actual)).
Qed.

Lemma score_empty expected actual :
  normalize expected = [] ∨ normalize actual = [] → score expected actual = 0%Q.
Proof.
  unfold similarityScore. intros [->| ->]; [done|].
  by rewrite orb_true_r.
Qed.

Lemma levenshtein_le_max (a b : jsstring) :
  levenshtein a b ≤ Nat.max (length a) (length b).
Proof. rewrite levenshtein_lev. apply lev_le_max. Qed.

Lemma score_range expected actual :
  (0 <= score expected actual)%Q ∧ (score expected actual <= 1)%Q.
Proof.
  destruct (decide (normalize expected = [])) as [He|He].
  { rewrite score_empty by auto. done. }
  destruct (decide (normalize actual = [])) as [Ha|Ha].
  { rewrite score_empty by auto. done. }
  rewrite score_nonempty by done.
  destruct (ratio_range
    (levenshtein (normalize expected) (normalize actual))
    (Nat.max (length (normalize expected)) (length (normalize actual))))
    as [H0 H1].
  - apply levenshtein_le_max.
  - destruct (normalize expected); [done|]. simpl. lia.
  - split; lra.
Qed.

End ScorerFacts.

(** ** Normalisation under the host's guarantees *)

Section ScorerHost.
Variables nfd toLowerCase : jsstring → jsstring.
Hypothesis nfd_plain : FixesPlain nfd.
Hypothesis lower_plain : FixesPlain toLowerCase.

Local Abbreviation normalize := (normalizeForCompare nfd toLowerCase).

(** A plain, well spaced string without outer spaces is its own
    normal form. *)
Lemma normalize_plain s :
  Forall (λ c, plainChar c = true) s →
  wellSpacedFrom false s = true →
  trim s = s →
  normalize s = s.
Proof.
  intros Hp Hw Ht. unfold normalizeForCompare.
  rewrite nfd_plain, stripCombiningMarks_plain, lower_plain by done.
  unfold collapseOthers. by rewrite wellSpaced_collapseFrom.
Qed.

Hypothesis nfd_decomposed : DecomposesCedilla nfd.
Hypothesis lower_cedilla : LowersToCedilla toLowerCase.

Lemma normalize_chars x : Forall (λ c, plainChar c = true) (normalize x).
Proof.
  pose proof (wellSpaced_chars _ _ (normalize_wellSpaced nfd toLowerCase x))
    as Hchars.
  rewrite Forall_forall in Hchars. apply Forall_forall. intros c Hc.
  destruct (normalize_elem nfd toLowerCase c x Hc) as [->|[Hk Hin]]; [done|].
  unfold plainChar. rewrite Hk. simpl.
  destruct (N.eqb_spec c 0xE7) as [->|Hne]; [exfalso|done].
  destruct (nfd_decomposed x) as [He7 Hc7].
  destruct (lower_cedilla _ Hin) as [Hs|Hs];
    apply stripCombiningMarks_elem in Hs; done.
Qed.

Lemma normalize_idem x : normalize (normalize x) = normalize x.
Proof.
  apply normalize_plain.
  - apply normalize_chars.
  - apply normalize_wellSpaced.
  - unfold normalizeForCompare. apply trim_idem.
Qed.

End ScorerHost.

(** ** The Latin instance meets the guarantees *)

Lemma forallb_elem {A} (f : A → bool) (l : list A) x :
  forallb f l = true → x ∈ l → f x = true.
Proof.
  rewrite forallb_forall, list_elem_of_In. auto.
Qed.

Lemma plainChar_listed c : plainChar c = true → c ∈ plainChars.
Proof.
  intros Hp. unfold plainChar, keptChar in Hp. unbool Hp.
  unfold plainChars. rewrite elem_of_app.
  destruct Hp as [[Hk Hne]|Hk]; [|subst c; right; by repeat constructor].
  destruct_or! Hk;
    [left|subst c; first [done|right; by repeat constructor]..].
  destruct Hk as [Hlo Hhi].
  apply list_elem_of_fmap. exists (N.to_nat c).
  split; [by rewrite N2Nat.id|]. apply elem_of_seq. lia.
Qed.

Lemma Latin_tableLookup_Some c t v :
  Latin.tableLookup c t = Some v → (c, v) ∈ t.
Proof.
  induction t as [|[k w] t IH]; simpl; [done|].
  destruct (N.eqb_spec c k) as [->|Hne].
  - intros [= ->]. by left.
  - intros Hv. right. by apply IH.
Qed.

Lemma Latin_mapChar_plain t :
  forallb (λ c, bool_decide (Latin.tableLookup c t = None)) plainChars = true →
  FixesPlain (flat_map (Latin.mapChar t)).
Proof.
  intros Hall s. induction 1 as [|c s Hc _ IH]; [done|].
  simpl. rewrite IH. unfold Latin.mapChar.
  apply plainChar_listed in Hc.
  pose proof (forallb_elem _ _ _ Hall Hc) as Hnone.
  apply bool_decide_eq_true in Hnone. by rewrite Hnone.
Qed.

Lemma Latin_nfd_plain : FixesPlain Latin.nfd.
Proof. apply Latin_mapChar_plain. by vm_compute. Qed.

Lemma Latin_toLowerCase_plain : FixesPlain Latin.toLowerCase.
Proof. apply Latin_mapChar_plain. by vm_compute. Qed.

Lemma Latin_nfd_decomposed : DecomposesCedilla Latin.nfd.
Proof.
  assert (∀ c d, d = cedilla ∨ d = capitalCedilla →
            d ∉ Latin.mapChar Latin.decompositions c) as Hchar.
  { intros c d Hd Hin. unfold Latin.mapChar in Hin.
    destruct (Latin.tableLookup c Latin.decompositions) as [v|] eqn:Hv.
    - apply Latin_tableLookup_Some in Hv.
      assert (forallb (λ e, negb (existsb (N.eqb 0xE7) e.2)
                            && negb (existsb (N.eqb 0xC7) e.2))
                Latin.decompositions = true) as Hall by by vm_compute.
      pose proof (forallb_elem _ _ _ Hall Hv) as Hok. simpl in *.
      apply andb_true_iff in Hok as [H1 H2].
      apply negb_true_iff in H1, H2.
      apply list_elem_of_In in Hin.
      destruct Hd as [-> | ->].
      + assert (existsb (N.eqb 0xE7) v = true); [|congruence].
        apply existsb_exists. exists 0xE7%N. by rewrite N.eqb_refl.
      + assert (existsb (N.eqb 0xC7) v = true); [|congruence].
        apply existsb_exists. exists 0xC7%N. by rewrite N.eqb_refl.
    - simpl in Hin. apply list_elem_of_singleton in Hin. subst c.
      destruct Hd as [-> | ->]; by vm_compute in Hv. }
  intros s. unfold Latin.nfd.
  split; intros Hin; apply list_elem_of_In, in_flat_map in Hin;
    destruct Hin as (c & _ & Hin%list_elem_of_In).
  - apply (Hchar c cedilla); [by left|done].
  - apply (Hchar c capitalCedilla); [by right|done].
Qed.

Lemma Latin_toLowerCase_cedilla : LowersToCedilla Latin.toLowerCase.
Proof.
  assert (∀ c, cedilla ∈ Latin.mapChar Latin.lowerCases c →
            c = cedilla ∨ c = capitalCedilla) as Hchar.
  { intros c Hin. unfold Latin.mapChar in Hin.
    destruct (Latin.tableLookup c Latin.lowerCases) as [v|] eqn:Hv.
    - apply Latin_tableLookup_Some in Hv.
      assert (forallb (λ e, negb (existsb (N.eqb 0xE7) e.2)
                            || (e.1 =? 0xC7)%N)
                Latin.lowerCases = true) as Hall by by vm_compute.
      pose proof (forallb_elem _ _ _ Hall Hv) as Hok. simpl in *.
      apply orb_true_iff in Hok as [Hok|Hok%N.eqb_eq]; [|by right].
      apply negb_true_iff in Hok.
      assert (existsb (N.eqb 0xE7) v = true); [|congruence].
      apply existsb_exists. exists 0xE7%N.
      split; [by apply list_elem_of_In|by rewrite N.eqb_refl].
    - simpl in Hin. apply list_elem_of_singleton in Hin. by left. }
  intros s Hin. unfold Latin.toLowerCase in Hin.
  apply list_elem_of_In, in_flat_map in Hin.
  destruct Hin as (c & Hc%list_elem_of_In & Hin%list_elem_of_In).
  destruct (Hchar c Hin) as [-> | ->]; auto.
Qed.

(** ** Feedback tiers *)

Lemma Qle_bool_false (x y : Q) : Qle_bool x y = false ↔ (y < x)%Q.
Proof.
  rewrite <-not_true_iff_false, Qle_bool_iff. split.
  - apply Qnot_le_lt.
  - apply Qlt_not_le.
Qed.

Lemma feedbackFor_veryClose s :
  (85 # 100 <= s)%Q → feedbackFor s = FeedbackVeryClose.
Proof.
  intros H85%Qle_bool_iff. unfold feedbackFor. by rewrite H85.
Qed.

Lemma feedbackFor_decent s :
  (6 # 10 <= s)%Q → (s < 85 # 100)%Q →
  feedbackFor s = FeedbackDecent.
Proof.
  intros H60%Qle_bool_iff H85%Qle_bool_false. unfold feedbackFor.
  by rewrite H85, H60.
Qed.

Lemma feedbackFor_largeDeviation s :
  (s < 6 # 10)%Q → feedbackFor s = FeedbackLargeDeviation.
Proof.
  intros H60. assert (s < 85 # 100)%Q as H85 by lra.
  apply Qle_bool_false in H60, H85. unfold feedbackFor.
  by rewrite H85, H60.
Qed.

(** ** Token rendering *)

Lemma join_empty_sep parts : join [] parts = concat parts.
Proof.
  induction parts as [|x [|y parts] IH]; simpl; [done|by rewrite app_nil_r|].
  simpl in IH. by rewrite IH.
Qed.

Lemma isPunctText_spec t :
  isPunctText t = true ↔ isSingle closingPunctuation t.
Proof.
  unfold isSingle, closingPunctuation. destruct t as [|c [|d t]]; simpl.
  - split; [done|]. by intros (c & ? & _).
  - split.
    + intros Hc. unbool Hc. exists c. split; [done|].
      destruct_or! Hc; subst c; by repeat constructor.
    + intros (c' & [= <-] & Hc). rewrite !elem_of_cons in Hc.
      destruct_or! Hc; subst; try done. by apply elem_of_nil in Hc.
  - split; [done|]. by intros (c' & ? & _).
Qed.

Lemma isOpeningText_spec t :
  isOpeningText t = true ↔ isSingle openingMarks t.
Proof.
  unfold isSingle, openingMarks. destruct t as [|c [|d t]]; simpl.
  - split; [done|]. by intros (c & ? & _).
  - split.
    + intros Hc. unbool Hc. exists c. split; [done|].
      destruct_or! Hc; subst c; by repeat constructor.
    + intros (c' & [= <-] & Hc). rewrite !elem_of_cons in Hc.
      destruct_or! Hc; subst; try done. by apply elem_of_nil in Hc.
  - split; [done|]. by intros (c' & ? & _).
Qed.

(** The piece pushed before a token's span agrees with [separator]. *)
Lemma pushed_separator (p t : Token) :
  (if negb (isPunctText (text t)) && negb (isOpeningText (text p))
   then [space] else []) = separator p t.
Proof.
  unfold separator.
  destruct (isPunctText (text t)) eqn:Hp; simpl.
  - apply isPunctText_spec in Hp. by rewrite decide_True.
  - rewrite decide_False; [|by rewrite <-isPunctText_spec, Hp].
    destruct (isOpeningText (text p)) eqn:Ho; simpl.
    + apply isOpeningText_spec in Ho. by rewrite decide_True.
    + rewrite decide_False; [done|]. by rewrite <-isOpeningText_spec, Ho.
Qed.

(** The loop over the tokens from index [length pre] on, where [pre] are
    the tokens already rendered into [parts]. *)
Lemma renderStep_loop (suf pre : list Token) (parts : list jsstring) :
  concat (foldl (renderStep (pre ++ suf)) parts
            (zip (seq (length pre) (length suf)) suf))
  = concat parts ++
    match last pre with
    | None => joinSpans suf
    | Some p => spansAfter p suf
    end.
Proof.
  revert pre parts. induction suf as [|t suf IH]; intros pre parts.
  - simpl. destruct (last pre); simpl; by rewrite app_nil_r.
  - simpl length. simpl seq. simpl zip. simpl foldl.
    replace (pre ++ t :: suf) with ((pre ++ [t]) ++ suf)
      by by rewrite <-app_assoc.
    replace (S (length pre)) with (length (pre ++ [t]))
      by (rewrite length_app; simpl; lia).
    rewrite IH, last_snoc. unfold renderStep.
    rewrite <-app_assoc. simpl app at 2.
    destruct pre as [|p0 pre'] using rev_ind.
    + simpl. rewrite concat_app. simpl. by rewrite !app_nil_r, <-app_assoc.
    + clear IHpre'. rewrite last_snoc, length_app. simpl length.
      replace (length pre' + 1 =? 0) with false
        by (symmetry; apply Nat.eqb_neq; lia).
      replace (0 <? length pre' + 1) with true
        by (symmetry; apply Nat.ltb_lt; lia).
      replace (length pre' + 1 - 1) with (length pre' + 0) by lia.
      rewrite <-app_assoc, lookup_app_r by lia.
      replace (length pre' + 0 - length pre') with 0 by lia.
      simpl lookup. simpl andb.
      change (spansAfter p0 (t :: suf))
        with (separator p0 t ++ tokenHtml t ++ spansAfter t suf).
      rewrite <-(pushed_separator p0 t).
      destruct (negb (isPunctText (text t)) && negb (isOpeningText (text p0)));
        rewrite !concat_app; cbn [concat];
        rewrite ?app_nil_r, <-?app_assoc; reflexivity.
Qed.

(** The loop of the source renders what the rule describes. *)
Lemma renderTokens_joinSpans (ts : list Token) :
  renderTokens (Some ts) = joinSpans ts.
Proof.
  unfold renderTokens. destruct ts as [|t ts]; [done|].
  change (Nat.eqb (length (t :: ts)) 0) with false. cbv iota.
  rewrite join_empty_sep.
  exact (renderStep_loop (t :: ts) [] []).
Qed.

(** ** The card controller *)

Section ListeningFacts.
Import Listening.


Lemma showAnswer_begin_shown st st1 :
  showAnswer_begin st = Some st1 →
  answerShown st1 = true ∧ currentCard st1 = currentCard st.
Proof.
  unfold showAnswer_begin. destruct (currentCard st) eqn:Hc; [|done].
  destruct (answerShown st); [done|]. by intros [= <-].
Qed.

Lemma showAnswer_begin_again st st1 :
  showAnswer_begin st = Some st1 → showAnswer_begin st1 = None.
Proof.
  intros Hb. destruct (showAnswer_begin_shown _ _ Hb) as [Hs Hc].
  unfold showAnswer_begin. rewrite Hs. by destruct (currentCard st1).
Qed.



Lemma submitAnswer_begin_disables r st st1 q :
  submitAnswer_begin r st = Some (st1, q) →
  revealDisabled st1 = true ∧ nextDisabled st1 = true ∧
  Forall (λ b, disabled b = true) (easeButtons st1) ∧
  currentCard st1 = currentCard st ∧ answerShown st1 = answerShown st.
Proof.
  unfold submitAnswer_begin. destruct (currentCard st) eqn:Hc; [|done].
  intros [= <- <-]. simpl. repeat split; try done.
  apply Forall_fmap, Forall_true. done.
Qed.

Lemma easeClick_disabled i resp next st :
  Forall (λ b, disabled b = true) (easeButtons st) →
  easeClick i resp next st = (st, []).
Proof.
  intros Hall. unfold easeClick. destruct (easeButtonsHidden st); [done|].
  destruct (easeButtons st !! i) as [b|] eqn:Hb; [|done].
  rewrite Forall_forall in Hall.
  by rewrite (Hall b (list_elem_of_lookup_2 _ _ _ Hb)).
Qed.


End ListeningFacts.

(** ** The handlers and their steps *)

(** A reveal click whose handler runs without another handler in
    between is its two steps in a row. *)
Lemma revealClick_steps (diff : option Listening.DiffResponse)
    (st st1 : Listening.State) :
  Listening.revealClick_begin st = Some st1 →
  Listening.revealClick diff st = Listening.revealClick_resume diff st1.
Proof.
  unfold Listening.revealClick_begin, Listening.revealClick,
    Listening.revealClick_resume, Listening.showAnswer.
  destruct (Listening.revealDisabled st); [done|].
  by intros ->.
Qed.

(** So is a click on an ease button. *)
Lemma easeClick_steps (i : nat) (resp : Listening.AnswerResponse)
    (next : Listening.NextResponse) (st st1 : Listening.State)
    (q : Listening.Request) :
  Listening.easeClick_begin i st = Some (st1, q) →
  Listening.easeClick i resp next st
  = ((Listening.submitAnswer_resume resp next st1).1,
     q :: (Listening.submitAnswer_resume resp next st1).2).
Proof.
  unfold Listening.easeClick_begin, Listening.easeClick,
    Listening.submitAnswer.
  destruct (Listening.easeButtonsHidden st); [done|].
  destruct (Listening.easeButtons st !! i) as [b|]; [|done].
  destruct (Listening.disabled b); [done|].
  intros ->. by destruct (Listening.submitAnswer_resume resp next st1).
Qed.

(** ** Token rendering on JSON values *)

Lemma untyped_tokenClass (e : Untyped.Value) :
  Untyped.tokenClass e = tokenClass (Untyped.toToken e).
Proof.
  unfold Untyped.tokenClass, tokenClass, Untyped.toToken. cbn [status].
  destruct (Untyped.statusOf e) as [| |b|n|s| |t u];
    unfold Untyped.strictEqual;
    try (rewrite !decide_False by done; reflexivity).
  do 2 (case_bool_decide; case_decide; try done).
Qed.

Lemma untyped_escapeHtml (e : Untyped.Value) :
  Untyped.isNullish e = false →
  Untyped.escapeHtml (Untyped.textOf e)
  = if Untyped.renderable e
    then Some (escapeHtml (text (Untyped.toToken e))) else None.
Proof.
  intros Hn. unfold Untyped.renderable, Untyped.escapeHtml, Untyped.toToken.
  rewrite Hn. cbn [negb andb text].
  destruct (Untyped.textOf e) as [| |b|n|s| |t u]; cbn [Untyped.truthy];
    try done.
  - by destruct b.
  - by destruct (Qeq_bool n 0).
  - destruct s; done.
Qed.

Lemma untyped_test (re : jsstring → bool) (e : Untyped.Value) :
  re [] = false →
  Untyped.test re (Untyped.textOf e) = re (text (Untyped.toToken e)).
Proof.
  intros Hre. unfold Untyped.test, Untyped.toToken. cbn [text].
  by destruct (Untyped.textOf e).
Qed.

Lemma untyped_prev (ts : list Untyped.Value) (idx : nat) :
  (if Untyped.truthy
        (if Nat.eqb idx 0 then Untyped.VUndefined
         else default Untyped.VUndefined (ts !! (idx - 1)))
   then Untyped.test isOpeningText
          (Untyped.textOf
             (if Nat.eqb idx 0 then Untyped.VUndefined
              else default Untyped.VUndefined (ts !! (idx - 1))))
   else false)
  = match (if Nat.eqb idx 0 then None
           else (Untyped.toToken <$> ts) !! (idx - 1)) with
    | Some p => isOpeningText (text p)
    | None => false
    end.
Proof.
  destruct (Nat.eqb idx 0); [done|].
  rewrite list_lookup_fmap. destruct (ts !! (idx - 1)) as [p|]; [|done].
  cbn [from_option fmap option_fmap option_map]. unfold id.
  rewrite untyped_test by done.
  destruct (Untyped.truthy p) eqn:Ht; [done|].
  destruct p as [| |b|n|s| |t u]; try done.
Qed.

(** One call of the callback: it throws exactly on an entry that is not
    renderable, and otherwise does what the callback does on the entry
    read as a token. *)
Lemma untyped_renderStep (ts : list Untyped.Value) (parts : list jsstring)
    (idx : nat) (e : Untyped.Value) :
  Untyped.renderStep ts (Some parts) (idx, e)
  = if Untyped.renderable e
    then Some (renderStep (Untyped.toToken <$> ts) parts
                 (idx, Untyped.toToken e))
    else None.
Proof.
  unfold Untyped.renderStep.
  destruct (Untyped.isNullish e) eqn:Hn.
  { unfold Untyped.renderable. by rewrite Hn. }
  rewrite (untyped_escapeHtml e Hn).
  destruct (Untyped.renderable e); [|done].
  cbv zeta. rewrite (untyped_prev ts idx), untyped_tokenClass.
  rewrite (untyped_test isPunctText) by done.
  unfold renderStep, tokenHtml. reflexivity.
Qed.

Lemma untyped_thrown (ts : list Untyped.Value) (l : list (nat * Untyped.Value)) :
  foldl (Untyped.renderStep ts) None l = None.
Proof. induction l as [|x l IH]; [done|]. simpl. exact IH. Qed.

(** The loop over the entries [l] from index [n] on. *)
Lemma untyped_loop (ts l : list Untyped.Value) (n : nat)
    (parts : list jsstring) :
  foldl (Untyped.renderStep ts) (Some parts) (zip (seq n (length l)) l)
  = if forallb Untyped.renderable l
    then Some (foldl (renderStep (Untyped.toToken <$> ts)) parts
                 (zip (seq n (length l)) (Untyped.toToken <$> l)))
    else None.
Proof.
  revert n parts. induction l as [|e l IH]; intros n parts; [done|].
  cbn [length seq zip zip_with foldl forallb fmap list_fmap].
  rewrite untyped_renderStep.
  destruct (Untyped.renderable e); cbn [andb].
  - apply IH.
  - apply untyped_thrown.
Qed.

(** The call returns exactly on the lists of renderable entries, and
    then what the tokens they stand for render to. *)
Lemma untyped_renderTokens (es : list Untyped.Value) :
  Untyped.renderTokens (Some es)
  = if forallb Untyped.renderable es
    then Untyped.Returned (renderTokens (Some (Untyped.toToken <$> es)))
    else Untyped.TypeError.
Proof.
  unfold Untyped.renderTokens, renderTokens. rewrite length_fmap.
  destruct es as [|e es]; [done|].
  change (Nat.eqb (length (e :: es)) 0) with false. cbv iota.
  rewrite (untyped_loop (e :: es) (e :: es) 0 []).
  by destruct (forallb Untyped.renderable (e :: es)).
Qed.

Lemma untyped_ofToken (ts : list Token) :
  forallb Untyped.renderable (Untyped.ofToken <$> ts) = true ∧
  Untyped.toToken <$> (Untyped.ofToken <$> ts) = ts.
Proof.
  induction ts as [|[t s] ts [IH1 IH2]]; [done|].
  split.
  - cbn [fmap list_fmap forallb]. fold (fmap (M:=list) Untyped.ofToken ts).
    by rewrite IH1.
  - cbn [fmap list_fmap]. fold (fmap (M:=list) Untyped.ofToken ts).
    fold (fmap (M:=list) Untyped.toToken (Untyped.ofToken <$> ts)).
    by rewrite IH2.
Qed.

(** * The specification's claims *)

(** ** Edit distance *)

(** C2: the single-row buffer implementation computes the classic edit
    distance. For all strings [a] and [b], [levenshtein a b] equals the
    textbook recursion [lev a b]; it is the cost of an edit script of
    unit-cost insertions, deletions and substitutions from [a] to [b],
    and no such script is cheaper. *)
Theorem levenshtein_textbook {A : Type} `{EqDecision A} (a b : list A) :
  levenshtein a b = lev a b ∧
  script a b (levenshtein a b) ∧
  (∀ n, script a b n → levenshtein a b ≤ n).
Proof.
  rewrite levenshtein_lev. split; [done|]. split.
  - apply lev_script.
  - apply lev_le_script.
Qed.

(** C8: the distance is symmetric, [levenshtein a b = levenshtein b a]. *)
Theorem levenshtein_symmetric {A : Type} `{EqDecision A} (a b : list A) :
  levenshtein a b = levenshtein b a.
Proof. rewrite !levenshtein_lev. apply lev_sym. Qed.

(** ** Similarity score *)

(** C1: with [e] and [a] the normalised strings, the score is 0 whenever
    one of them is empty, and it is [1 - levenshtein e a / max (|e|, |a|)]
    whenever at least one of them is not empty (when both are empty the
    quotient has no value and the score is 0). *)
Theorem similarityScore_formula (nfd toLowerCase : jsstring → jsstring)
    (expected actual : jsstring) :
  let e := normalizeForCompare nfd toLowerCase expected in
  let a := normalizeForCompare nfd toLowerCase actual in
  (e = [] ∨ a = [] →
     similarityScore nfd toLowerCase expected actual == 0)%Q ∧
  (e ≠ [] ∨ a ≠ [] →
     similarityScore nfd toLowerCase expected actual ==
       1 - inject_Z (Z.of_nat (levenshtein e a))
           / inject_Z (Z.of_nat (Nat.max (length e) (length a))))%Q.
Proof.
  intros e a. split.
  - intros Hemp. by rewrite score_empty.
  - intros Hne.
    destruct (decide (e = [])) as [He|He];
      [|destruct (decide (a = [])) as [Ha|Ha]].
    + rewrite score_empty by auto. subst e a. rewrite He.
      rewrite levenshtein_lev, lev_nil_l. simpl length. rewrite Nat.max_0_l.
      rewrite ratio_self; [done|].
      destruct Hne as [Hne|Hne]; [done|].
      destruct (normalizeForCompare nfd toLowerCase actual); [done|simpl; lia].
    + rewrite score_empty by auto. subst e a. rewrite Ha.
      rewrite levenshtein_lev, lev_nil_r. simpl length. rewrite Nat.max_0_r.
      rewrite ratio_self; [done|].
      destruct (normalizeForCompare nfd toLowerCase expected); [done|simpl; lia].
    + subst e a. by rewrite score_nonempty.
Qed.

(** C9: the score lies in the closed interval from 0 to 1, because the
    distance of two strings is at most the length of the longer one. *)
Theorem similarityScore_unit_interval (nfd toLowerCase : jsstring → jsstring)
    (expected actual : jsstring) :
  (0 <= similarityScore nfd toLowerCase expected actual)%Q ∧
  (similarityScore nfd toLowerCase expected actual <= 1)%Q ∧
  (∀ a b : jsstring, levenshtein a b ≤ Nat.max (length a) (length b)).
Proof.
  destruct (score_range nfd toLowerCase expected actual) as [H0 H1].
  split; [done|]. split; [done|]. apply levenshtein_le_max.
Qed.

(** C3, as the claim states it, fails: the ASCII string "42" has an
    empty normal form, and its score against itself is 0, not 1. *)
Lemma similarityScore_self_digits :
  Forall (λ c, (c < 128)%N) (js "42") ∧
  (similarityScore Latin.nfd Latin.toLowerCase (js "42") (js "42") == 0)%Q ∧
  ¬ (similarityScore Latin.nfd Latin.toLowerCase (js "42") (js "42") == 1)%Q.
Proof.
  split; [by repeat constructor|]. split; [by vm_compute|].
  by vm_compute.
Qed.

(** C3, amended: the score of a string against itself is 1 when its
    normal form is not empty, and 0 when its normal form is empty. *)
Theorem similarityScore_self (nfd toLowerCase : jsstring → jsstring)
    (a : jsstring) :
  (similarityScore nfd toLowerCase a a ==
     if isEmptyString (normalizeForCompare nfd toLowerCase a) then 0 else 1)%Q.
Proof.
  destruct (isEmptyString _) eqn:He.
  - apply isEmptyString_true in He. by rewrite score_empty by auto.
  - apply isEmptyString_false in He.
    rewrite score_nonempty by done.
    rewrite levenshtein_lev, lev_refl, ratio_zero. done.
Qed.

(** ** Normalisation *)

(** C7: normalisation is idempotent, given what the host's two string
    methods guarantee: both leave plain text unchanged, a decomposed
    string holds no ç or Ç, and lower-casing yields ç only from ç or Ç. *)
Theorem normalizeForCompare_idempotent (nfd toLowerCase : jsstring → jsstring) :
  FixesPlain nfd → FixesPlain toLowerCase →
  DecomposesCedilla nfd → LowersToCedilla toLowerCase →
  ∀ x, normalizeForCompare nfd toLowerCase
         (normalizeForCompare nfd toLowerCase x)
       = normalizeForCompare nfd toLowerCase x.
Proof. intros Hn Hl Hd Hc x. by apply normalize_idem. Qed.

(** The text "Ça  va, Œdipe! 42" normalises to "ca va œdipe", and
    normalising that again changes nothing. *)
Lemma normalizeForCompare_idempotent_witness :
  normalizeForCompare Latin.nfd Latin.toLowerCase
    ([0xC7%N] ++ js "a  va, " ++ [0x152%N] ++ js "dipe! 42")
    = js "ca va " ++ [0x153%N] ++ js "dipe" ∧
  normalizeForCompare Latin.nfd Latin.toLowerCase
    (normalizeForCompare Latin.nfd Latin.toLowerCase
       ([0xC7%N] ++ js "a  va, " ++ [0x152%N] ++ js "dipe! 42"))
    = normalizeForCompare Latin.nfd Latin.toLowerCase
        ([0xC7%N] ++ js "a  va, " ++ [0x152%N] ++ js "dipe! 42").
Proof.
  split; [reflexivity|].
  apply (normalizeForCompare_idempotent Latin.nfd Latin.toLowerCase
           Latin_nfd_plain Latin_toLowerCase_plain
           Latin_nfd_decomposed Latin_toLowerCase_cedilla).
Defined.

(** ** Pronunciation feedback *)

(** C4: with a current card and a speech recogniser, the feedback shown
    depends on the recognised text [actual] (the segments joined by
    spaces and trimmed). When [actual] is not empty the tier follows the
    score [s]: very close from 0.85 upwards, decent from 0.60 up to but
    excluding 0.85, large deviation below 0.60. When [actual] is empty the
    boxes show the fixed texts, whatever the card and the score would be.
    For the sentence "chat" heard as "chats" the distance is 1, the
    longer length 5, the score 4/5 and the tier decent (for a host whose
    string methods leave plain text unchanged). *)
Theorem evaluatePronunciation_tiers (nfd toLowerCase : jsstring → jsstring)
    (st : FrState) (card : FrCard) :
  FixesPlain nfd → FixesPlain toLowerCase →
  fr_currentCard st = Some card →
  fr_speechRecognition st = true →
  let expected := default [] (fr_sentence card) in
  let actual := trim (join [space] (fr_recognizedSegments st)) in
  let s := similarityScore nfd toLowerCase expected actual in
  let out := evaluatePronunciation nfd toLowerCase st in
  (actual ≠ [] →
     ((85 # 100 <= s)%Q →
        fr_feedbackText out = Some FeedbackVeryClose) ∧
     ((6 # 10 <= s)%Q ∧ (s < 85 # 100)%Q →
        fr_feedbackText out = Some FeedbackDecent) ∧
     ((s < 6 # 10)%Q →
        fr_feedbackText out = Some FeedbackLargeDeviation)) ∧
  (actual = [] →
     out = {| fr_currentCard := fr_currentCard st;
              fr_speechRecognition := fr_speechRecognition st;
              fr_recognizedSegments := fr_recognizedSegments st;
              fr_feedbackText := Some FeedbackNoText;
              fr_feedbackHidden := false;
              fr_transcript := TranscriptNoResult;
              fr_transcriptHidden := false |}) ∧
  (fr_sentence card = Some (js "chat") →
   fr_recognizedSegments st = [js "chats"] →
     levenshtein (normalizeForCompare nfd toLowerCase expected)
                 (normalizeForCompare nfd toLowerCase actual) = 1 ∧
     Nat.max (length (normalizeForCompare nfd toLowerCase expected))
             (length (normalizeForCompare nfd toLowerCase actual)) = 5 ∧
     (s == 4 # 5)%Q ∧
     fr_feedbackText out = Some FeedbackDecent).
Proof.
  intros Hnfd Hlow Hcard Hsr expected actual s out.
  assert (out =
    {| fr_currentCard := fr_currentCard st;
       fr_speechRecognition := fr_speechRecognition st;
       fr_recognizedSegments := fr_recognizedSegments st;
       fr_feedbackText :=
         Some (if isEmptyString actual then FeedbackNoText else feedbackFor s);
       fr_feedbackHidden := false;
       fr_transcript :=
         if isEmptyString actual then TranscriptNoResult
         else TranscriptRecognized (escapeHtml actual);
       fr_transcriptHidden := false |}) as Hout.
  { subst out. unfold evaluatePronunciation. by rewrite Hcard, Hsr. }
  split; [|split].
  - intros Hne%isEmptyString_false. rewrite Hout, Hne. simpl.
    split; [|split].
    + intros H85. by rewrite feedbackFor_veryClose.
    + intros [H60 H85]. by rewrite feedbackFor_decent.
    + intros H60. by rewrite feedbackFor_largeDeviation.
  - intros Hemp%isEmptyString_true. by rewrite Hout, Hemp.
  - intros Hsent Hseg.
    assert (expected = js "chat") as He by (subst expected; by rewrite Hsent).
    assert (actual = js "chats") as Ha by (subst actual; by rewrite Hseg).
    assert (normalizeForCompare nfd toLowerCase (js "chat") = js "chat") as Hne.
    { apply normalize_plain; try done. by repeat constructor. }
    assert (normalizeForCompare nfd toLowerCase (js "chats") = js "chats")
      as Hna.
    { apply normalize_plain; try done. by repeat constructor. }
    assert (s = 4 # 5) as Hs.
    { subst s. unfold similarityScore. by rewrite He, Ha, Hne, Hna. }
    rewrite He, Ha, Hne, Hna. split; [done|]. split; [done|].
    split; [by rewrite Hs|].
    rewrite Hout, Hs, Ha. done.
Qed.

(** The card "chat" with the single recognised segment "chats", on the
    Latin host. *)
Lemma evaluatePronunciation_tiers_witness :
  fr_feedbackText
    (evaluatePronunciation Latin.nfd Latin.toLowerCase
       {| fr_currentCard :=
            Some {| fr_sentence := Some (js "chat"); fr_english := None |};
          fr_speechRecognition := true;
          fr_recognizedSegments := [js "chats"];
          fr_feedbackText := None;
          fr_feedbackHidden := true;
          fr_transcript := TranscriptEmpty;
          fr_transcriptHidden := true |})
    = Some FeedbackDecent.
Proof.
  apply (evaluatePronunciation_tiers Latin.nfd Latin.toLowerCase
           {| fr_currentCard :=
                Some {| fr_sentence := Some (js "chat"); fr_english := None |};
              fr_speechRecognition := true;
              fr_recognizedSegments := [js "chats"];
              fr_feedbackText := None;
              fr_feedbackHidden := true;
              fr_transcript := TranscriptEmpty;
              fr_transcriptHidden := true |}
           {| fr_sentence := Some (js "chat"); fr_english := None |}
           Latin_nfd_plain Latin_toLowerCase_plain eq_refl eq_refl);
    reflexivity.
Defined.

(** ** Token rendering *)

(** C5: [renderTokens] puts the tokens' spans one after another, each
    but the first preceded by its separator. The separator is empty
    before a token whose text is one closing punctuation character and
    after a token whose text is one opening bracket or quote, and is a
    single space otherwise. A token with status "match" is wrapped in a
    span of class diff-match, one with status "missing" in a span of
    class diff-miss. The tokens le (match) and chat (missing) render as
    the two spans separated by one space. *)
Theorem renderTokens_rule (ts : list Token) (prev cur : Token) :
  renderTokens (Some ts) = joinSpans ts ∧
  (isSingle closingPunctuation (text cur) → separator prev cur = []) ∧
  (isSingle openingMarks (text prev) → separator prev cur = []) ∧
  (¬ isSingle closingPunctuation (text cur) →
   ¬ isSingle openingMarks (text prev) →
   separator prev cur = [space]) ∧
  (status cur = js "match" → tokenHtml cur = spanOf (js "diff-match") cur) ∧
  (status cur = js "missing" → tokenHtml cur = spanOf (js "diff-miss") cur) ∧
  renderTokens (Some [ {| text := js "le"; status := js "match" |};
                       {| text := js "chat"; status := js "missing" |} ])
  = js "<span class=" ++ [dquote] ++ js "diff-match" ++ [dquote]
      ++ js ">le</span> <span class=" ++ [dquote] ++ js "diff-miss"
      ++ [dquote] ++ js ">chat</span>".
Proof.
  split; [apply renderTokens_joinSpans|].
  unfold separator, tokenHtml, tokenClass, spanOf.
  repeat split.
  - intros Hc. by rewrite decide_True.
  - intros Ho. case_decide; [done|]. by rewrite decide_True.
  - intros Hc Ho. by rewrite !decide_False.
  - intros ->. by rewrite decide_True.
  - intros ->. rewrite decide_False by done. by rewrite decide_True.
Qed.

(** C10, as the claim states it, fails: [renderTokens] does not return
    on every list. A token whose text is the number 5 makes [escapeHtml]
    call [replace] on a number, and a [null] entry after a well-formed
    token makes the callback read a property of [null]; both end in a
    TypeError. *)
Lemma renderTokens_throws :
  Untyped.renderTokens
    (Some [Untyped.VObject (Untyped.VNumber 5)
             (Untyped.VString (js "match"))])
  = Untyped.TypeError ∧
  Untyped.renderTokens
    (Some [Untyped.VObject (Untyped.VString (js "le"))
             (Untyped.VString (js "match"));
           Untyped.VNull])
  = Untyped.TypeError.
Proof. split; reflexivity. Qed.

(** C10, amended. [renderTokens] returns a string exactly on the lists
    whose entries are all renderable: not [null], and with a text that
    is a string or is falsy (missing, [null], empty, 0, false). On them
    it returns what the entries read as tokens render to; so it returns
    on every list of tokens of the data model, whatever their status. A
    missing list and an empty list render to the empty string, and a
    token whose status is not the string "match" and not the string
    "missing", be it another string, not a string or missing, is wrapped
    in a span of class diff-extra. *)
Theorem renderTokens_returns_on_tokens (entries : list Untyped.Value)
    (ts : list Token) :
  Untyped.renderTokens None = Untyped.Returned [] ∧
  Untyped.renderTokens (Some []) = Untyped.Returned [] ∧
  Untyped.renderTokens (Some entries)
    = (if forallb Untyped.renderable entries
       then Untyped.Returned
              (renderTokens (Some (Untyped.toToken <$> entries)))
       else Untyped.TypeError) ∧
  Untyped.renderTokens (Some (Untyped.ofToken <$> ts))
    = Untyped.Returned (renderTokens (Some ts)) ∧
  renderTokens (Some ts) = joinSpans ts ∧
  (∀ token : Untyped.Value,
     Untyped.statusOf token ≠ Untyped.VString (js "match") →
     Untyped.statusOf token ≠ Untyped.VString (js "missing") →
     Untyped.tokenClass token = js "diff-extra" ∧
     (Untyped.renderable token = true →
      Untyped.renderTokens (Some [token])
      = Untyped.Returned
          (spanOf (js "diff-extra") (Untyped.toToken token)))).
Proof.
  split; [done|]. split; [done|].
  split; [apply untyped_renderTokens|].
  split.
  { rewrite untyped_renderTokens.
    destruct (untyped_ofToken ts) as [-> ->]. done. }
  split; [apply renderTokens_joinSpans|].
  intros token Hm Hs.
  assert (Untyped.tokenClass token = js "diff-extra") as Hcls.
  { unfold Untyped.tokenClass, Untyped.strictEqual.
    destruct (Untyped.statusOf token) as [| |b|n|s| |t u]; try done.
    rewrite !bool_decide_eq_false_2; [done|congruence|congruence]. }
  split; [done|]. intros Hr.
  rewrite untyped_renderTokens. cbn [forallb]. rewrite Hr. cbn [andb].
  f_equal. rewrite renderTokens_joinSpans.
  cbn [fmap list_fmap joinSpans spansAfter]. rewrite app_nil_r.
  unfold tokenHtml, spanOf. by rewrite <-untyped_tokenClass, Hcls.
Qed.

(** ** Reveal and rating *)



(** * Further properties of the code *)

(** ** The distance as a metric *)

Section LevenshteinMetric.
Context {A : Type} `{EqDecision A}.
Implicit Types (a b c p s : list A) (x y : A).

Lemma script_zero a b : script a b 0 → a = b.
Proof.
  intros Hs. remember 0 as n eqn:Hn.
  induction Hs; try done. f_equal. auto.
Qed.

Lemma script_same a : script a a 0.
Proof. induction a; by constructor. Qed.

(** Two scripts in a row are never better than the best direct one. *)
Lemma script_compose a b c n m :
  script a b n → script b c m → ∃ k, k ≤ n + m ∧ script a c k.
Proof.
  remember (length a + length b + length c) as size eqn:Hsize.
  revert a b c n m Hsize.
  induction size as [size IH] using lt_wf_ind.
  intros a b c n m Hsize Hab Hbc.
  assert (∀ a' b' c' n' m',
            length a' + length b' + length c' < size →
            script a' b' n' → script b' c' m' →
            ∃ k, k ≤ n' + m' ∧ script a' c' k) as rec.
  { intros. eapply IH; [|done|done|done]. done. }
  clear IH.
  destruct Hab as [|x a b n Hab|x y a b n Hab|x a b n Hab|y a b n Hab].
  - exists m. split; [lia|done].
  - inversion Hbc as [|x' b' c' m' Hbc'|x' z b' c' m' Hbc'
                      |x' b' c' m' Hbc'|z b' c' m' Hbc']; simplify_eq.
    + destruct (rec a b c' n m) as (k & Hk & Hs); [simpl in *; lia|done..|].
      exists k. split; [lia|]. by constructor.
    + destruct (rec a b c' n m') as (k & Hk & Hs); [simpl in *; lia|done..|].
      exists (S k). split; [lia|]. by constructor.
    + destruct (rec a b c n m') as (k & Hk & Hs); [simpl in *; lia|done..|].
      exists (S k). split; [lia|]. by constructor.
    + destruct (rec (x :: a) (x :: b) c' n m') as (k & Hk & Hs);
        [simpl in *; lia|by constructor|done|].
      exists (S k). split; [lia|]. by constructor.
  - inversion Hbc as [|x' b' c' m' Hbc'|x' z b' c' m' Hbc'
                      |x' b' c' m' Hbc'|z b' c' m' Hbc']; simplify_eq.
    + destruct (rec a b c' n m) as (k & Hk & Hs); [simpl in *; lia|done..|].
      exists (S k). split; [lia|]. by constructor.
    + destruct (rec a b c' n m') as (k & Hk & Hs); [simpl in *; lia|done..|].
      exists (S k). split; [lia|]. by constructor.
    + destruct (rec a b c n m') as (k & Hk & Hs); [simpl in *; lia|done..|].
      exists (S k). split; [lia|]. by constructor.
    + destruct (rec (x :: a) (y :: b) c' (S n) m') as (k & Hk & Hs);
        [simpl in *; lia|by constructor|done|].
      exists (S k). split; [lia|]. by constructor.
  - destruct (rec a b c n m) as (k & Hk & Hs); [simpl in *; lia|done..|].
    exists (S k). split; [lia|]. by constructor.
  - inversion Hbc as [|x' b' c' m' Hbc'|x' z b' c' m' Hbc'
                      |x' b' c' m' Hbc'|z b' c' m' Hbc']; simplify_eq.
    + destruct (rec a b c' n m) as (k & Hk & Hs); [simpl in *; lia|done..|].
      exists (S k). split; [lia|]. by constructor.
    + destruct (rec a b c' n m') as (k & Hk & Hs); [simpl in *; lia|done..|].
      exists (S k). split; [lia|]. by constructor.
    + destruct (rec a b c n m') as (k & Hk & Hs); [simpl in *; lia|done..|].
      exists k. split; [lia|]. done.
    + destruct (rec a (y :: b) c' (S n) m') as (k & Hk & Hs);
        [simpl in *; lia|by constructor|done|].
      exists (S k). split; [lia|]. by constructor.
Qed.

Lemma lev_zero_iff a b : lev a b = 0 ↔ a = b.
Proof.
  split.
  - intros H0. apply script_zero. rewrite <-H0. apply lev_script.
  - intros ->. apply lev_refl.
Qed.

Lemma lev_triangle a b c : lev a c ≤ lev a b + lev b c.
Proof.
  destruct (script_compose a b c _ _ (lev_script a b) (lev_script b c))
    as (k & Hk & Hs).
  apply lev_le_script in Hs. lia.
Qed.

Lemma lev_common_prefix p a b : lev (p ++ a) (p ++ b) = lev a b.
Proof.
  induction p as [|x p IH]; [done|]. simpl app.
  by rewrite lev_cons, decide_True.
Qed.

Lemma lev_common_suffix s a b : lev (a ++ s) (b ++ s) = lev a b.
Proof.
  rewrite <-lev_reverse, !reverse_app, lev_common_prefix. apply lev_reverse.
Qed.

End LevenshteinMetric.

(** ** Escaping *)

(** The characters [escapeHtml] rewrites: & < > and the two quotes. *)
Definition isHtmlSpecial (c : N) : bool :=
  ((c =? 38) || (c =? 60) || (c =? 62) || (c =? 34) || (c =? 39))%N.

(** What the five passes together make of one code unit. *)
Definition escapeChar (c : N) : jsstring :=
  if (c =? 38)%N then js "&amp;"
  else if (c =? 60)%N then js "&lt;"
  else if (c =? 62)%N then js "&gt;"
  else if (c =? 34)%N then [38; 113; 117; 111; 116; 59]%N
  else if (c =? 39)%N then js "&#39;"
  else [c].

Lemma replaceAll_app c r s t :
  replaceAll c r (s ++ t) = replaceAll c r s ++ replaceAll c r t.
Proof. unfold replaceAll. apply flat_map_app. Qed.

Lemma escapeHtml_app s t : escapeHtml (s ++ t) = escapeHtml s ++ escapeHtml t.
Proof. unfold escapeHtml. by rewrite !replaceAll_app. Qed.

Lemma escapeHtml_single c : escapeHtml [c] = escapeChar c.
Proof.
  unfold escapeChar.
  destruct (N.eqb_spec c 38) as [->|H38]; [reflexivity|].
  destruct (N.eqb_spec c 60) as [->|H60]; [reflexivity|].
  destruct (N.eqb_spec c 62) as [->|H62]; [reflexivity|].
  destruct (N.eqb_spec c 34) as [->|H34]; [reflexivity|].
  destruct (N.eqb_spec c 39) as [->|H39]; [reflexivity|].
  unfold escapeHtml, replaceAll. simpl.
  apply N.eqb_neq in H38, H60, H62, H34, H39.
  rewrite H38. simpl. rewrite H60. simpl. rewrite H62. simpl.
  rewrite H34. simpl. by rewrite H39.
Qed.

Lemma escapeHtml_cons c s : escapeHtml (c :: s) = escapeChar c ++ escapeHtml s.
Proof. by rewrite <-escapeHtml_single, <-escapeHtml_app. Qed.

Lemma escapeChar_plain c : isHtmlSpecial c = false → escapeChar c = [c].
Proof.
  unfold isHtmlSpecial, escapeChar. intros Hc.
  repeat (apply orb_false_iff in Hc as [Hc ?]).
  by repeat match goal with H : (_ =? _)%N = false |- _ => rewrite H; clear H end.
Qed.

Lemma escapeChar_special c :
  isHtmlSpecial c = true →
  ∃ rest, escapeChar c = 38%N :: rest ∧ rest ≠ [] ∧
          Forall (λ d, isHtmlSpecial d = false) rest.
Proof.
  unfold isHtmlSpecial, escapeChar. intros Hc.
  destruct (N.eqb_spec c 38); [eexists; split; [done|]; split; [done|];
    by repeat constructor|].
  destruct (N.eqb_spec c 60); [eexists; split; [done|]; split; [done|];
    by repeat constructor|].
  destruct (N.eqb_spec c 62); [eexists; split; [done|]; split; [done|];
    by repeat constructor|].
  destruct (N.eqb_spec c 34); [eexists; split; [done|]; split; [done|];
    by repeat constructor|].
  destruct (N.eqb_spec c 39); [eexists; split; [done|]; split; [done|];
    by repeat constructor|].
  done.
Qed.

(** The output holds & only, of the five special characters. *)
Lemma escapeHtml_output s :
  Forall (λ c, isHtmlSpecial c = true → c = 38%N) (escapeHtml s).
Proof.
  induction s as [|c s IH]; [constructor|].
  rewrite escapeHtml_cons. apply Forall_app. split; [|done].
  destruct (isHtmlSpecial c) eqn:Hc.
  - destruct (escapeChar_special c Hc) as (rest & -> & _ & Hrest).
    constructor; [done|].
    eapply Forall_impl; [done|]. simpl. intros d Hd Hd'. congruence.
  - rewrite escapeChar_plain by done. constructor; [|constructor]. congruence.
Qed.

Lemma escapeChar_inj c d s t :
  escapeChar c ++ s = escapeChar d ++ t → c = d ∧ s = t.
Proof.
  unfold escapeChar.
  destruct (N.eqb_spec c 38) as [->|?];
    [|destruct (N.eqb_spec c 60) as [->|?];
      [|destruct (N.eqb_spec c 62) as [->|?];
        [|destruct (N.eqb_spec c 34) as [->|?];
          [|destruct (N.eqb_spec c 39) as [->|?]]]]];
  (destruct (N.eqb_spec d 38) as [->|?];
    [|destruct (N.eqb_spec d 60) as [->|?];
      [|destruct (N.eqb_spec d 62) as [->|?];
        [|destruct (N.eqb_spec d 34) as [->|?];
          [|destruct (N.eqb_spec d 39) as [->|?]]]]]);
  cbn; intros Heq; simplify_eq; done.
Qed.

Lemma escapeChar_nonempty c : escapeChar c ≠ [].
Proof.
  unfold escapeChar. repeat case_match; done.
Qed.

Lemma escapeHtml_inj s t : escapeHtml s = escapeHtml t → s = t.
Proof.
  revert t. induction s as [|c s IH]; intros [|d t]; [done|..].
  - rewrite escapeHtml_cons. intros Heq. symmetry in Heq.
    apply app_eq_nil in Heq as [Heq _]. by apply escapeChar_nonempty in Heq.
  - rewrite escapeHtml_cons. intros Heq.
    apply app_eq_nil in Heq as [Heq _]. by apply escapeChar_nonempty in Heq.
  - rewrite !escapeHtml_cons. intros [-> Heq]%escapeChar_inj.
    f_equal. by apply IH.
Qed.

Lemma escapeHtml_plain s :
  Forall (λ c, isHtmlSpecial c = false) s → escapeHtml s = s.
Proof.
  induction 1 as [|c s Hc _ IH]; [done|].
  by rewrite escapeHtml_cons, escapeChar_plain, IH.
Qed.

Lemma escapeHtml_length s : length s ≤ length (escapeHtml s).
Proof.
  induction s as [|c s IH]; [done|].
  rewrite escapeHtml_cons, length_app. simpl.
  pose proof (escapeChar_nonempty c). destruct (escapeChar c); [done|simpl; lia].
Qed.

Lemma escapeHtml_fixed s :
  escapeHtml s = s → Forall (λ c, isHtmlSpecial c = false) s.
Proof.
  induction s as [|c s IH]; [constructor|].
  rewrite escapeHtml_cons. intros Heq.
  destruct (isHtmlSpecial c) eqn:Hc.
  - exfalso. destruct (escapeChar_special c Hc) as (rest & Hr & Hne & _).
    rewrite Hr in Heq. simpl in Heq. injection Heq as _ Heq.
    pose proof (escapeHtml_length s) as Hlen.
    apply (f_equal length) in Heq. rewrite length_app in Heq.
    destruct rest; [done|simpl in Heq; lia].
  - rewrite escapeChar_plain in Heq by done. injection Heq as Heq.
    constructor; [done|]. by apply IH.
Qed.

(** ** The shape of a normalised string *)

Lemma keptChar_not_space c : keptChar c = true → c ≠ space.
Proof. intros Hk ->. done. Qed.

Lemma trimEnd_last s :
  match last (trimEnd s) with
  | Some c => isWhiteSpace c = false
  | None => True
  end.
Proof.
  induction s as [|c s IH]; simpl; [done|].
  destruct (trimEnd s) as [|d r] eqn:Hr.
  - by destruct (isWhiteSpace c) eqn:Hc.
  - done.
Qed.

Lemma trim_head s :
  match head (trim s) with
  | Some c => isWhiteSpace c = false
  | None => True
  end.
Proof.
  unfold trim. pose proof (trimStart_head s) as Hh.
  destruct (trimStart s) as [|c t]; [done|].
  destruct (trimEnd_head c t Hh) as [r ->]. done.
Qed.

Lemma trimStart_keeps c s : c ∈ s → isWhiteSpace c = false → c ∈ trimStart s.
Proof.
  intros Hin Hc. induction s as [|d s IH]; [done|]. simpl.
  destruct (isWhiteSpace d) eqn:Hd; [|done].
  apply elem_of_cons in Hin as [->|Hin]; [congruence|by apply IH].
Qed.

Lemma trimEnd_keeps c s : c ∈ s → isWhiteSpace c = false → c ∈ trimEnd s.
Proof.
  intros Hin Hc. induction s as [|d s IH]; [done|]. simpl.
  apply elem_of_cons in Hin as [->|Hin].
  - destruct (trimEnd s); [rewrite Hc|]; by left.
  - specialize (IH Hin). destruct (trimEnd s) as [|e r]; [by apply elem_of_nil in IH|].
    by right.
Qed.

Lemma collapseFrom_keeps b c s :
  c ∈ s → keptChar c = true → c ∈ collapseFrom b s.
Proof.
  intros Hin Hc. revert b. induction s as [|d s IH]; intros b; [done|]. simpl.
  apply elem_of_cons in Hin as [->|Hin].
  - rewrite Hc. by left.
  - destruct (keptChar d); [right; by apply IH|].
    destruct b; [by apply IH|right; by apply IH].
Qed.

Lemma collapseFrom_no_kept b s :
  Forall (λ c, keptChar c = false) s →
  collapseFrom b s = [] ∨ collapseFrom b s = [space].
Proof.
  intros Hall. revert b. induction Hall as [|c s Hc _ IH]; intros b; [by left|].
  simpl. rewrite Hc. destruct b; [apply IH|].
  destruct (IH true) as [-> | Hs]; [by right|].
  exfalso. clear IH. destruct s as [|d s]; [done|].
  simpl in Hs. destruct (keptChar d) eqn:Hd.
  - injection Hs as -> _. done.
  - pose proof (collapseFrom_wellSpaced true s) as Hw.
    assert (length (collapseFrom true s) ≤ length s) as Hlen.
    { clear. generalize true. induction s as [|e s IH]; intros b; simpl; [done|].
      destruct (keptChar e); simpl; [specialize (IH false); lia|].
      destruct b; simpl; [specialize (IH true); lia|specialize (IH true); lia]. }
    rewrite Hs in Hw. done.
Qed.

Lemma wellSpaced_no_double b s i :
  wellSpacedFrom b s = true →
  s !! i = Some space → s !! S i ≠ Some space.
Proof.
  revert b i. induction s as [|c s IH]; intros b i Hw Hi; [done|].
  simpl in Hw. destruct i as [|i].
  - simpl in Hi. injection Hi as ->. simpl in Hw.
    apply andb_true_iff in Hw as [_ Hw].
    destruct s as [|d s]; [done|]. simpl. intros [= ->]. simpl in Hw. done.
  - simpl in Hi. change ((c :: s) !! S (S i)) with (s !! S i).
    destruct (keptChar c).
    + by eapply IH.
    + apply andb_true_iff in Hw as [_ Hw]. by eapply IH.
Qed.

Section NormaliseShape.
Variables nfd toLowerCase : jsstring → jsstring.

Local Abbreviation normalize := (normalizeForCompare nfd toLowerCase).

Lemma normalize_shape x :
  Forall (λ c, keptChar c = true ∨ c = space) (normalize x) ∧
  head (normalize x) ≠ Some space ∧
  last (normalize x) ≠ Some space ∧
  (∀ i, normalize x !! i = Some space → normalize x !! S i ≠ Some space).
Proof.
  pose proof (normalize_wellSpaced nfd toLowerCase x) as Hw.
  split; [by eapply wellSpaced_chars|]. split; [|split].
  - unfold normalizeForCompare.
    pose proof (trim_head (collapseOthers (toLowerCase
                  (stripCombiningMarks (nfd x))))) as Hh.
    destruct (head _) as [c|]; [|done]. intros [= ->]. done.
  - unfold normalizeForCompare, trim.
    pose proof (trimEnd_last (trimStart (collapseOthers (toLowerCase
                  (stripCombiningMarks (nfd x)))))) as Hl.
    destruct (last _) as [c|]; [|done]. intros [= ->]. done.
  - intros i. by eapply wellSpaced_no_double.
Qed.

Lemma normalize_empty_iff x :
  normalize x = [] ↔
  Forall (λ c, keptChar c = false) (toLowerCase (stripCombiningMarks (nfd x))).
Proof.
  unfold normalizeForCompare, collapseOthers.
  set (t := toLowerCase (stripCombiningMarks (nfd x))).
  split.
  - intros Hemp. apply Forall_forall. intros c Hc.
    destruct (keptChar c) eqn:Hk; [exfalso|done].
    assert (c ∈ trim (collapseFrom false t)) as Hin.
    { pose proof (keptChar_not_white c Hk).
      unfold trim. apply trimEnd_keeps; [|done].
      apply trimStart_keeps; [|done]. by apply collapseFrom_keeps. }
    rewrite Hemp in Hin. by apply elem_of_nil in Hin.
  - intros Hall. by destruct (collapseFrom_no_kept false t Hall) as [-> | ->].
Qed.

End NormaliseShape.

(** ** More on the score *)

Lemma ratio_positive (d m : nat) :
  0 < d → 0 < m → (0 < inject_Z (Z.of_nat d) / inject_Z (Z.of_nat m))%Q.
Proof.
  intros Hd Hm. apply Qlt_shift_div_l.
  - change 0%Q with (inject_Z 0). rewrite <-Zlt_Qlt. lia.
  - rewrite Qmult_0_l. change 0%Q with (inject_Z 0). rewrite <-Zlt_Qlt. lia.
Qed.

Section ScoreFacts.
Variables nfd toLowerCase : jsstring → jsstring.

Local Abbreviation normalize := (normalizeForCompare nfd toLowerCase).
Local Abbreviation score := (similarityScore nfd toLowerCase).

Lemma score_sym expected actual : score expected actual = score actual expected.
Proof.
  unfold similarityScore.
  rewrite (orb_comm (isEmptyString (normalize expected))).
  rewrite (Nat.max_comm (length (normalize expected))).
  by rewrite !levenshtein_lev, (lev_sym (normalize expected)).
Qed.

Lemma score_one_iff expected actual :
  (score expected actual == 1)%Q ↔
  normalize expected = normalize actual ∧ normalize expected ≠ [].
Proof.
  split.
  - intros Hone.
    destruct (decide (normalize expected = [])) as [He|He].
    { rewrite score_empty in Hone by auto. done. }
    destruct (decide (normalize actual = [])) as [Ha|Ha].
    { rewrite score_empty in Hone by auto. done. }
    split; [|done].
    rewrite score_nonempty in Hone by done.
    rewrite levenshtein_lev in Hone.
    apply lev_zero_iff.
    destruct (lev (normalize expected) (normalize actual)) as [|d] eqn:Hd; [done|].
    exfalso.
    pose proof (ratio_positive (S d)
      (Nat.max (length (normalize expected)) (length (normalize actual)))
      ltac:(lia)) as Hpos.
    destruct (normalize expected); [done|]. simpl length in *.
    specialize (Hpos ltac:(lia)). lra.
  - intros [Heq Hne].
    rewrite score_nonempty by (rewrite <-?Heq; done).
    rewrite <-Heq, levenshtein_lev, lev_refl, ratio_zero. done.
Qed.

(** *** Evaluation of an attempt *)

Lemma evaluatePronunciation_scored st card :
  fr_currentCard st = Some card →
  fr_speechRecognition st = true →
  trim (join [space] (fr_recognizedSegments st)) ≠ [] →
  fr_feedbackText (evaluatePronunciation nfd toLowerCase st)
  = Some (feedbackFor
            (score (default [] (fr_sentence card))
               (trim (join [space] (fr_recognizedSegments st))))).
Proof.
  intros Hcard Hsr Hne%isEmptyString_false.
  unfold evaluatePronunciation. rewrite Hcard, Hsr. simpl. by rewrite Hne.
Qed.

Lemma evaluatePronunciation_again st :
  evaluatePronunciation nfd toLowerCase (evaluatePronunciation nfd toLowerCase st)
  = evaluatePronunciation nfd toLowerCase st.
Proof.
  unfold evaluatePronunciation at 2.
  destruct (fr_currentCard st) as [card|] eqn:Hcard.
  - destruct (fr_speechRecognition st) eqn:Hsr; simpl;
      unfold evaluatePronunciation; simpl; by rewrite Hcard, Hsr.
  - unfold evaluatePronunciation. by rewrite Hcard.
Qed.

End ScoreFacts.

(** ** More on token rendering *)

(** How often the code unit [c] occurs in [s]. *)
Definition occurrences (c : N) (s : jsstring) : nat :=
  length (filter (λ d, d = c) s).

Lemma occurrences_app c s t :
  occurrences c (s ++ t) = occurrences c s + occurrences c t.
Proof. unfold occurrences. by rewrite filter_app, length_app. Qed.

Lemma occurrences_none c s : Forall (λ d, d ≠ c) s → occurrences c s = 0.
Proof.
  unfold occurrences. induction 1 as [|d s Hd _ IH]; [done|].
  by rewrite filter_cons_False.
Qed.

Lemma occurrences_escapeHtml c s :
  isHtmlSpecial c = true → c ≠ 38%N → occurrences c (escapeHtml s) = 0.
Proof.
  intros Hc Hne. apply occurrences_none.
  eapply Forall_impl; [apply escapeHtml_output|].
  simpl. intros d Hd ->. auto.
Qed.

Lemma tokenClass_cases t :
  tokenClass t = js "diff-match" ∨ tokenClass t = js "diff-miss" ∨
  tokenClass t = js "diff-extra".
Proof. unfold tokenClass. repeat case_decide; auto. Qed.

Lemma tokenHtml_markup t :
  occurrences 60 (tokenHtml t) = 2 ∧ occurrences 62 (tokenHtml t) = 2 ∧
  occurrences 34 (tokenHtml t) = 2.
Proof.
  unfold tokenHtml. rewrite !occurrences_app.
  rewrite !occurrences_escapeHtml by done.
  destruct (tokenClass_cases t) as [-> | [-> | ->]]; by vm_compute.
Qed.

Lemma separator_cases p t : separator p t = [] ∨ separator p t = [space].
Proof. unfold separator. repeat case_decide; auto. Qed.

Lemma spansAfter_markup p ts :
  occurrences 60 (spansAfter p ts) = 2 * length ts ∧
  occurrences 62 (spansAfter p ts) = 2 * length ts ∧
  occurrences 34 (spansAfter p ts) = 2 * length ts.
Proof.
  revert p. induction ts as [|t ts IH]; intros p; [done|].
  change (spansAfter p (t :: ts))
    with (separator p t ++ tokenHtml t ++ spansAfter t ts).
  rewrite !occurrences_app.
  destruct (IH t) as (-> & -> & ->).
  destruct (tokenHtml_markup t) as (-> & -> & ->).
  destruct (separator_cases p t) as [-> | ->]; simpl length;
    repeat split; vm_compute occurrences; lia.
Qed.

Lemma tokenHtml_nonempty t : tokenHtml t ≠ [].
Proof. done. Qed.

Lemma joinSpans_app l1 t1 t2 l2 :
  joinSpans ((l1 ++ [t1]) ++ t2 :: l2)
  = joinSpans (l1 ++ [t1]) ++ separator t1 t2 ++ joinSpans (t2 :: l2).
Proof.
  assert (∀ p l, spansAfter p ((l ++ [t1]) ++ t2 :: l2)
                 = spansAfter p (l ++ [t1]) ++ separator t1 t2
                   ++ joinSpans (t2 :: l2)) as Hafter.
  { intros p l. revert p. induction l as [|t l IH]; intros p.
    - cbn [app spansAfter joinSpans].
      by rewrite ?app_nil_r, <-?app_assoc.
    - cbn [app spansAfter]. by rewrite IH, <-?app_assoc. }
  destruct l1 as [|t l1].
  - cbn [app spansAfter joinSpans]. by rewrite ?app_nil_r, <-?app_assoc.
  - cbn [app joinSpans]. by rewrite Hafter, <-?app_assoc.
Qed.

(** ** The listening page: loading, rating, revealing *)

(** The success of a response to the request for the next card. *)
Definition loadedCard (resp : Listening.NextResponse) : option Listening.Card :=
  match resp with
  | Listening.NextOk payload => Some payload
  | _ => None
  end.

(** The error shown after a failed submission. *)
Definition submitError (resp : Listening.AnswerResponse)
    : option Listening.ErrorMessage :=
  match resp with
  | Listening.AnswerOk => None
  | Listening.AnswerRejected code error =>
      Some (match Listening.truthy error with
            | Some msg => Listening.ErrorText msg
            | None => Listening.ServerReturned code
            end)
  | Listening.AnswerThrows msg => Some (Listening.ErrorText msg)
  end.

Section ListeningMore.
Import Listening.

Lemma loadCard_result resp st :
  (loadCard resp st).2 = [ReqNext] ∧
  currentCard (loadCard resp st).1 = loadedCard resp ∧
  revealDisabled (loadCard resp st).1
    = match loadedCard resp with Some _ => false | None => true end ∧
  nextDisabled (loadCard resp st).1 = false ∧
  answerBoxHidden (loadCard resp st).1 = true ∧
  answerBoxHtml (loadCard resp st).1 = AnswerBlank ∧
  listenInputValue (loadCard resp st).1 = [] ∧
  wordInputValue (loadCard resp st).1 = [].
Proof.
  unfold loadCard. destruct resp as [p|code|msg]; simpl.
  - unfold renderCard.
    destruct (truthy (d_prompt (data p))), (truthy (questionHtml p)),
      (cardType p), (truthy (d_audioUrl (data p))); done.
  - by destruct (code =? 404)%Z.
  - done.
Qed.

Lemma loadCard_independent resp st1 st2 :
  set_writingOriginalContent [] (set_audioSrc None (loadCard resp st1).1)
  = set_writingOriginalContent [] (set_audioSrc None (loadCard resp st2).1).
Proof.
  unfold loadCard. destruct resp as [p|code|msg]; simpl.
  - unfold renderCard.
    destruct (truthy (d_prompt (data p))), (truthy (questionHtml p)),
      (cardType p), (truthy (d_audioUrl (data p))); reflexivity.
  - by destruct (code =? 404)%Z.
  - done.
Qed.

Lemma loadCard_inputs p st :
  listenInputWrapperHidden (loadCard (NextOk p) st).1
    = match cardType p with TListening => false | _ => true end ∧
  wordInputWrapperHidden (loadCard (NextOk p) st).1
    = match cardType p with TWord => false | _ => true end ∧
  writingOriginalHidden (loadCard (NextOk p) st).1
    = match cardType p with TWriting => false | _ => true end.
Proof.
  unfold loadCard, renderCard. simpl.
  destruct (truthy (d_prompt (data p))), (truthy (questionHtml p)),
    (cardType p), (truthy (d_audioUrl (data p))); done.
Qed.

Lemma setDisabled_twice v w (l : list EaseButton) :
  setDisabled v <$> (setDisabled w <$> l) = setDisabled v <$> l.
Proof. rewrite <-list_fmap_compose. by apply list_fmap_ext. Qed.

Lemma submitAnswer_failed r resp next st e :
  submitError resp = Some e →
  submitAnswer r resp next st =
    match currentCard st with
    | None => (st, [])
    | Some card =>
        (st |> set_statusText (StatusSubmitFailed e)
            |> set_easeButtons (setDisabled false <$> easeButtons st)
            |> set_revealDisabled false
            |> set_nextDisabled false,
         [ReqAnswer (cardId card) r])
    end.
Proof.
  intros He. unfold submitAnswer, submitAnswer_begin.
  destruct (currentCard st) as [card|] eqn:Hc; [|done].
  destruct resp as [|code err|msg]; [done|..]; simpl in He;
    injection He as <-; unfold submitAnswer_resume, submitFailed; simpl;
    by rewrite setDisabled_twice.
Qed.

Lemma revealClick_result diff st card :
  revealDisabled st = false →
  currentCard st = Some card →
  answerShown (revealClick diff st).1 = true ∧
  revealDisabled (revealClick diff st).1 = true ∧
  currentCard (revealClick diff st).1 = Some card ∧
  match buttons card with
  | Some btns =>
      easeButtonsHidden (revealClick diff st).1 = false ∧
      easeButtons (revealClick diff st).1
        = (λ b, {| ease := b; disabled := false |}) <$> btns
  | None =>
      easeButtonsHidden (revealClick diff st).1 = easeButtonsHidden st ∧
      easeButtons (revealClick diff st).1 = easeButtons st
  end ∧
  (answerShown st = false → answerBoxHidden (revealClick diff st).1 = false).
Proof.
  intros Hr Hc. unfold revealClick, showAnswer, showAnswer_begin.
  rewrite Hr. simpl. rewrite Hc.
  destruct (answerShown st) eqn:Hs.
  - simpl. rewrite Hc. destruct (buttons card); done.
  - unfold showAnswer_resume. simpl. rewrite Hc.
    destruct (cardType card), diff; simpl; rewrite Hc;
      destruct (buttons card); done.
Qed.

End ListeningMore.

(** ** Recording and recognition *)

(** The transcript a result adds to the segments, if any. *)
Definition finalTranscript (r : Recording.RecognitionResult) : option jsstring :=
  if Recording.isFinal r then trim <$> Recording.alternative r else None.

Section RecordingFacts.
Import Recording.

Lemma set_recognizedSegments_same st :
  set_recognizedSegments (recognizedSegments st) st = st.
Proof. by destruct st. Qed.

Lemma stopRecognition_result st :
  (stopRecognition st).1 = set_recognitionShouldRestart false st ∧
  (stopRecognition st).2
    = if recognition st && recognitionActive st then [RecognitionStop] else [].
Proof.
  unfold stopRecognition. simpl.
  by destruct (recognition st && recognitionActive st).
Qed.

Lemma stopActiveRecording_state st :
  (stopActiveRecording st).1 =
    st |> set_mediaRecorder
            (if isRecording st then Some RecorderInactive else mediaRecorder st)
       |> set_mediaStream None
       |> set_recognitionShouldRestart false
       |> set_recordBtnLabel LabelStart
       |> set_recordBtnRecording false
       |> set_recordBtnDisabled false
       |> set_recordingStatusRecording false
       |> set_recordingStatusText
            (if answerShown st then recordingStatusText st else StatusEnded).
Proof.
  unfold stopActiveRecording, stopRecognition, isRecording.
  destruct st as [cc sh sr md mr ms ch pu rc rr ra sg bl br bd rt rs ph ps].
  destruct mr as [[|]|], ms, rc, ra, sh; vm_compute; reflexivity.
Qed.

Lemma stopActiveRecording_calls st :
  (stopActiveRecording st).2 =
    (if isRecording st then [RecorderStop] else [])
    ++ (TrackStop <$> default [] (mediaStream st))
    ++ (if recognition st && recognitionActive st then [RecognitionStop] else []).
Proof.
  unfold stopActiveRecording, stopRecognition, isRecording.
  destruct st as [cc sh sr md mr ms ch pu rc rr ra sg bl br bd rt rs ph ps].
  destruct mr as [[|]|], ms, rc, ra, sh; vm_compute; reflexivity.
Qed.

Lemma stopActiveRecording_twice st :
  (stopActiveRecording (stopActiveRecording st).1).1
  = (stopActiveRecording st).1.
Proof.
  rewrite (stopActiveRecording_state (stopActiveRecording st).1).
  rewrite !stopActiveRecording_state. unfold isRecording.
  destruct st as [cc sh sr md mr ms ch pu rc rr ra sg bl br bd rt rs ph ps].
  destruct mr as [[|]|], sh; vm_compute; reflexivity.
Qed.

Lemma onresult_loop ev pre suf st :
  results ev = pre ++ suf →
  foldl (onresultStep ev) st (seq (length pre) (length suf))
  = set_recognizedSegments (recognizedSegments st ++ omap finalTranscript suf) st.
Proof.
  revert pre st. induction suf as [|r suf IH]; intros pre st Hres.
  - simpl. by rewrite app_nil_r, set_recognizedSegments_same.
  - simpl seq. simpl foldl.
    replace (S (length pre)) with (length (pre ++ [r]))
      by (rewrite length_app; simpl; lia).
    rewrite IH by by rewrite <-app_assoc.
    unfold onresultStep. rewrite Hres.
    rewrite lookup_app_r, Nat.sub_diag by lia. simpl.
    unfold finalTranscript.
    destruct (isFinal r); [|done].
    destruct (alternative r) as [t|]; [|done]. simpl.
    by rewrite <-app_assoc.
Qed.

Lemma onresult_segments ev st :
  onresult ev st
  = set_recognizedSegments
      (recognizedSegments st
         ++ omap finalTranscript (drop (resultIndex ev) (results ev))) st.
Proof.
  unfold onresult.
  destruct (decide (resultIndex ev ≤ length (results ev))) as [Hle|Hgt].
  - rewrite <-(onresult_loop ev (take (resultIndex ev) (results ev))).
    + by rewrite length_take, length_drop, Nat.min_l.
    + by rewrite take_drop.
  - replace (length (results ev) - resultIndex ev) with 0 by lia.
    rewrite drop_ge by lia. simpl.
    by rewrite app_nil_r, set_recognizedSegments_same.
Qed.

Lemma resetRecordingArtifacts_state b st :
  (resetRecordingArtifacts b st).1 =
    (stopActiveRecording st).1
       |> set_recordedChunks []
       |> set_recognizedSegments []
       |> set_playbackUrl None
       |> set_playbackHidden true
       |> set_playbackSrc None
       |> set_recordingStatusText
            (if b then StatusBlank
             else if answerShown st then recordingStatusText st
             else StatusEnded) ∧
  (resetRecordingArtifacts b st).2 =
    (stopActiveRecording st).2
    ++ match playbackUrl st with Some url => [RevokeObjectUrl url] | None => [] end.
Proof.
  unfold resetRecordingArtifacts.
  pose proof (stopActiveRecording_state st) as Hst.
  destruct (stopActiveRecording st) as [st1 c1]. simpl in Hst. subst st1.
  destruct st as [cc sh sr md mr ms ch pu rc rr ra sg bl br bd rt rs ph ps].
  simpl. destruct pu, b, sh; done.
Qed.

Lemma startRecording_granted tracks started st :
  isRecording st = false →
  mediaDevices st = true →
  (startRecording (MediaGranted tracks) started st).1 =
    (startRecognition started
       (st |> set_mediaStream (Some tracks)
           |> set_recordedChunks []
           |> set_mediaRecorder (Some RecorderRecording)
           |> set_recordBtnLabel LabelStop
           |> set_recordBtnRecording true
           |> set_recordingStatusText StatusRecording
           |> set_recordingStatusRecording true
           |> set_recordBtnDisabled false)).1 ∧
  (startRecording (MediaGranted tracks) started st).2 =
    [GetUserMedia; RecorderStart]
    ++ (if speechRecognition st then [RecognitionStart] else []).
Proof.
  intros Hrec Hmd. unfold startRecording, startRecording_begin.
  rewrite Hrec, Hmd. simpl. unfold startRecognition, initRecognition. simpl.
  destruct (speechRecognition st) eqn:Hsr; simpl; [|done].
  destruct (recognition st) eqn:Hrc; simpl; rewrite ?Hrc; simpl;
    by destruct started.
Qed.

Lemma stopActiveRecording_no_revoke st url :
  RevokeObjectUrl url ∉ (stopActiveRecording st).2.
Proof.
  rewrite stopActiveRecording_calls, !elem_of_app. intros [Hin|[Hin|Hin]].
  - destruct (isRecording st); [|by apply elem_of_nil in Hin].
    by apply list_elem_of_singleton in Hin.
  - apply list_elem_of_fmap in Hin as (t & Ht & _). done.
  - destruct (recognition st && recognitionActive st);
      [|by apply elem_of_nil in Hin].
    by apply list_elem_of_singleton in Hin.
Qed.

End RecordingFacts.

(** The shadowing page before anything was recorded, with a recogniser
    and a microphone available and a card loaded. *)
Definition recordingIdle : Recording.State :=
  {| Recording.currentCard :=
       Some {| fr_sentence := Some (js "Le chat dort."); fr_english := None |};
     Recording.answerShown := false;
     Recording.speechRecognition := true;
     Recording.mediaDevices := true;
     Recording.mediaRecorder := None;
     Recording.mediaStream := None;
     Recording.recordedChunks := [];
     Recording.playbackUrl := None;
     Recording.recognition := false;
     Recording.recognitionShouldRestart := false;
     Recording.recognitionActive := false;
     Recording.recognizedSegments := [];
     Recording.recordBtnLabel := Recording.LabelStart;
     Recording.recordBtnRecording := false;
     Recording.recordBtnDisabled := false;
     Recording.recordingStatusText := Recording.StatusHint;
     Recording.recordingStatusRecording := false;
     Recording.playbackHidden := true;
     Recording.playbackSrc := None |}.

(** Facts shared by the statements on recording. *)
Lemma stopActiveRecording_released (st : Recording.State) :
  Recording.mediaStream (Recording.stopActiveRecording st).1 = None ∧
  Recording.isRecording (Recording.stopActiveRecording st).1 = false ∧
  Recording.recognitionShouldRestart (Recording.stopActiveRecording st).1
    = false ∧
  Recording.recordBtnLabel (Recording.stopActiveRecording st).1
    = Recording.LabelStart ∧
  Recording.recordBtnDisabled (Recording.stopActiveRecording st).1 = false ∧
  (∀ t, t ∈ default [] (Recording.mediaStream st) →
        Recording.TrackStop t ∈ (Recording.stopActiveRecording st).2) ∧
  (Recording.isRecording st = true →
     Recording.RecorderStop ∈ (Recording.stopActiveRecording st).2) ∧
  Recording.recordedChunks (Recording.stopActiveRecording st).1
    = Recording.recordedChunks st ∧
  Recording.recognizedSegments (Recording.stopActiveRecording st).1
    = Recording.recognizedSegments st ∧
  Recording.playbackUrl (Recording.stopActiveRecording st).1
    = Recording.playbackUrl st.
Proof.
  rewrite stopActiveRecording_state, stopActiveRecording_calls.
  unfold Recording.isRecording. simpl.
  repeat split.
  - by destruct (Recording.mediaRecorder st) as [[|]|].
  - intros t Ht. rewrite !elem_of_app. right. left.
    by apply list_elem_of_fmap_2.
  - intros Hrec. rewrite Hrec. by left.
Qed.

Lemma startRecording_granted_facts (tracks : list nat)
    (started : option jsstring) (st : Recording.State) :
  Recording.isRecording st = false →
  Recording.mediaDevices st = true →
  let st' :=
    (Recording.startRecording (Recording.MediaGranted tracks) started st).1 in
  let calls :=
    (Recording.startRecording (Recording.MediaGranted tracks) started st).2 in
  Recording.isRecording st' = true ∧
  Recording.mediaStream st' = Some tracks ∧
  Recording.recordedChunks st' = [] ∧
  Recording.recordBtnLabel st' = Recording.LabelStop ∧
  Recording.recordBtnDisabled st' = false ∧
  (Recording.speechRecognition st = true →
     Recording.recognition st' = true ∧
     Recording.recognitionShouldRestart st' = true ∧
     Recording.recognizedSegments st' = [] ∧
     Recording.recordingStatusText st'
       = match started with
         | None => Recording.StatusRecording
         | Some msg => Recording.StatusNotStarted msg
         end ∧
     calls = [Recording.GetUserMedia; Recording.RecorderStart;
              Recording.RecognitionStart]) ∧
  (Recording.speechRecognition st = false →
     Recording.recognizedSegments st' = Recording.recognizedSegments st ∧
     Recording.recordingStatusText st' = Recording.StatusRecording ∧
     calls = [Recording.GetUserMedia; Recording.RecorderStart]).
Proof.
  intros Hrec Hmd st' calls. subst st' calls.
  destruct (startRecording_granted tracks started st Hrec Hmd) as [-> ->].
  unfold Recording.startRecognition, Recording.initRecognition,
    Recording.isRecording.
  simpl.
  destruct (Recording.speechRecognition st) eqn:Hsr; simpl.
  - destruct (Recording.recognition st) eqn:Hrc; simpl; rewrite ?Hrc; simpl;
      destruct started; simpl; repeat split; try done.
  - repeat split; done.
Qed.

(** * Further properties: the statements *)

(** ** Edit distance *)

(** X1: the distance of two strings is 0 exactly when they are equal. *)
Theorem levenshtein_zero_iff {A : Type} `{EqDecision A} (a b : list A) :
  levenshtein a b = 0 ↔ a = b.
Proof. rewrite levenshtein_lev. apply lev_zero_iff. Qed.

(** X2: the triangle inequality. *)
Theorem levenshtein_triangle {A : Type} `{EqDecision A} (a b c : list A) :
  levenshtein a c ≤ levenshtein a b + levenshtein b c.
Proof. rewrite !levenshtein_lev. apply lev_triangle. Qed.

(** X3: the distance is at least the difference of the two lengths. *)
Theorem levenshtein_length_gap {A : Type} `{EqDecision A} (a b : list A) :
  length a - length b ≤ levenshtein a b ∧
  length b - length a ≤ levenshtein a b.
Proof.
  rewrite levenshtein_lev.
  pose proof (script_length _ _ _ (lev_script a b)). lia.
Qed.

(** X4: a common prefix and a common suffix do not count. *)
Theorem levenshtein_common_affixes {A : Type} `{EqDecision A}
    (p s a b : list A) :
  levenshtein (p ++ a ++ s) (p ++ b ++ s) = levenshtein a b.
Proof.
  rewrite !levenshtein_lev, lev_common_prefix. apply lev_common_suffix.
Qed.

(** ** Escaping *)

(** X5: escaped text holds no angle bracket and no quote: none of the
    code units of < > and the double and single quote occurs in it. *)
Theorem escapeHtml_no_markup (s : jsstring) :
  Forall (λ c, c ≠ 60%N ∧ c ≠ 62%N ∧ c ≠ 34%N ∧ c ≠ 39%N) (escapeHtml s).
Proof.
  eapply Forall_impl; [apply escapeHtml_output|].
  simpl. intros c Hc.
  repeat split; intros ->; by specialize (Hc eq_refl).
Qed.

(** X6: escaping loses nothing: two texts have the same escaped form
    exactly when they are the same text. *)
Theorem escapeHtml_injective (s t : jsstring) :
  escapeHtml s = escapeHtml t ↔ s = t.
Proof. split; [apply escapeHtml_inj|by intros ->]. Qed.

(** X7: escaping changes a text exactly when the text holds one of the
    five characters & < > and the two quotes; and it works piece by
    piece, [escapeHtml (s ++ t) = escapeHtml s ++ escapeHtml t]. *)
Theorem escapeHtml_identity_iff (s t : jsstring) :
  (escapeHtml s = s ↔
   Forall (λ c, c ≠ 38%N ∧ c ≠ 60%N ∧ c ≠ 62%N ∧ c ≠ 34%N ∧ c ≠ 39%N) s) ∧
  escapeHtml (s ++ t) = escapeHtml s ++ escapeHtml t.
Proof.
  split; [|apply escapeHtml_app].
  assert (∀ c, isHtmlSpecial c = false ↔
               c ≠ 38%N ∧ c ≠ 60%N ∧ c ≠ 62%N ∧ c ≠ 34%N ∧ c ≠ 39%N) as Hspec.
  { intros c. unfold isHtmlSpecial.
    rewrite !orb_false_iff, !N.eqb_neq. tauto. }
  split.
  - intros Hfix%escapeHtml_fixed.
    eapply Forall_impl; [done|]. intros c. apply Hspec.
  - intros Hall. apply escapeHtml_plain.
    eapply Forall_impl; [done|]. intros c. apply Hspec.
Qed.

(** ** Normalisation *)

(** X8: whatever the host's string methods do, a normalised string is
    made of characters of the class a-z œ æ ç ' - and of spaces, does not
    begin or end with a space, and has no two spaces in a row. *)
Theorem normalizeForCompare_shape (nfd toLowerCase : jsstring → jsstring)
    (x : jsstring) :
  Forall (λ c, keptChar c = true ∨ c = space)
    (normalizeForCompare nfd toLowerCase x) ∧
  head (normalizeForCompare nfd toLowerCase x) ≠ Some space ∧
  last (normalizeForCompare nfd toLowerCase x) ≠ Some space ∧
  (∀ i, normalizeForCompare nfd toLowerCase x !! i = Some space →
        normalizeForCompare nfd toLowerCase x !! S i ≠ Some space).
Proof. apply normalize_shape. Qed.

(** X9: the normal form is empty exactly when the decomposed, stripped
    and lower-cased text holds no character of the class. *)
Theorem normalizeForCompare_empty_iff (nfd toLowerCase : jsstring → jsstring)
    (x : jsstring) :
  normalizeForCompare nfd toLowerCase x = [] ↔
  Forall (λ c, keptChar c = false)
    (toLowerCase (stripCombiningMarks (nfd x))).
Proof. apply normalize_empty_iff. Qed.

(** ** Similarity score *)

(** X10: the score does not depend on the order of its arguments. *)
Theorem similarityScore_symmetric (nfd toLowerCase : jsstring → jsstring)
    (expected actual : jsstring) :
  similarityScore nfd toLowerCase expected actual
  = similarityScore nfd toLowerCase actual expected.
Proof. apply score_sym. Qed.

(** X11: the score is 1 exactly when the two normal forms are equal and
    not empty. *)
Theorem similarityScore_one_iff (nfd toLowerCase : jsstring → jsstring)
    (expected actual : jsstring) :
  (similarityScore nfd toLowerCase expected actual == 1)%Q ↔
  normalizeForCompare nfd toLowerCase expected
    = normalizeForCompare nfd toLowerCase actual ∧
  normalizeForCompare nfd toLowerCase expected ≠ [].
Proof. apply score_one_iff. Qed.

(** ** Evaluation of an attempt *)

(** X12: an attempt whose recognised text has the same, non-empty normal
    form as the card's sentence is rated very close. *)
Theorem evaluatePronunciation_exact (nfd toLowerCase : jsstring → jsstring)
    (st : FrState) (card : FrCard) :
  fr_currentCard st = Some card →
  fr_speechRecognition st = true →
  trim (join [space] (fr_recognizedSegments st)) ≠ [] →
  normalizeForCompare nfd toLowerCase (default [] (fr_sentence card))
    = normalizeForCompare nfd toLowerCase
        (trim (join [space] (fr_recognizedSegments st))) →
  normalizeForCompare nfd toLowerCase (default [] (fr_sentence card)) ≠ [] →
  fr_feedbackText (evaluatePronunciation nfd toLowerCase st)
    = Some FeedbackVeryClose.
Proof.
  intros Hcard Hsr Hact Heq Hne.
  rewrite (evaluatePronunciation_scored _ _ _ _ Hcard Hsr Hact).
  f_equal. apply feedbackFor_veryClose.
  assert (similarityScore nfd toLowerCase (default [] (fr_sentence card))
            (trim (join [space] (fr_recognizedSegments st))) == 1)%Q as ->
    by by apply score_one_iff.
  done.
Qed.

(** The sentence "Le chat !" repeated as the segments "le" and "chat". *)
Lemma evaluatePronunciation_exact_witness :
  fr_feedbackText
    (evaluatePronunciation Latin.nfd Latin.toLowerCase
       {| fr_currentCard :=
            Some {| fr_sentence := Some (js "Le chat !"); fr_english := None |};
          fr_speechRecognition := true;
          fr_recognizedSegments := [js "le"; js "chat"];
          fr_feedbackText := None;
          fr_feedbackHidden := true;
          fr_transcript := TranscriptEmpty;
          fr_transcriptHidden := true |})
    = Some FeedbackVeryClose.
Proof.
  apply (evaluatePronunciation_exact Latin.nfd Latin.toLowerCase _
           {| fr_sentence := Some (js "Le chat !"); fr_english := None |});
    by vm_compute.
Defined.

(** X13: when something was recognised but the sentence of the card (or
    the recognised text) has an empty normal form, for instance because
    the card has no sentence, the score of the attempt is 0 and the
    attempt is rated a large deviation. *)
Theorem evaluatePronunciation_unscorable (nfd toLowerCase : jsstring → jsstring)
    (st : FrState) (card : FrCard) :
  fr_currentCard st = Some card →
  fr_speechRecognition st = true →
  trim (join [space] (fr_recognizedSegments st)) ≠ [] →
  normalizeForCompare nfd toLowerCase (default [] (fr_sentence card)) = [] ∨
  normalizeForCompare nfd toLowerCase
    (trim (join [space] (fr_recognizedSegments st))) = [] →
  similarityScore nfd toLowerCase (default [] (fr_sentence card))
    (trim (join [space] (fr_recognizedSegments st))) = 0%Q ∧
  fr_feedbackText (evaluatePronunciation nfd toLowerCase st)
    = Some (feedbackFor
              (similarityScore nfd toLowerCase (default [] (fr_sentence card))
                 (trim (join [space] (fr_recognizedSegments st))))) ∧
  fr_feedbackText (evaluatePronunciation nfd toLowerCase st)
    = Some FeedbackLargeDeviation.
Proof.
  intros Hcard Hsr Hact Hemp.
  rewrite (evaluatePronunciation_scored _ _ _ _ Hcard Hsr Hact).
  rewrite score_empty by done. done.
Qed.

(** A card without a sentence, and the segment "bonjour". *)
Lemma evaluatePronunciation_unscorable_witness :
  similarityScore Latin.nfd Latin.toLowerCase [] (js "bonjour") = 0%Q ∧
  fr_feedbackText
    (evaluatePronunciation Latin.nfd Latin.toLowerCase
       {| fr_currentCard :=
            Some {| fr_sentence := None; fr_english := None |};
          fr_speechRecognition := true;
          fr_recognizedSegments := [js "bonjour"];
          fr_feedbackText := None;
          fr_feedbackHidden := true;
          fr_transcript := TranscriptEmpty;
          fr_transcriptHidden := true |})
    = Some FeedbackLargeDeviation.
Proof.
  pose proof (evaluatePronunciation_unscorable Latin.nfd Latin.toLowerCase
           {| fr_currentCard :=
                Some {| fr_sentence := None; fr_english := None |};
              fr_speechRecognition := true;
              fr_recognizedSegments := [js "bonjour"];
              fr_feedbackText := None;
              fr_feedbackHidden := true;
              fr_transcript := TranscriptEmpty;
              fr_transcriptHidden := true |}
           {| fr_sentence := None; fr_english := None |}
           eq_refl eq_refl) as H.
  refine (let H' := H _ _ in conj (proj1 H') (proj2 (proj2 H'))).
  - by vm_compute.
  - left. by vm_compute.
Defined.

(** X14: evaluating twice gives what evaluating once gives, and the
    evaluation never touches the card, the recogniser's availability or
    the recognised segments. *)
Theorem evaluatePronunciation_idempotent (nfd toLowerCase : jsstring → jsstring)
    (st : FrState) :
  evaluatePronunciation nfd toLowerCase
    (evaluatePronunciation nfd toLowerCase st)
  = evaluatePronunciation nfd toLowerCase st ∧
  fr_currentCard (evaluatePronunciation nfd toLowerCase st)
    = fr_currentCard st ∧
  fr_speechRecognition (evaluatePronunciation nfd toLowerCase st)
    = fr_speechRecognition st ∧
  fr_recognizedSegments (evaluatePronunciation nfd toLowerCase st)
    = fr_recognizedSegments st.
Proof.
  split; [apply evaluatePronunciation_again|].
  unfold evaluatePronunciation.
  destruct (fr_currentCard st) eqn:Hc; [|by rewrite Hc].
  by destruct (fr_speechRecognition st) eqn:Hs.
Qed.

(** ** Token rendering *)

(** X15: a list of tokens renders to the empty string only when it is
    empty. *)
Theorem renderTokens_empty_iff (ts : list Token) :
  renderTokens (Some ts) = [] ↔ ts = [].
Proof.
  rewrite renderTokens_joinSpans. split; [|by intros ->].
  destruct ts as [|t ts]; [done|]. cbn [joinSpans].
  intros [Hnil _]%app_eq_nil. by apply tokenHtml_nonempty in Hnil.
Qed.

(** X16: the rendered text holds exactly two [<], two [>] and two double
    quotes per token, those of the span template: no token text adds
    markup of its own. *)
Theorem renderTokens_markup_count (ts : list Token) :
  occurrences 60 (renderTokens (Some ts)) = 2 * length ts ∧
  occurrences 62 (renderTokens (Some ts)) = 2 * length ts ∧
  occurrences 34 (renderTokens (Some ts)) = 2 * length ts.
Proof.
  rewrite renderTokens_joinSpans. destruct ts as [|t ts]; [done|].
  cbn [joinSpans]. rewrite !occurrences_app.
  destruct (tokenHtml_markup t) as (-> & -> & ->).
  destruct (spansAfter_markup t ts) as (-> & -> & ->).
  simpl length. lia.
Qed.

(** X17: rendering a list cut in two non-empty parts is rendering the
    parts and putting between them the separator of the two tokens that
    meet at the cut. *)
Theorem renderTokens_concat (l1 l2 : list Token) (t1 t2 : Token) :
  renderTokens (Some ((l1 ++ [t1]) ++ t2 :: l2))
  = renderTokens (Some (l1 ++ [t1])) ++ separator t1 t2
      ++ renderTokens (Some (t2 :: l2)).
Proof. rewrite !renderTokens_joinSpans. apply joinSpans_app. Qed.

(** ** Recording and recognition *)

(** X23: stopping releases everything that records. Afterwards no stream
    is held, the recorder is not recording, the recogniser is not to be
    restarted and the button is back to its start label, enabled. Every
    track of the stream held before was stopped, and a recorder that was
    recording was stopped. What was recorded and recognised stays. *)
Theorem stopActiveRecording_releases (st : Recording.State) :
  Recording.mediaStream (Recording.stopActiveRecording st).1 = None ∧
  Recording.isRecording (Recording.stopActiveRecording st).1 = false ∧
  Recording.recognitionShouldRestart (Recording.stopActiveRecording st).1
    = false ∧
  Recording.recordBtnLabel (Recording.stopActiveRecording st).1
    = Recording.LabelStart ∧
  Recording.recordBtnDisabled (Recording.stopActiveRecording st).1 = false ∧
  (∀ t, t ∈ default [] (Recording.mediaStream st) →
        Recording.TrackStop t ∈ (Recording.stopActiveRecording st).2) ∧
  (Recording.isRecording st = true →
     Recording.RecorderStop ∈ (Recording.stopActiveRecording st).2) ∧
  Recording.recordedChunks (Recording.stopActiveRecording st).1
    = Recording.recordedChunks st ∧
  Recording.recognizedSegments (Recording.stopActiveRecording st).1
    = Recording.recognizedSegments st ∧
  Recording.playbackUrl (Recording.stopActiveRecording st).1
    = Recording.playbackUrl st.
Proof. apply stopActiveRecording_released. Qed.

(** X24: stopping twice is stopping once: the second call leaves the
    state as it is, and calls neither the recorder nor a track. *)
Theorem stopActiveRecording_idempotent (st : Recording.State) :
  (Recording.stopActiveRecording (Recording.stopActiveRecording st).1).1
    = (Recording.stopActiveRecording st).1 ∧
  Forall (λ c, c = Recording.RecognitionStop)
    (Recording.stopActiveRecording (Recording.stopActiveRecording st).1).2.
Proof.
  split; [apply stopActiveRecording_twice|].
  rewrite stopActiveRecording_calls, stopActiveRecording_state.
  unfold Recording.isRecording. simpl.
  destruct (Recording.mediaRecorder st) as [[|]|]; simpl;
    destruct (Recording.recognition st && Recording.recognitionActive st);
    by repeat constructor.
Qed.

(** X25: when the recogniser ends it is marked inactive, and it is
    started again exactly when a restart is wanted and the recorder is
    recording; after [stopActiveRecording] it is never started again. *)
Theorem onend_restart (started : option jsstring) (st : Recording.State) :
  Recording.recognitionActive (Recording.onend started st).1 = false ∧
  (Recording.RecognitionStart ∈ (Recording.onend started st).2 ↔
   Recording.recognitionShouldRestart st = true ∧
   Recording.isRecording st = true) ∧
  (Recording.onend started (Recording.stopActiveRecording st).1).2 = [].
Proof.
  split; [|split].
  - unfold Recording.onend, Recording.isRecording. simpl.
    destruct (Recording.recognitionShouldRestart st),
      (Recording.mediaRecorder st) as [[|]|], started; done.
  - unfold Recording.onend, Recording.isRecording. simpl.
    destruct (Recording.recognitionShouldRestart st),
      (Recording.mediaRecorder st) as [[|]|]; simpl;
      split; try done; try (by intros [? ?]);
      try (by intros ?%elem_of_nil); intros _; by left.
  - rewrite stopActiveRecording_state. by unfold Recording.onend.
Qed.

(** X26: a result event appends, in order, the trimmed first
    transcripts of the final results from [resultIndex] on; it changes
    nothing else, and the segments already recognised stay in front. *)
Theorem onresult_appends_finals (ev : Recording.ResultEvent)
    (st : Recording.State) :
  Recording.onresult ev st
  = Recording.set_recognizedSegments
      (Recording.recognizedSegments st
         ++ omap finalTranscript
              (drop (Recording.resultIndex ev) (Recording.results ev))) st.
Proof. apply onresult_segments. Qed.

(** X27: resetting stops the recording and forgets its results: no
    chunks, no segments, no playback address, the player hidden. The old
    playback address is revoked exactly when there was one. The status
    line is blanked when asked for; otherwise it reads "recording ended"
    unless the answer is shown. *)
Theorem resetRecordingArtifacts_clears (resetStatus : bool)
    (st : Recording.State) :
  Recording.recordedChunks (Recording.resetRecordingArtifacts resetStatus st).1
    = [] ∧
  Recording.recognizedSegments
    (Recording.resetRecordingArtifacts resetStatus st).1 = [] ∧
  Recording.playbackUrl (Recording.resetRecordingArtifacts resetStatus st).1
    = None ∧
  Recording.playbackSrc (Recording.resetRecordingArtifacts resetStatus st).1
    = None ∧
  Recording.playbackHidden (Recording.resetRecordingArtifacts resetStatus st).1
    = true ∧
  Recording.mediaStream (Recording.resetRecordingArtifacts resetStatus st).1
    = None ∧
  Recording.isRecording (Recording.resetRecordingArtifacts resetStatus st).1
    = false ∧
  (∀ url, Recording.RevokeObjectUrl url
            ∈ (Recording.resetRecordingArtifacts resetStatus st).2 ↔
          Recording.playbackUrl st = Some url) ∧
  Recording.recordingStatusText
    (Recording.resetRecordingArtifacts resetStatus st).1
    = (if resetStatus then Recording.StatusBlank
       else if Recording.answerShown st then Recording.recordingStatusText st
       else Recording.StatusEnded).
Proof.
  destruct (resetRecordingArtifacts_state resetStatus st) as [-> ->].
  rewrite stopActiveRecording_state.
  unfold Recording.isRecording. simpl.
  repeat split; try done.
  - by destruct (Recording.mediaRecorder st) as [[|]|].
  - rewrite elem_of_app. intros [Hin|Hin].
    + by apply stopActiveRecording_no_revoke in Hin.
    + destruct (Recording.playbackUrl st) as [u|];
        [|by apply elem_of_nil in Hin].
      apply list_elem_of_singleton in Hin. by injection Hin as ->.
  - intros ->. rewrite elem_of_app. right. by left.
Qed.

(** X28: a granted request for the microphone starts a recording from
    scratch: the stream is held, the recorder records, there are no
    chunks, and the button reads stop and is enabled. With a recogniser,
    the segments of an earlier recording are dropped and the recogniser
    is started and marked for restart; when its start throws, the status
    line shows that message instead of "recording". Without a
    recogniser, only the recorder is started. *)
Theorem startRecording_granted_result (tracks : list nat)
    (started : option jsstring) (st : Recording.State) :
  Recording.isRecording st = false →
  Recording.mediaDevices st = true →
  let st' :=
    (Recording.startRecording (Recording.MediaGranted tracks) started st).1 in
  let calls :=
    (Recording.startRecording (Recording.MediaGranted tracks) started st).2 in
  Recording.isRecording st' = true ∧
  Recording.mediaStream st' = Some tracks ∧
  Recording.recordedChunks st' = [] ∧
  Recording.recordBtnLabel st' = Recording.LabelStop ∧
  Recording.recordBtnDisabled st' = false ∧
  (Recording.speechRecognition st = true →
     Recording.recognition st' = true ∧
     Recording.recognitionShouldRestart st' = true ∧
     Recording.recognizedSegments st' = [] ∧
     Recording.recordingStatusText st'
       = match started with
         | None => Recording.StatusRecording
         | Some msg => Recording.StatusNotStarted msg
         end ∧
     calls = [Recording.GetUserMedia; Recording.RecorderStart;
              Recording.RecognitionStart]) ∧
  (Recording.speechRecognition st = false →
     Recording.recognizedSegments st' = Recording.recognizedSegments st ∧
     Recording.recordingStatusText st' = Recording.StatusRecording ∧
     calls = [Recording.GetUserMedia; Recording.RecorderStart]).
Proof. apply startRecording_granted_facts. Qed.

(** The idle page, granted a stream with one track. *)
Lemma startRecording_granted_result_witness :
  Recording.isRecording
    (Recording.startRecording (Recording.MediaGranted [0]) None
       recordingIdle).1 = true.
Proof.
  exact (proj1 (startRecording_granted_result [0] None recordingIdle
                  eq_refl eq_refl)).
Defined.

(** X29: a second click on the record button ends what the first one
    started: after a click that was granted a stream, the next click
    stops the recorder and every track of that stream, and leaves no
    stream held and the button back to its start label. *)
Theorem recordClick_twice (tracks : list nat) (started started2 : option jsstring)
    (outcome2 : Recording.MediaOutcome) (st : Recording.State) :
  Recording.recordBtnDisabled st = false →
  Recording.isRecording st = false →
  Recording.mediaDevices st = true →
  let st1 :=
    (Recording.recordClick (Recording.MediaGranted tracks) started st).1 in
  let second := Recording.recordClick outcome2 started2 st1 in
  Recording.mediaStream second.1 = None ∧
  Recording.isRecording second.1 = false ∧
  Recording.recordBtnLabel second.1 = Recording.LabelStart ∧
  Recording.RecorderStop ∈ second.2 ∧
  (∀ t, t ∈ tracks → Recording.TrackStop t ∈ second.2) ∧
  Recording.GetUserMedia ∉ second.2.
Proof.
  intros Hdis Hrec Hmd st1 second.
  assert (st1 = (Recording.startRecording (Recording.MediaGranted tracks)
                   started st).1) as Hst1.
  { subst st1. unfold Recording.recordClick. by rewrite Hdis, Hrec. }
  destruct (startRecording_granted_facts tracks started st Hrec Hmd)
    as (Hrec1 & Hms1 & _ & _ & Hdis1 & _).
  rewrite <-Hst1 in Hrec1, Hms1, Hdis1.
  assert (second = Recording.stopActiveRecording st1) as ->.
  { subst second. unfold Recording.recordClick. by rewrite Hdis1, Hrec1. }
  destruct (stopActiveRecording_released st1)
    as (Hms & Hir & _ & Hlabel & _ & Htracks & Hstop & _).
  rewrite Hms1 in Htracks. simpl in Htracks.
  repeat split; auto.
  rewrite stopActiveRecording_calls, Hrec1, Hms1, !elem_of_app.
  intros [Hin|[Hin|Hin]].
  - by apply list_elem_of_singleton in Hin.
  - simpl in Hin. apply list_elem_of_fmap in Hin as (t & Ht & _). done.
  - destruct (Recording.recognition st1 && Recording.recognitionActive st1);
      [|by apply elem_of_nil in Hin].
    by apply list_elem_of_singleton in Hin.
Qed.

(** Two clicks on the idle page, the first granted a stream of two
    tracks. *)
Lemma recordClick_twice_witness :
  Recording.mediaStream
    (Recording.recordClick (Recording.MediaDenied []) None
       (Recording.recordClick (Recording.MediaGranted [0; 1]) None
          recordingIdle).1).1 = None.
Proof.
  exact (proj1 (recordClick_twice [0; 1] None None (Recording.MediaDenied [])
                  recordingIdle eq_refl eq_refl eq_refl)).
Defined.

(** X30: revealing the answer ends the recording without touching the
    status line: the part of [showAnswer] before its first [await] sets
    the flag, releases the stream, stops the recorder and the
    recogniser's restarts, keeps the recognised segments, and leaves the
    text of the recording status as it was; a second call returns at
    once. *)
Theorem showAnswer_begin_stops_recording (st st' : Recording.State)
    (calls : list Recording.Call) :
  Recording.showAnswer_begin st = Some (st', calls) →
  Recording.answerShown st' = true ∧
  Recording.recordingStatusText st' = Recording.recordingStatusText st ∧
  Recording.mediaStream st' = None ∧
  Recording.isRecording st' = false ∧
  Recording.recognitionShouldRestart st' = false ∧
  Recording.recognizedSegments st' = Recording.recognizedSegments st ∧
  Recording.showAnswer_begin st' = None.
Proof.
  unfold Recording.showAnswer_begin, Recording.stopRecording.
  destruct (Recording.currentCard st) as [card|] eqn:Hcard; [|done].
  destruct (Recording.answerShown st) eqn:Hshown; [done|].
  intros Heq.
  assert (st' = (Recording.stopActiveRecording
                   (Recording.set_answerShown true st)).1) as ->
    by (injection Heq as Heq; by rewrite Heq).
  rewrite stopActiveRecording_state. unfold Recording.isRecording. simpl.
  rewrite Hcard. repeat split.
  by destruct (Recording.mediaRecorder st) as [[|]|].
Qed.

(** Revealing while the idle page's card is still unanswered. *)
Lemma showAnswer_begin_stops_recording_witness :
  Recording.recordingStatusText
    (Recording.stopActiveRecording
       (Recording.set_answerShown true recordingIdle)).1
  = Recording.recordingStatusText recordingIdle.
Proof.
  refine (proj1 (proj2 (showAnswer_begin_stops_recording recordingIdle
                          (Recording.stopActiveRecording
                             (Recording.set_answerShown true recordingIdle)).1
                          (Recording.stopActiveRecording
                             (Recording.set_answerShown true recordingIdle)).2
                          _))).
  reflexivity.
Defined.

(** ** The listening page *)

(** X18: loading sends one request for the next card and ends, whatever
    the response, with the next button enabled, the answer box hidden
    and blank and both inputs empty. A card is current afterwards
    exactly when the response carried one, and only then is the reveal
    button enabled. *)
Theorem loadCard_outcome (resp : Listening.NextResponse) (st : Listening.State) :
  (Listening.loadCard resp st).2 = [Listening.ReqNext] ∧
  Listening.currentCard (Listening.loadCard resp st).1 = loadedCard resp ∧
  Listening.revealDisabled (Listening.loadCard resp st).1
    = match loadedCard resp with Some _ => false | None => true end ∧
  Listening.nextDisabled (Listening.loadCard resp st).1 = false ∧
  Listening.answerBoxHidden (Listening.loadCard resp st).1 = true ∧
  Listening.answerBoxHtml (Listening.loadCard resp st).1
    = Listening.AnswerBlank ∧
  Listening.listenInputValue (Listening.loadCard resp st).1 = [] ∧
  Listening.wordInputValue (Listening.loadCard resp st).1 = [].
Proof. apply loadCard_result. Qed.

(** X19: nothing the page shows after loading depends on what it showed
    before: two loads with the same response end in states that agree
    on every field, but for the text of the writing original and the
    source of the audio player, which [clearUI] does not reset. *)
Theorem loadCard_forgets (resp : Listening.NextResponse)
    (st1 st2 : Listening.State) :
  Listening.set_writingOriginalContent []
    (Listening.set_audioSrc None (Listening.loadCard resp st1).1)
  = Listening.set_writingOriginalContent []
      (Listening.set_audioSrc None (Listening.loadCard resp st2).1).
Proof. apply loadCard_independent. Qed.

(** X20: a loaded card shows the input of its type and no other: the
    listening input for a listening card, the word input for a word
    card, the original text for a writing card, none of them for any
    other type. *)
Theorem loadCard_shows_one_input (payload : Listening.Card)
    (st : Listening.State) :
  Listening.listenInputWrapperHidden
    (Listening.loadCard (Listening.NextOk payload) st).1
    = match Listening.cardType payload with
      | Listening.TListening => false
      | _ => true
      end ∧
  Listening.wordInputWrapperHidden
    (Listening.loadCard (Listening.NextOk payload) st).1
    = match Listening.cardType payload with
      | Listening.TWord => false
      | _ => true
      end ∧
  Listening.writingOriginalHidden
    (Listening.loadCard (Listening.NextOk payload) st).1
    = match Listening.cardType payload with
      | Listening.TWriting => false
      | _ => true
      end.
Proof. apply loadCard_inputs. Qed.

(** X21: a submission that fails, rejected by the server or thrown by
    the request, sends the one rating request and then leaves the page
    as it was but for four things: the status shows the failure (the
    server's error text when it sent a non-empty one, the status code
    otherwise, the exception's text when the request threw), every ease
    button is enabled, and so are the reveal and next buttons. Without a
    current card nothing happens. *)
Theorem submitAnswer_failure (rating : Z) (resp : Listening.AnswerResponse)
    (next : Listening.NextResponse) (st : Listening.State)
    (e : Listening.ErrorMessage) :
  submitError resp = Some e →
  Listening.submitAnswer rating resp next st =
    match Listening.currentCard st with
    | None => (st, [])
    | Some card =>
        (Listening.set_nextDisabled false
           (Listening.set_revealDisabled false
              (Listening.set_easeButtons
                 (Listening.setDisabled false <$> Listening.easeButtons st)
                 (Listening.set_statusText (Listening.StatusSubmitFailed e) st))),
         [Listening.ReqAnswer (Listening.cardId card) rating])
    end.
Proof. apply submitAnswer_failed. Qed.

(** The revealed sample card, whose rating the server rejects as stale. *)
Lemma submitAnswer_failure_witness :
  (Listening.submitAnswer 3
     (Listening.AnswerRejected 409 (Some (js "stale card")))
     (Listening.NextStatus 404) Listening.revealedState).2
  = [Listening.ReqAnswer 7 3].
Proof.
  rewrite (submitAnswer_failure 3
             (Listening.AnswerRejected 409 (Some (js "stale card")))
             (Listening.NextStatus 404) Listening.revealedState
             (Listening.ErrorText (js "stale card")) eq_refl).
  reflexivity.
Defined.

(** X22: a click on the enabled reveal button of a page with a card sets
    the flag, disables the button and keeps the card. When the card's
    buttons are an array, one enabled ease button per rating is shown,
    in the card's order; otherwise the ease buttons stay as they were.
    If the answer had not been shown, the answer box is visible
    afterwards. *)
Theorem revealClick_outcome (diff : option Listening.DiffResponse)
    (st : Listening.State) (card : Listening.Card) :
  Listening.revealDisabled st = false →
  Listening.currentCard st = Some card →
  Listening.answerShown (Listening.revealClick diff st).1 = true ∧
  Listening.revealDisabled (Listening.revealClick diff st).1 = true ∧
  Listening.currentCard (Listening.revealClick diff st).1 = Some card ∧
  match Listening.buttons card with
  | Some btns =>
      Listening.easeButtonsHidden (Listening.revealClick diff st).1 = false ∧
      Listening.easeButtons (Listening.revealClick diff st).1
        = (λ b, {| Listening.ease := b; Listening.disabled := false |}) <$> btns
  | None =>
      Listening.easeButtonsHidden (Listening.revealClick diff st).1
        = Listening.easeButtonsHidden st ∧
      Listening.easeButtons (Listening.revealClick diff st).1
        = Listening.easeButtons st
  end ∧
  (Listening.answerShown st = false →
   Listening.answerBoxHidden (Listening.revealClick diff st).1 = false).
Proof. apply revealClick_result. Qed.

(** The sample card, just loaded. *)
Lemma revealClick_outcome_witness :
  Listening.answerShown
    (Listening.revealClick None
       (Listening.loadCard (Listening.NextOk Listening.sampleCard)
          Listening.initialState).1).1 = true.
Proof.
  exact (proj1 (revealClick_outcome None
                  (Listening.loadCard (Listening.NextOk Listening.sampleCard)
                     Listening.initialState).1
                  Listening.sampleCard eq_refl eq_refl)).
Defined.
